(** * kHeavyHash proof-of-work kernel of the ShioKaze miner

    A shallow embedding of the three Cython variants of the kernel
    ([kaspa_pow.pyx], [kaspa_pow_v2.pyx], [kaspa_pow_v3.pyx]), of the
    compact-bits decoder quoted in [skills/kaspa/SKILL.md] and of the
    on-chain message decoder of the miner's notes.

    - unsigned 64-bit words are [Z] with the wrap-around written out;
    - C arrays and byte strings are [list Z], updated by index;
    - C doubles are Rocq's primitive binary64 floats;
    - the unbounded retry loop of the matrix generator takes fuel;
    - cSHAKE256 (pycryptodome) is a parameter of the development. *)

From Stdlib Require Import ZArith List Lia Bool Floats Ascii.
From stdpp Require Import base list.
Import ListNotations.

Local Open Scope Z_scope.

(** ** Loops and arrays *)

(** Python's [range(lo, hi, step)] for a positive step. *)
Definition py_range (lo hi step : nat) : list nat :=
  map (fun t => (lo + step * t)%nat) (seq 0 ((hi - lo + step - 1) / step)).

(** [for i in l: s = body i s]. *)
Definition for_in {S : Type} (l : list nat) (body : nat -> S -> S) (s : S) : S :=
  fold_left (fun s i => body i s) l s.

(** Reading cell [i] of an array; [d] stands for what lies out of range. *)
Definition rd {A : Type} (d : A) (a : list A) (i : nat) : A := default d (a !! i).

(** Two-dimensional arrays are lists of rows. *)
Definition rd2 {A : Type} (d : A) (m : list (list A)) (i j : nat) : A :=
  rd d (rd [] m i) j.

Definition wr2 {A : Type} (m : list (list A)) (i j : nat) (x : A) : list (list A) :=
  <[i := <[j := x]> (rd [] m i)]> m.

(** The array [f 0; g 0; f 1; g 1; ...] of [2 * n] cells. *)
Definition pairs {A : Type} (f g : nat -> A) (n : nat) : list A :=
  flat_map (fun i => [f i; g i]) (seq 0 n).

(** ** Unsigned 64-bit arithmetic *)

Definition u64 (x : Z) : Z := x mod 2 ^ 64.

Definition is_u64 (x : Z) : Prop := 0 <= x < 2 ^ 64.
Definition is_byte (x : Z) : Prop := 0 <= x < 256.
Definition is_nibble (x : Z) : Prop := 0 <= x < 16.

Definition in_u64 (x : Z) : bool := (0 <=? x) && (x <? 2 ^ 64).

(** [rotl] of all three files: [(x << k) | (x >> (64 - k))] on [uint64_t]. *)
Definition rotl (x : Z) (k : Z) : Z :=
  Z.lor (u64 (Z.shiftl x k)) (Z.shiftr x (64 - k)).

(** ** Xoshiro256++ *)

(** The generator state: the fields [s0..s3] of the class
    [Xoshiro256PlusPlus] (v1, v2), the array [state[4]] of v3. *)
Module Xoshiro256PlusPlus.
Record t := new { s0 : Z; s1 : Z; s2 : Z; s3 : Z }.
End Xoshiro256PlusPlus.

Abbreviation xstate := Xoshiro256PlusPlus.t.

(** [Xoshiro256PlusPlus.next_uint64] (v1, v2) and [xoshiro_next] (v3), which
    are the same statements: the word drawn and the state left behind. *)
Definition xoshiro_next (s : xstate) : Z * xstate :=
  let '(Xoshiro256PlusPlus.new s0 s1 s2 s3) := s in
  let result := u64 (rotl (u64 (s0 + s3)) 23 + s0) in
  let t := u64 (Z.shiftl s1 17) in
  let s2 := Z.lxor s2 s0 in
  let s3 := Z.lxor s3 s1 in
  let s1 := Z.lxor s1 s2 in
  let s0 := Z.lxor s0 s3 in
  let s2 := Z.lxor s2 t in
  let s3 := rotl s3 45 in
  (result, Xoshiro256PlusPlus.new s0 s1 s2 s3).

(** The state after [n] draws. *)
Fixpoint draws (n : nat) (s : xstate) : xstate :=
  match n with
  | O => s
  | S n' => draws n' (snd (xoshiro_next s))
  end.

(** ** Byte strings *)

(** [int.from_bytes(b, 'little')]. *)
Fixpoint from_bytes_little (b : list Z) : Z :=
  match b with
  | [] => 0
  | x :: r => x + 256 * from_bytes_little r
  end.

(** [int.from_bytes(b, 'big')], most significant byte first. *)
Definition from_bytes_big (b : list Z) : Z :=
  fold_left (fun acc x => 256 * acc + x) b 0.

(** The [n] low bytes of [x], least significant first. *)
Definition le_bytes (n : nat) (x : Z) : list Z :=
  map (fun j => Z.land (Z.shiftr x (Z.of_nat j * 8)) 255) (seq 0 n).

(** [struct.pack('<Q', x)]. *)
Definition pack_le64 (x : Z) : list Z := le_bytes 8 x.

(** [x.to_bytes(n, 'big')]. *)
Definition to_bytes_big (n : nat) (x : Z) : list Z := rev (le_bytes n x).

(** The slice [b[lo:hi]]. *)
Definition slice (b : list Z) (lo hi : nat) : list Z := take (hi - lo) (drop lo b).

(** ** Rank computer *)

Module Rank.

Local Open Scope float_scope.

(** [double epsilon = 1e-9]: the binary64 value nearest to 1e-9. *)
Definition epsilon : float := 0x1.12e0be826d695p-30.

(** [x > epsilon or x < -epsilon]. *)
Definition non_negligible (x : float) : bool :=
  (epsilon <? x) || (x <? - epsilon).

(** [<double>x] for a [uint16_t] cell. *)
Definition to_double (x : Z) : float := PrimFloat.of_uint63 (Uint63.of_Z x).

Definition size : nat := 64.

Record state := State {
  mat_float : list (list float);
  row_selected : list bool;
  rank : Z
}.

(** The scan [j = 0; while j < size: if ...: break; j += 1]; the result is
    [size] when no row qualifies. *)
Fixpoint scan (n : nat) (j : nat) (i : nat) (st : state) : nat :=
  match n with
  | O => j
  | S n' =>
      if negb (rd false (row_selected st) j)
         && non_negligible (rd2 0 (mat_float st) j i)
      then j
      else scan n' (S j) i st
  end.

Definition find_pivot (i : nat) (st : state) : nat := scan size 0%nat i st.

(** Body of the column loop in [compute_rank_c] (v3), which caches the
    divisor and the multiplier in [temp]. *)
Definition step_c (i : nat) (st : state) : state :=
  let j := find_pivot i st in
  if Nat.eqb j size then st
  else
    let sel := <[j := true]> (row_selected st) in
    let m := mat_float st in
    let temp := rd2 0 m j i in
    let m := for_in (py_range (i + 1) size 1)
               (fun p m => wr2 m j p (rd2 0 m j p / temp)) m in
    let m := for_in (py_range 0 size 1)
               (fun k m =>
                  if negb (Nat.eqb k j) && non_negligible (rd2 0 m k i)
                  then
                    let temp := rd2 0 m k i in
                    for_in (py_range (i + 1) size 1)
                      (fun p m => wr2 m k p (rd2 0 m k p - rd2 0 m j p * temp)) m
                  else m) m in
    State m sel (rank st + 1)%Z.

(** Body of the column loop in [compute_rank] (v1 and v2), which re-reads
    [mat_float[j][i]] and [mat_float[k][i]] inside the inner loops. *)
Definition step (i : nat) (st : state) : state :=
  let j := find_pivot i st in
  if Nat.eqb j size then st
  else
    let sel := <[j := true]> (row_selected st) in
    let m := mat_float st in
    let m := for_in (py_range (i + 1) size 1)
               (fun p m => wr2 m j p (rd2 0 m j p / rd2 0 m j i)) m in
    let m := for_in (py_range 0 size 1)
               (fun k m =>
                  if negb (Nat.eqb k j) && non_negligible (rd2 0 m k i)
                  then
                    for_in (py_range (i + 1) size 1)
                      (fun p m => wr2 m k p (rd2 0 m k p - rd2 0 m j p * rd2 0 m k i)) m
                  else m) m in
    State m sel (rank st + 1)%Z.

(** The copy into [mat_float], clearing [row_selected]; [cell i j] reads
    the caller's matrix. *)
Definition init (cell : nat -> nat -> Z) : state :=
  State (map (fun i => map (fun j => to_double (cell i j)) (seq 0 size)) (seq 0 size))
        (repeat false size) 0%Z.

(** The state before column [i] of the elimination. *)
Definition run_c (n : nat) (st : state) : state := for_in (seq 0 n) step_c st.
Definition run (n : nat) (st : state) : state := for_in (seq 0 n) step st.

(** The column step as the specification words it: the elimination
    leaves alone every row selected at an earlier column. *)
Definition step_untouched (i : nat) (st : state) : state :=
  let j := find_pivot i st in
  if Nat.eqb j size then st
  else
    let sel := <[j := true]> (row_selected st) in
    let m := mat_float st in
    let temp := rd2 0 m j i in
    let m := for_in (py_range (i + 1) size 1)
               (fun p m => wr2 m j p (rd2 0 m j p / temp)) m in
    let m := for_in (py_range 0 size 1)
               (fun k m =>
                  if negb (Nat.eqb k j) && negb (rd false sel k)
                     && non_negligible (rd2 0 m k i)
                  then
                    let temp := rd2 0 m k i in
                    for_in (py_range (i + 1) size 1)
                      (fun p m => wr2 m k p (rd2 0 m k p - rd2 0 m j p * temp)) m
                  else m) m in
    State m sel (rank st + 1)%Z.

Definition run_untouched (n : nat) (st : state) : state :=
  for_in (seq 0 n) step_untouched st.

(** The columns at which the scan finds a pivot row. *)
Definition pivot_columns (st0 : state) : list nat :=
  List.filter (fun i => negb (Nat.eqb (find_pivot i (run_c i st0)) size)) (seq 0 size).

(** The number of rows marked selected. *)
Definition selected_count (st : state) : nat :=
  length (List.filter (fun b : bool => b) (row_selected st)).

(** The two row updates of a step, on the rows themselves. *)
Definition norm_row (ps : list nat) (temp : float) (r : list float) : list float :=
  for_in ps (fun p r => <[p := rd 0 r p / temp]> r) r.

Definition elim_row (ps : list nat) (temp : float) (rj r : list float) : list float :=
  for_in ps (fun p r => <[p := rd 0 r p - rd 0 rj p * temp]> r) r.

(** States that agree on the flags, on the rank and on every row that is
    not selected. *)
Definition agree (st st' : state) : Prop :=
  row_selected st = row_selected st'
  /\ rank st = rank st'
  /\ forall k, rd false (row_selected st) k = false ->
               rd [] (mat_float st) k = rd [] (mat_float st') k.

(** What column [i] does to the state [st], giving [st']: the pivot [j]
    is the first row that is not selected and has a non-negligible entry
    in column [i]; without one the state is unchanged; otherwise row [j]
    is marked, the rank grows by one, row [j] is normalised to the right
    of column [i], and every other row with a non-negligible entry in
    column [i], selected earlier or not, has the multiple of row [j]
    subtracted to the right of column [i]. *)
Definition column_step (i : nat) (st st' : state) : Prop :=
  let j := find_pivot i st in
  let ps := py_range (i + 1) size 1 in
  let m := mat_float st in
  (j <= size)%nat
  /\ (forall j', (j' < j)%nat ->
        rd false (row_selected st) j' = true
        \/ non_negligible (rd2 0 m j' i) = false)
  /\ (j = size -> st' = st)
  /\ ((j < size)%nat ->
      rd false (row_selected st) j = false
      /\ non_negligible (rd2 0 m j i) = true
      /\ row_selected st' = <[j := true]> (row_selected st)
      /\ rank st' = (rank st + 1)%Z
      /\ let rj := norm_row ps (rd2 0 m j i) (rd [] m j) in
         forall k,
           rd [] (mat_float st') k =
           if decide (k = j) then rj
           else if Nat.ltb k size && non_negligible (rd2 0 m k i)
                then elim_row ps (rd2 0 m k i) rj (rd [] m k)
                else rd [] m k).

End Rank.

(** [compute_rank_c(uint16_t* matrix)] of v3: the matrix is flat, row-major. *)
Definition compute_rank_c (matrix : list Z) : Z :=
  Rank.rank (Rank.run_c Rank.size
               (Rank.init (fun i j => rd 0 matrix (i * 64 + j)))).

(** [compute_rank(uint16_t[:, :] matrix)] of v1 and v2. *)
Definition compute_rank (matrix : list (list Z)) : Z :=
  Rank.rank (Rank.run Rank.size (Rank.init (fun i j => rd2 0 matrix i j))).

(** The rank computer with the elimination of the specification. *)
Definition compute_rank_untouched (cell : nat -> nat -> Z) : Z :=
  Rank.rank (Rank.run_untouched Rank.size (Rank.init cell)).

(** [r] is the rank the computer finds for the matrix with cells [cell]:
    every column does [Rank.column_step], [r] lies in [0, 64], counts the
    columns with a pivot and the rows selected at the end, and is what
    the elimination of the specification finds. *)
Definition gaussian_rank (cell : nat -> nat -> Z) (r : Z) : Prop :=
  let st0 := Rank.init cell in
  (forall i, (i < 64)%nat ->
     Rank.column_step i (Rank.run_c i st0) (Rank.run_c (S i) st0))
  /\ 0 <= r <= 64
  /\ r = Z.of_nat (length (Rank.pivot_columns st0))
  /\ r = Z.of_nat (Rank.selected_count (Rank.run_c 64 st0))
  /\ r = compute_rank_untouched cell.

(** ** Python-level results and the hash primitive *)

(** The exception the kernel's entry points raise on arguments of the
    declared Python types: an integer that does not fit [uint64_t].
    Allocation is taken to succeed. *)
Inductive exn := OverflowError.

(** What a call does: return a value or raise. *)
Inductive result (A : Type) :=
  | Returned (a : A)
  | Raised (e : exn).
Arguments Returned {A} a.
Arguments Raised {A} e.

Definition result_map {A B : Type} (f : A -> B) (r : result A) : result B :=
  match r with
  | Returned a => Returned (f a)
  | Raised e => Raised e
  end.

(** Conversion of a Python int to a [uint64_t] argument or variable. *)
Definition as_uint64 {A : Type} (x : Z) (k : Z -> result A) : result A :=
  if in_u64 x then k x else Raised OverflowError.

(** [cSHAKE256.new(data=d, custom=c).read(32)] of pycryptodome, the same
    as [new(custom=c)], [update(d)], [read(32)]: a function of the
    customization string and the data which yields 32 bytes. *)
Class CShake256 := {
  cSHAKE256 : list Z -> list Z -> list Z;
  cSHAKE256_length : forall custom data, length (cSHAKE256 custom data) = 32%nat;
  cSHAKE256_bytes : forall custom data, Forall is_byte (cSHAKE256 custom data)
}.

(** The byte strings [b"ProofOfWorkHash"] and [b"HeavyHash"]. *)
Definition ProofOfWorkHash : list Z :=
  [80; 114; 111; 111; 102; 79; 102; 87; 111; 114; 107; 72; 97; 115; 104].
Definition HeavyHash : list Z := [72; 101; 97; 118; 121; 72; 97; 115; 104].

(** [np.zeros((64, 64), dtype=np.uint16)]. *)
Definition np_zeros_64_64 : list (list Z) := repeat (repeat 0 64%nat) 64%nat.

(** The nested fill loops shared by the three generators: 64 rows, four
    draws per row, sixteen nibbles per draw, least significant first;
    [store i c x] is the assignment to cell [(i, c)] of the matrix. *)
Definition fill_loops {M : Type} (store : nat -> nat -> Z -> M -> M)
    (rng : xstate) (matrix : M) : xstate * M :=
  for_in (py_range 0 64 1)
    (fun i acc =>
       for_in (py_range 0 64 16)
         (fun j '(rng, matrix) =>
            let '(val, rng) := xoshiro_next rng in
            (rng,
             for_in (py_range 0 16 1)
               (fun k matrix =>
                  store i (j + k)%nat (Z.land (Z.shiftr val (4 * Z.of_nat k)) 15) matrix)
               matrix))
         acc)
    (rng, matrix).

(** ** kaspa_pow.pyx *)

Module V1.

(** [generate_matrix_internal]. The [while True] loop runs at most [fuel]
    times; [None] stands for a loop that has not returned yet. A generator
    object is built from [s0..s3] at the top of each iteration and its
    fields are copied back into [s0..s3] when the rank test fails;
    [out_matrix] is the caller's array, written in place. *)
Fixpoint generate_matrix_internal (fuel : nat) (s0 s1 s2 s3 : Z)
    (out_matrix : list (list Z)) : option (list (list Z)) :=
  match fuel with
  | O => None
  | S fuel' =>
      let rng := Xoshiro256PlusPlus.new s0 s1 s2 s3 in
      let '(rng, out_matrix) :=
        fill_loops (fun i c x m => wr2 m i c x) rng out_matrix in
      if compute_rank out_matrix =? 64 then Some out_matrix
      else
        let s0 := Xoshiro256PlusPlus.s0 rng in
        let s1 := Xoshiro256PlusPlus.s1 rng in
        let s2 := Xoshiro256PlusPlus.s2 rng in
        let s3 := Xoshiro256PlusPlus.s3 rng in
        generate_matrix_internal fuel' s0 s1 s2 s3 out_matrix
  end.

Definition generate_matrix (fuel : nat) (s0 s1 s2 s3 : Z) : option (list (list Z)) :=
  generate_matrix_internal fuel s0 s1 s2 s3 np_zeros_64_64.

Section Hashing.
Context {H : CShake256}.

(** The part of [heavyhash] after the matrix has been generated. *)
Definition heavyhash_with (mat : list (list Z)) (hash_values : list Z)
    (timestamp nonce : Z) : list Z :=
  let header := repeat 0 80%nat in
  let header :=
    for_in (py_range 0 4 1)
      (fun i header =>
         let val := rd 0 hash_values i in
         for_in (py_range 0 8 1)
           (fun j header =>
              <[(i * 8 + j)%nat := Z.land (Z.shiftr val (Z.of_nat j * 8)) 255]> header)
           header)
      header in
  let header :=
    for_in (py_range 0 8 1)
      (fun j header =>
         <[(32 + j)%nat := Z.land (Z.shiftr timestamp (Z.of_nat j * 8)) 255]> header)
      header in
  let header :=
    for_in (py_range 0 8 1)
      (fun j header =>
         <[(72 + j)%nat := Z.land (Z.shiftr nonce (Z.of_nat j * 8)) 255]> header)
      header in
  let header := cSHAKE256 ProofOfWorkHash header in
  let v :=
    for_in (py_range 0 32 1)
      (fun i v =>
         let v := <[(i * 2)%nat := Z.land (Z.shiftr (rd 0 header i) 4) 15]> v in
         <[(i * 2 + 1)%nat := Z.land (rd 0 header i) 15]> v)
      (repeat 0 64%nat) in
  let p :=
    for_in (py_range 0 64 1)
      (fun i p =>
         let s :=
           for_in (py_range 0 64 1)
             (fun j s => u64 (s + rd2 0 mat i j * rd 0 v j)) 0 in
         <[i := Z.land (Z.shiftr s 10) 65535]> p)
      (repeat 0 64%nat) in
  let digest :=
    for_in (py_range 0 32 1)
      (fun i digest =>
         <[i := Z.lxor (rd 0 header i)
                  (Z.lor (Z.shiftl (Z.land (rd 0 p (i * 2)) 15) 4)
                         (Z.land (rd 0 p (i * 2 + 1)) 15))]> digest)
      (repeat 0 32%nat) in
  let result := cSHAKE256 HeavyHash digest in
  rev result.

(** [heavyhash(hash_values, timestamp, nonce)]; [None] when the matrix
    generator has not returned within [fuel] iterations. *)
Definition heavyhash (fuel : nat) (hash_values : list Z) (timestamp nonce : Z)
  : option (result (list Z)) :=
  if in_u64 timestamp && in_u64 nonce && forallb in_u64 (take 4 hash_values) then
    match generate_matrix_internal fuel
            (rd 0 hash_values 0) (rd 0 hash_values 1)
            (rd 0 hash_values 2) (rd 0 hash_values 3) np_zeros_64_64 with
    | None => None
    | Some mat => Some (Returned (heavyhash_with mat hash_values timestamp nonce))
    end
  else Some (Raised OverflowError).

Definition calculate_pow := heavyhash.

End Hashing.

(** Python's [<] on [bytes]: lexicographic on unsigned bytes, a proper
    prefix being smaller. *)
Fixpoint bytes_lt (a b : list Z) : bool :=
  match a, b with
  | _, [] => false
  | [], _ :: _ => true
  | x :: a', y :: b' =>
      if x <? y then true else if y <? x then false else bytes_lt a' b'
  end.

(** [check_pow(pow_hash, target)]: [pow_hash < target]. *)
Definition check_pow (pow_hash target : list Z) : bool := bytes_lt pow_hash target.

End V1.

(** ** kaspa_pow_v2.pyx *)

Module V2.

(** The retry loop of [generate_matrix]: as in v1, with a fresh zero matrix
    in each iteration. *)
Fixpoint generate_matrix_loop (fuel : nat) (s0 s1 s2 s3 : Z)
  : option (list (list Z)) :=
  match fuel with
  | O => None
  | S fuel' =>
      let rng := Xoshiro256PlusPlus.new s0 s1 s2 s3 in
      let matrix := np_zeros_64_64 in
      let '(rng, matrix) := fill_loops (fun i c x m => wr2 m i c x) rng matrix in
      if compute_rank matrix =? 64 then Some matrix
      else
        let s0 := Xoshiro256PlusPlus.s0 rng in
        let s1 := Xoshiro256PlusPlus.s1 rng in
        let s2 := Xoshiro256PlusPlus.s2 rng in
        let s3 := Xoshiro256PlusPlus.s3 rng in
        generate_matrix_loop fuel' s0 s1 s2 s3
  end.

(** [generate_matrix(pre_pow_hash)]. *)
Definition generate_matrix (fuel : nat) (pre_pow_hash : list Z)
  : option (list (list Z)) :=
  let s0 := from_bytes_little (slice pre_pow_hash 0 8) in
  let s1 := from_bytes_little (slice pre_pow_hash 8 16) in
  let s2 := from_bytes_little (slice pre_pow_hash 16 24) in
  let s3 := from_bytes_little (slice pre_pow_hash 24 32) in
  generate_matrix_loop fuel s0 s1 s2 s3.

Section Hashing.
Context {H : CShake256}.

(** [heavy_hash_with_matrix(matrix, pow_hash)]. The casts to [uint8_t] and
    the store into the [bytearray] keep eight bits. *)
Definition heavy_hash_with_matrix (matrix : list (list Z)) (pow_hash : list Z)
  : list Z :=
  let header_arr := pow_hash in
  let v :=
    for_in (py_range 0 32 1)
      (fun i v =>
         let v := <[(i * 2)%nat := Z.land (Z.shiftr (rd 0 header_arr i) 4) 15]> v in
         <[(i * 2 + 1)%nat := Z.land (rd 0 header_arr i) 15]> v)
      (repeat 0 64%nat) in
  let p :=
    for_in (py_range 0 64 1)
      (fun i p =>
         let s :=
           for_in (py_range 0 64 1)
             (fun j s => u64 (s + u64 (rd2 0 matrix i j * rd 0 v j))) 0 in
         <[i := Z.land (Z.shiftr s 10) 15]> p)
      (repeat 0 64%nat) in
  let digest :=
    for_in (py_range 0 32 1)
      (fun i digest =>
         <[i := Z.lxor (rd 0 pow_hash i)
                  (Z.lor (Z.shiftl (Z.land (rd 0 p (i * 2) mod 256) 15) 4)
                         (Z.land (rd 0 p (i * 2 + 1) mod 256) 15))]> digest)
      (repeat 0 32%nat) in
  cSHAKE256 HeavyHash digest.

(** [compute_pow(pre_pow_hash, timestamp, nonce, matrix)]. *)
Definition compute_pow (pre_pow_hash : list Z) (timestamp nonce : Z)
    (matrix : list (list Z)) : result (list Z) :=
  as_uint64 timestamp (fun timestamp =>
  as_uint64 nonce (fun nonce =>
    let data :=
      pre_pow_hash ++ pack_le64 timestamp ++ repeat 0 32%nat ++ pack_le64 nonce in
    let pow_hash := cSHAKE256 ProofOfWorkHash data in
    Returned (heavy_hash_with_matrix matrix pow_hash))).

End Hashing.

(** [check_pow(pow_hash, target)]: the first eight bytes, little-endian,
    against a 64-bit target. *)
Definition check_pow (pow_hash : list Z) (target : Z) : result bool :=
  as_uint64 target (fun target =>
    let hash_val := from_bytes_little (slice pow_hash 0 8) in
    Returned (hash_val <? target)).

End V2.

(** ** kaspa_pow_v3.pyx *)

Module V3.

(** [generate_matrix_c(seeds, out_matrix)]: the state array is copied from
    the seeds once and lives across the iterations of the loop. *)
Fixpoint generate_matrix_c_loop (fuel : nat) (state : xstate) (out_matrix : list Z)
  : option (list Z) :=
  match fuel with
  | O => None
  | S fuel' =>
      let '(state, out_matrix) :=
        fill_loops (fun i c x m => <[(i * 64 + c)%nat := x]> m) state out_matrix in
      if compute_rank_c out_matrix =? 64 then Some out_matrix
      else generate_matrix_c_loop fuel' state out_matrix
  end.

Definition generate_matrix_c (fuel : nat) (seeds : xstate) (out_matrix : list Z)
  : option (list Z) :=
  let state :=
    Xoshiro256PlusPlus.new (Xoshiro256PlusPlus.s0 seeds) (Xoshiro256PlusPlus.s1 seeds)
      (Xoshiro256PlusPlus.s2 seeds) (Xoshiro256PlusPlus.s3 seeds) in
  generate_matrix_c_loop fuel state out_matrix.

(** [heavy_hash_core(matrix, pow_hash, digest)]: writes the 32 cells of
    [digest]. The local arrays [v] and [p] are written in full before
    they are read; zeros stand for their content at entry. *)
Definition heavy_hash_core (matrix pow_hash digest : list Z) : list Z :=
  let v :=
    for_in (py_range 0 32 1)
      (fun i v =>
         let v := <[(i * 2)%nat := Z.land (Z.shiftr (rd 0 pow_hash i) 4) 15]> v in
         <[(i * 2 + 1)%nat := Z.land (rd 0 pow_hash i) 15]> v)
      (repeat 0 64%nat) in
  let p :=
    for_in (py_range 0 64 1)
      (fun i p =>
         let s :=
           for_in (py_range 0 64 1)
             (fun j s => u64 (s + u64 (rd 0 matrix (i * 64 + j) * rd 0 v j))) 0 in
         <[i := Z.land (Z.shiftr s 10) 15]> p)
      (repeat 0 64%nat) in
  for_in (py_range 0 32 1)
    (fun i digest =>
       <[i := (Z.lxor (rd 0 pow_hash i)
                 (Z.lor (Z.shiftl (Z.land (rd 0 p (i * 2) mod 256) 15) 4)
                        (Z.land (rd 0 p (i * 2 + 1) mod 256) 15))) mod 256]> digest)
    digest.

(** The copy of the NumPy matrix into the flat C array. *)
Definition copy_matrix (matrix : list (list Z)) (matrix_c : list Z) : list Z :=
  for_in (py_range 0 64 1)
    (fun i matrix_c =>
       for_in (py_range 0 64 1)
         (fun j matrix_c => <[(i * 64 + j)%nat := rd2 0 matrix i j]> matrix_c)
         matrix_c)
    matrix_c.

(** [generate_matrix(pre_pow_hash)]: seeds, the C generator on a freshly
    allocated buffer, and the copy into a NumPy array. *)
Definition generate_matrix (fuel : nat) (pre_pow_hash : list Z)
  : option (list (list Z)) :=
  let seeds :=
    Xoshiro256PlusPlus.new
      (from_bytes_little (slice pre_pow_hash 0 8))
      (from_bytes_little (slice pre_pow_hash 8 16))
      (from_bytes_little (slice pre_pow_hash 16 24))
      (from_bytes_little (slice pre_pow_hash 24 32)) in
  let matrix_c := repeat 0 (64 * 64)%nat in
  match generate_matrix_c fuel seeds matrix_c with
  | None => None
  | Some matrix_c =>
      let result := np_zeros_64_64 in
      Some (for_in (py_range 0 64 1)
              (fun i result =>
                 for_in (py_range 0 64 1)
                   (fun j result => wr2 result i j (rd 0 matrix_c (i * 64 + j)))
                   result)
              result)
  end.

Section Hashing.
Context {H : CShake256}.

(** [compute_pow(pre_pow_hash, timestamp, nonce, matrix)]. The buffers
    [matrix_c], [pow_hash_c] and [digest_c] are written in full before
    they are read; zeros stand for their content at entry. *)
Definition compute_pow (pre_pow_hash : list Z) (timestamp nonce : Z)
    (matrix : list (list Z)) : result (list Z) :=
  as_uint64 timestamp (fun timestamp =>
  as_uint64 nonce (fun nonce =>
    let data :=
      pre_pow_hash ++ pack_le64 timestamp ++ repeat 0 32%nat ++ pack_le64 nonce in
    let pow_hash := cSHAKE256 ProofOfWorkHash data in
    let matrix_c := copy_matrix matrix (repeat 0 (64 * 64)%nat) in
    let pow_hash_c :=
      for_in (py_range 0 32 1)
        (fun i pow_hash_c => <[i := rd 0 pow_hash i]> pow_hash_c) (repeat 0 32%nat) in
    let digest_c := heavy_hash_core matrix_c pow_hash_c (repeat 0 32%nat) in
    let digest := map (fun i => rd 0 digest_c i) (py_range 0 32 1) in
    Returned (cSHAKE256 HeavyHash digest))).

(** A [for] loop whose body may raise. *)
Fixpoint for_each {A S : Type} (l : list A) (body : A -> S -> result S) (s : S)
  : result S :=
  match l with
  | [] => Returned s
  | x :: l' =>
      match body x s with
      | Returned s' => for_each l' body s'
      | Raised e => Raised e
      end
  end.

(** [compute_pow_batch(pre_pow_hash, timestamp, nonces, matrix)]: the
    matrix is copied once; [pow_hash_c] and [digest_c] are reused from one
    nonce to the next. *)
Definition compute_pow_batch (pre_pow_hash : list Z) (timestamp : Z)
    (nonces : list Z) (matrix : list (list Z)) : result (list (Z * list Z)) :=
  as_uint64 timestamp (fun timestamp =>
    let results := [] in
    let matrix_c := copy_matrix matrix (repeat 0 (64 * 64)%nat) in
    result_map (fun '(_, _, results) => results)
      (for_each nonces
         (fun nonce '(pow_hash_c, digest_c, results) =>
            as_uint64 nonce (fun nonce =>
              let data :=
                pre_pow_hash ++ pack_le64 timestamp ++ repeat 0 32%nat
                  ++ pack_le64 nonce in
              let pow_hash := cSHAKE256 ProofOfWorkHash data in
              let pow_hash_c :=
                for_in (py_range 0 32 1)
                  (fun i pow_hash_c => <[i := rd 0 pow_hash i]> pow_hash_c)
                  pow_hash_c in
              let digest_c := heavy_hash_core matrix_c pow_hash_c digest_c in
              let digest := map (fun i => rd 0 digest_c i) (py_range 0 32 1) in
              Returned (pow_hash_c, digest_c,
                        results ++ [(nonce, cSHAKE256 HeavyHash digest)])))
         (repeat 0 32%nat, repeat 0 32%nat, results))).

End Hashing.

End V3.

(** ** skills/kaspa/SKILL.md *)

(** [bits_to_target(bits)] on Python's unbounded integers. *)
Definition bits_to_target (bits : Z) : Z :=
  let exponent := Z.land (Z.shiftr bits 24) 255 in
  let coefficient := Z.land bits 16777215 in
  if exponent <=? 3 then Z.shiftr coefficient (8 * (3 - exponent))
  else Z.shiftl coefficient (8 * (exponent - 3)).

(** ** The transform as the specification words it *)

Module Spec.

(** Sum of [f j] over the indices [j] of [l]. *)
Definition big_sum (l : list nat) (f : nat -> Z) : Z :=
  fold_right (fun j acc => f j + acc) 0 l.

(** [D || LE64(T) || 32 zero bytes || LE64(N)]. *)
Definition header (D : list Z) (T N : Z) : list Z :=
  D ++ le_bytes 8 T ++ repeat 0 32%nat ++ le_bytes 8 N.

(** [v[2i]] is the high nibble of [h1[i]], [v[2i+1]] the low nibble. *)
Definition nibbles (h1 : list Z) : list Z :=
  pairs (fun i => Z.shiftr (rd 0 h1 i) 4) (fun i => Z.land (rd 0 h1 i) 15) 32.

(** [p[i] = ((sum over j of M[i][j] * v[j]) >> 10) & 0xF], the sum taken
    in unsigned 64-bit arithmetic. *)
Definition product (M : list (list Z)) (v : list Z) : list Z :=
  map (fun i =>
         Z.land (Z.shiftr (u64 (big_sum (seq 0 64)
                                  (fun j => rd2 0 M i j * rd 0 v j))) 10) 15)
      (seq 0 64).

(** [d[i] = h1[i] XOR ((p[2i] << 4) | p[2i+1])]. *)
Definition digest (h1 p : list Z) : list Z :=
  map (fun i =>
         Z.lxor (rd 0 h1 i)
           (Z.lor (Z.shiftl (rd 0 p (2 * i)) 4) (rd 0 p (2 * i + 1))))
      (seq 0 32).

Section Hashing.
Context {H : CShake256}.

(** The transform on a header of any length. *)
Definition pow_of_header (data : list Z) (M : list (list Z)) : list Z :=
  let h1 := cSHAKE256 ProofOfWorkHash data in
  cSHAKE256 HeavyHash (digest h1 (product M (nibbles h1))).

Definition pow (D : list Z) (T N : Z) (M : list (list Z)) : list Z :=
  pow_of_header (header D T N) M.

End Hashing.

End Spec.

(** A stand-in for the hash primitive, to run the transform on concrete
    inputs: 32 bytes that depend on the tag and on the data. *)
Definition checksum_hash (custom data : list Z) : list Z :=
  map (fun i => (fold_right Z.add 0 custom + fold_right Z.add 0 data
                 + 7 * Z.of_nat i) mod 256)
      (seq 0 32).

(** A 64 x 64 matrix of nibbles, given by its rows. *)
Definition is_matrix (M : list (list Z)) : Prop :=
  length M = 64%nat /\ Forall (fun row => length row = 64%nat /\ Forall is_nibble row) M.

Definition is_matrixb (M : list (list Z)) : bool :=
  Nat.eqb (length M) 64
  && forallb (fun row => Nat.eqb (length row) 64
                         && forallb (fun x => (0 <=? x) && (x <? 16)) row) M.

(** A matrix on which the elimination rewrites a row selected earlier:
    the identity with two more ones, at [(0, 1)] and [(1, 2)]. *)
Definition touched_matrix : list Z :=
  map (fun t =>
         let i := (t / 64)%nat in
         let j := (t mod 64)%nat in
         if Nat.eqb i j || (Nat.eqb i 0 && Nat.eqb j 1) || (Nat.eqb i 1 && Nat.eqb j 2)
         then 1 else 0)
      (seq 0 4096).

(** ** The generator as a function of the state *)

(** The [t]-th word drawn from the state [s]. *)
Definition word (s : xstate) (t : nat) : Z := fst (xoshiro_next (draws t s)).

(** Cell [(i, c)] of the matrix filled from the state [s]: nibble
    [c mod 16] of draw [4 * i + c / 16]. *)
Definition nibble_cell (s : xstate) (i c : nat) : Z :=
  Z.land (Z.shiftr (word s (4 * i + c / 16)) (4 * Z.of_nat (c mod 16))) 15.

Definition matrix_of (s : xstate) : list (list Z) :=
  map (fun i => map (fun c => nibble_cell s i c) (seq 0 64)) (seq 0 64).

Definition flat_of (s : xstate) : list Z :=
  map (fun t => nibble_cell s (t / 64) (t mod 64)) (seq 0 4096).

(** The retry loop on states alone: the state whose matrix has rank 64,
    reached from [s] in steps of 256 draws, if one of the first [fuel]
    attempts succeeds. *)
Fixpoint passing_state (fuel : nat) (s : xstate) : option xstate :=
  match fuel with
  | O => None
  | S fuel' =>
      if compute_rank (matrix_of s) =? 64 then Some s
      else passing_state fuel' (draws 256 s)
  end.

(** The four little-endian words of a digest. *)
Definition seed_of (pre_pow_hash : list Z) : xstate :=
  Xoshiro256PlusPlus.new
    (from_bytes_little (slice pre_pow_hash 0 8))
    (from_bytes_little (slice pre_pow_hash 8 16))
    (from_bytes_little (slice pre_pow_hash 16 24))
    (from_bytes_little (slice pre_pow_hash 24 32)).

(** Shapes of the two matrix representations. *)
Definition shape_64_64 (m : list (list Z)) : Prop :=
  length m = 64%nat /\ forall i, (i < 64)%nat -> length (rd [] m i) = 64%nat.

(** The digest as the list of its four little-endian 64-bit words, the
    argument [hash_values] of v1. *)
Definition digest_words (pre_pow_hash : list Z) : list Z :=
  [ from_bytes_little (slice pre_pow_hash 0 8);
    from_bytes_little (slice pre_pow_hash 8 16);
    from_bytes_little (slice pre_pow_hash 16 24);
    from_bytes_little (slice pre_pow_hash 24 32) ].

(** ** Well-formed generator states *)

(** The four words of a state are unsigned 64-bit integers. *)
Definition is_state (s : xstate) : Prop :=
  is_u64 (Xoshiro256PlusPlus.s0 s) /\ is_u64 (Xoshiro256PlusPlus.s1 s)
  /\ is_u64 (Xoshiro256PlusPlus.s2 s) /\ is_u64 (Xoshiro256PlusPlus.s3 s).

Definition zero_state : xstate := Xoshiro256PlusPlus.new 0 0 0 0.

(** ** The on-chain message of the miner's notes *)

(** Python's [str] and the four library functions the notes call:
    [bytes.fromhex] and [bytes.hex], [str.encode('utf-8')] and
    [bytes.decode('utf-8')]. [None] is the [ValueError] of [fromhex] and
    the [UnicodeDecodeError] of [decode]. *)
Class PyText := {
  str : Type;
  bytes_fromhex : str -> option (list Z);
  bytes_hex : list Z -> str;
  str_encode : str -> list Z;
  bytes_decode : list Z -> option str;
  bytes_fromhex_hex : forall b, Forall is_byte b -> bytes_fromhex (bytes_hex b) = Some b;
  bytes_decode_encode : forall s, bytes_decode (str_encode s) = Some s;
  str_encode_bytes : forall s, Forall is_byte (str_encode s)
}.

(** The exceptions [decode_op_return] can raise. *)
Inductive py_error := ValueError | IndexError | UnicodeDecodeError.

(** [op_return = bytes([0x6a, len(message_bytes)]) + message_bytes] of
    [send_message_on_chain]; [bytes] refuses a length above 255. *)
Definition op_return (message_bytes : list Z) : option (list Z) :=
  if Z.of_nat (length message_bytes) <? 256
  then Some ([106; Z.of_nat (length message_bytes)] ++ message_bytes)
  else None.

(** [decode_op_return(payload_hex)]. *)
Definition decode_op_return `{PyText} (payload_hex : str) : str + py_error :=
  match bytes_fromhex payload_hex with
  | None => inr ValueError
  | Some data =>
      match data !! 0%nat with
      | None => inr IndexError
      | Some opcode =>
          if negb (opcode =? 106) then inr ValueError
          else
            match data !! 1%nat with
            | None => inr IndexError
            | Some length =>
                match bytes_decode (slice data 2 (2 + Z.to_nat length)) with
                | Some message => inl message
                | None => inr UnicodeDecodeError
                end
            end
      end
  end.

(** A stand-in for the text functions, to run the decoder on concrete
    inputs: a string is the list of its bytes. *)
Definition latin1_bytes (s : list ascii) : list Z :=
  map (fun c => Z.of_N (N_of_ascii c)) s.
Definition latin1_str (b : list Z) : list ascii :=
  map (fun x => ascii_of_N (Z.to_N x)) b.

(** * Properties *)

(** ** Byte strings and integers *)

Lemma le_bytes_S n x :
  le_bytes (S n) x = Z.land x 255 :: le_bytes n (Z.shiftr x 8).
Proof.
  unfold le_bytes. rewrite <- cons_seq, <- seq_shift, map_cons, map_map.
  f_equal. apply map_ext. intros j.
  rewrite Z.shiftr_shiftr by lia. do 2 f_equal. lia.
Qed.

Lemma length_le_bytes n x : length (le_bytes n x) = n.
Proof. unfold le_bytes. now rewrite length_map, length_seq. Qed.

Lemma land_255_byte x : is_byte (Z.land x 255).
Proof.
  unfold is_byte. change 255 with (Z.ones 8).
  rewrite Z.land_ones by lia. apply Z.mod_pos_bound. lia.
Qed.

Lemma le_bytes_bytes n x : Forall is_byte (le_bytes n x).
Proof.
  unfold le_bytes. apply Forall_forall. intros b Hb.
  apply list_elem_of_In, in_map_iff in Hb. destruct Hb as (j & <- & _).
  apply land_255_byte.
Qed.

Lemma from_bytes_little_le_bytes n x :
  from_bytes_little (le_bytes n x) = x mod 256 ^ Z.of_nat n.
Proof.
  revert x. induction n as [|n IH]; intros x.
  - simpl. now rewrite Z.mod_1_r.
  - rewrite le_bytes_S. cbn [from_bytes_little]. rewrite IH.
    rewrite Nat2Z.inj_succ, Z.pow_succ_r by lia.
    change 255 with (Z.ones 8). rewrite Z.land_ones by lia.
    rewrite Z.shiftr_div_pow2 by lia. change (2 ^ 8) with 256.
    rewrite Z.rem_mul_r by lia. reflexivity.
Qed.

Lemma from_bytes_little_bound b :
  Forall is_byte b -> 0 <= from_bytes_little b < 256 ^ Z.of_nat (length b).
Proof.
  induction 1 as [|x r Hx _ IH].
  - simpl. lia.
  - cbn [from_bytes_little length]. rewrite Nat2Z.inj_succ, Z.pow_succ_r by lia.
    unfold is_byte in Hx. lia.
Qed.

Lemma le_bytes_from_bytes_little b :
  Forall is_byte b -> le_bytes (length b) (from_bytes_little b) = b.
Proof.
  induction 1 as [|x r Hx _ IH].
  - reflexivity.
  - cbn [length from_bytes_little]. rewrite le_bytes_S.
    unfold is_byte in Hx. f_equal.
    + change 255 with (Z.ones 8). rewrite Z.land_ones by lia.
      change (2 ^ 8) with 256.
      replace (x + 256 * from_bytes_little r) with (x + from_bytes_little r * 256) by lia.
      rewrite Z.mod_add by lia. apply Z.mod_small. lia.
    + rewrite Z.shiftr_div_pow2 by lia. change (2 ^ 8) with 256.
      replace (x + 256 * from_bytes_little r) with (x + from_bytes_little r * 256) by lia.
      rewrite Z.div_add by lia.
      rewrite Z.div_small by lia. apply IH.
Qed.

Lemma from_bytes_big_snoc b x :
  from_bytes_big (b ++ [x]) = 256 * from_bytes_big b + x.
Proof. unfold from_bytes_big. now rewrite fold_left_app. Qed.

Lemma from_bytes_big_rev b : from_bytes_big (rev b) = from_bytes_little b.
Proof.
  induction b as [|x r IH]; [reflexivity|].
  cbn [rev from_bytes_little]. rewrite from_bytes_big_snoc, IH. lia.
Qed.

Lemma from_bytes_big_acc b : forall acc,
  fold_left (fun acc x => 256 * acc + x) b acc
  = acc * 256 ^ Z.of_nat (length b) + from_bytes_big b.
Proof.
  unfold from_bytes_big. induction b as [|y r IH]; intros acc.
  - simpl. lia.
  - cbn [fold_left length]. rewrite IH, (IH (256 * 0 + y)).
    rewrite Nat2Z.inj_succ, Z.pow_succ_r by lia. lia.
Qed.

Lemma from_bytes_big_cons x b :
  from_bytes_big (x :: b) = x * 256 ^ Z.of_nat (length b) + from_bytes_big b.
Proof.
  unfold from_bytes_big at 1. cbn [fold_left]. rewrite from_bytes_big_acc. lia.
Qed.

Lemma from_bytes_big_bound b :
  Forall is_byte b -> 0 <= from_bytes_big b < 256 ^ Z.of_nat (length b).
Proof.
  intros Hb. rewrite <- (length_rev b).
  rewrite <- (rev_involutive b) at 1 2. rewrite from_bytes_big_rev.
  apply from_bytes_little_bound. now apply Forall_rev.
Qed.

Lemma from_bytes_big_to_bytes_big n x :
  0 <= x < 256 ^ Z.of_nat n -> from_bytes_big (to_bytes_big n x) = x.
Proof.
  intros Hx. unfold to_bytes_big.
  rewrite from_bytes_big_rev, from_bytes_little_le_bytes. now apply Z.mod_small.
Qed.

(** Lexicographic order on byte strings of one length is the order of the
    big-endian integers. *)
Lemma bytes_lt_big a : forall b,
  length a = length b -> Forall is_byte a -> Forall is_byte b ->
  V1.bytes_lt a b = true <-> from_bytes_big a < from_bytes_big b.
Proof.
  induction a as [|x a IH]; intros [|y b] Hlen Ha Hb; try discriminate.
  - simpl. split; [discriminate | unfold from_bytes_big; simpl; lia].
  - cbn [V1.bytes_lt]. rewrite !from_bytes_big_cons.
    injection Hlen as Hlen. rewrite <- Hlen.
    apply Forall_cons in Ha as [Hx Ha]. apply Forall_cons in Hb as [Hy Hb].
    pose proof (from_bytes_big_bound a Ha) as Ba.
    pose proof (from_bytes_big_bound b Hb) as Bb. rewrite <- Hlen in Bb.
    specialize (IH b Hlen Ha Hb).
    set (w := 256 ^ Z.of_nat (length a)) in *.
    destruct (Z.ltb_spec x y) as [Hxy|Hxy].
    + split; [intros _; nia | reflexivity].
    + destruct (Z.ltb_spec y x) as [Hyx|Hyx].
      * split; [discriminate | nia].
      * assert (x = y) as -> by lia. rewrite IH. lia.
Qed.

Lemma Forall_is_byte_check l :
  forallb (fun x => (0 <=? x) && (x <? 256)) l = true -> Forall is_byte l.
Proof.
  intros Hl. apply Forall_forall. intros x Hx. apply list_elem_of_In in Hx.
  rewrite forallb_forall in Hl. specialize (Hl x Hx). unfold is_byte. lia.
Qed.

(** ** Target comparison *)

(** C7. [check_pow] of [kaspa_pow.pyx] on a 32-byte hash and a 32-byte
    target is the strict order of the big-endian integers: a hash equal to
    the target does not meet it, and the encoding of the target minus one
    meets every nonzero target. *)
Theorem check_pow_strict_big_endian (pow_hash target : list Z) :
  length pow_hash = 32%nat -> length target = 32%nat ->
  Forall is_byte pow_hash -> Forall is_byte target ->
  (V1.check_pow pow_hash target = true
     <-> from_bytes_big pow_hash < from_bytes_big target)
  /\ V1.check_pow target target = false
  /\ (from_bytes_big target <> 0 ->
      V1.check_pow (to_bytes_big 32 (from_bytes_big target - 1)) target = true).
Proof.
  intros Lh Lt Bh Bt. unfold V1.check_pow.
  pose proof (from_bytes_big_bound target Bt) as Ht. rewrite Lt in Ht.
  split; [|split].
  - apply bytes_lt_big; congruence.
  - destruct (V1.bytes_lt target target) eqn:E; [|reflexivity].
    apply bytes_lt_big in E; auto. lia.
  - intros Hnz. apply bytes_lt_big.
    + unfold to_bytes_big. now rewrite length_rev, length_le_bytes, Lt.
    + unfold to_bytes_big. apply Forall_rev, le_bytes_bytes.
    + assumption.
    + rewrite from_bytes_big_to_bytes_big; lia.
Qed.

Lemma check_pow_strict_big_endian_witness :
  let pow_hash := repeat 0 31 ++ [7] in
  let target := repeat 0 30 ++ [1; 0] in
  (V1.check_pow pow_hash target = true
     <-> from_bytes_big pow_hash < from_bytes_big target)
  /\ V1.check_pow target target = false
  /\ (from_bytes_big target <> 0 ->
      V1.check_pow (to_bytes_big 32 (from_bytes_big target - 1)) target = true).
Proof.
  apply (check_pow_strict_big_endian (repeat 0 31 ++ [7]) (repeat 0 30 ++ [1; 0]));
    [reflexivity | reflexivity | | ]; apply Forall_is_byte_check; reflexivity.
Defined.

(** C10. [check_pow] of [kaspa_pow_v2.pyx] compares the first eight bytes
    of the hash, read as a little-endian 64-bit integer, with the target:
    hashes that agree on bytes 0 to 7 get the same verdict, and the order
    is not the big-endian order of the full comparator. *)
Theorem check_pow_v2_first_eight_bytes (pow_hash pow_hash' : list Z) (target : Z) :
  is_u64 target ->
  V2.check_pow pow_hash target
    = Returned (from_bytes_little (take 8 pow_hash) <? target)
  /\ (take 8 pow_hash = take 8 pow_hash' ->
      V2.check_pow pow_hash target = V2.check_pow pow_hash' target)
  /\ (exists a b : list Z,
        length a = 32%nat /\ length b = 32%nat
        /\ V1.check_pow a b = true
        /\ V2.check_pow a (from_bytes_little (take 8 b)) = Returned false).
Proof.
  intros Ht.
  assert (forall h, V2.check_pow h target
                    = Returned (from_bytes_little (take 8 h) <? target)) as E.
  { intros h. unfold V2.check_pow, as_uint64, in_u64, slice.
    unfold is_u64 in Ht.
    destruct (Z.leb_spec 0 target); [|lia].
    destruct (Z.ltb_spec target (2 ^ 64)); [|lia].
    reflexivity. }
  split; [apply E|split].
  - intros Heq. now rewrite !E, Heq.
  - exists ([0; 1] ++ repeat 0 30), ([1; 0] ++ repeat 0 30).
    repeat split; reflexivity.
Qed.

Lemma check_pow_v2_first_eight_bytes_witness :
  let pow_hash := [1; 2; 3; 4; 5; 6; 7; 8] ++ repeat 0 24 in
  let pow_hash' := [1; 2; 3; 4; 5; 6; 7; 8] ++ repeat 255 24 in
  let target := 2 ^ 63 in
  V2.check_pow pow_hash target
    = Returned (from_bytes_little (take 8 pow_hash) <? target)
  /\ (take 8 pow_hash = take 8 pow_hash' ->
      V2.check_pow pow_hash target = V2.check_pow pow_hash' target)
  /\ (exists a b : list Z,
        length a = 32%nat /\ length b = 32%nat
        /\ V1.check_pow a b = true
        /\ V2.check_pow a (from_bytes_little (take 8 b)) = Returned false).
Proof.
  apply (check_pow_v2_first_eight_bytes
           ([1; 2; 3; 4; 5; 6; 7; 8] ++ repeat 0 24)
           ([1; 2; 3; 4; 5; 6; 7; 8] ++ repeat 255 24) (2 ^ 63)).
  unfold is_u64. lia.
Defined.

(** ** Compact bits *)

Lemma compact_fields c e :
  0 <= c < 2 ^ 24 -> 0 <= e <= 255 ->
  Z.land (Z.shiftr (Z.lor (Z.shiftl e 24) c) 24) 255 = e
  /\ Z.land (Z.lor (Z.shiftl e 24) c) 16777215 = c.
Proof.
  intros Hc He. split.
  - rewrite Z.shiftr_lor, Z.shiftr_shiftl_l, Z.sub_diag, Z.shiftl_0_r by lia.
    rewrite (Z.shiftr_div_pow2 c), (Z.div_small c), Z.lor_0_r by lia.
    change 255 with (Z.ones 8). rewrite Z.land_ones by lia.
    apply Z.mod_small. lia.
  - change 16777215 with (Z.ones 24).
    rewrite Z.land_lor_distr_l, !Z.land_ones, Z.shiftl_mul_pow2 by lia.
    rewrite Z.mod_mul, Z.lor_0_l by lia. apply Z.mod_small. lia.
Qed.

Lemma bits_to_target_fields c e :
  0 <= c < 2 ^ 24 -> 0 <= e <= 255 ->
  bits_to_target (Z.lor (Z.shiftl e 24) c)
  = if e <=? 3 then c / 2 ^ (8 * (3 - e)) else c * 2 ^ (8 * (e - 3)).
Proof.
  intros Hc He. unfold bits_to_target.
  destruct (compact_fields c e Hc He) as [-> ->].
  destruct (Z.leb_spec e 3).
  - apply Z.shiftr_div_pow2. lia.
  - apply Z.shiftl_mul_pow2. lia.
Qed.

(** C9. The decoder right-shifts the coefficient by [8 * (3 - e)] bits
    when the exponent [e] is at most 3 and left-shifts it by
    [8 * (e - 3)] bits otherwise, which is the division by, and the
    product with, that power of two; so, with the coefficient fixed, the
    decoded target does not decrease when the exponent grows. *)
Theorem bits_to_target_monotone (c e1 e2 : Z) :
  0 <= c < 2 ^ 24 -> 0 <= e1 -> e1 <= e2 -> e2 <= 255 ->
  let target (e : Z) := bits_to_target (Z.lor (Z.shiftl e 24) c) in
  target e1 <= target e2
  /\ (forall e, 0 <= e <= 3 ->
        target e = Z.shiftr c (8 * (3 - e))
        /\ target e = c / 2 ^ (8 * (3 - e)))
  /\ (forall e, 3 < e <= 255 ->
        target e = Z.shiftl c (8 * (e - 3))
        /\ target e = c * 2 ^ (8 * (e - 3))).
Proof.
  intros Hc H1 H12 H2. cbv zeta. split; [|split].
  - rewrite !bits_to_target_fields by lia.
    destruct (Z.leb_spec e1 3) as [L1|L1], (Z.leb_spec e2 3) as [L2|L2]; try lia.
    + apply Z.div_le_compat_l; [lia|]. split.
      * apply Z.pow_pos_nonneg; lia.
      * apply Z.pow_le_mono_r; lia.
    + assert (0 < 2 ^ (8 * (3 - e1))) by (apply Z.pow_pos_nonneg; lia).
      assert (0 < 2 ^ (8 * (e2 - 3))) by (apply Z.pow_pos_nonneg; lia).
      assert (c / 2 ^ (8 * (3 - e1)) <= c) by (apply Z.div_le_upper_bound; nia).
      nia.
    + apply Z.mul_le_mono_nonneg_l; [lia|]. apply Z.pow_le_mono_r; lia.
  - intros e He. rewrite bits_to_target_fields by lia.
    destruct (Z.leb_spec e 3); [|lia].
    split; [|reflexivity]. symmetry. apply Z.shiftr_div_pow2. lia.
  - intros e He. rewrite bits_to_target_fields by lia.
    destruct (Z.leb_spec e 3); [lia|].
    split; [|reflexivity]. symmetry. apply Z.shiftl_mul_pow2. lia.
Qed.

(** Exponents 2 and 30 with the coefficient [0xffff]: the targets are
    [0xff] and [0xffff * 2 ^ 216]. *)
Lemma bits_to_target_monotone_witness :
  bits_to_target (Z.lor (Z.shiftl 2 24) 65535)
  <= bits_to_target (Z.lor (Z.shiftl 30 24) 65535)
  /\ bits_to_target (Z.lor (Z.shiftl 2 24) 65535) = 255
  /\ bits_to_target (Z.lor (Z.shiftl 30 24) 65535) = 65535 * 2 ^ 216.
Proof.
  destruct (bits_to_target_monotone 65535 2 30) as (Hle & Hlow & Hhigh); try lia.
  cbv zeta in Hle, Hlow, Hhigh. split; [exact Hle|]. split.
  - destruct (Hlow 2) as [_ E]; [lia|]. exact E.
  - destruct (Hhigh 30) as [_ E]; [lia|]. exact E.
Defined.

(** ** Loops *)

Lemma py_range_1 lo hi : py_range lo hi 1 = seq lo (hi - lo).
Proof.
  unfold py_range. replace (hi - lo + 1 - 1)%nat with (hi - lo)%nat by lia.
  rewrite Nat.div_1_r.
  replace (seq lo (hi - lo)) with (seq (lo + 0) (hi - lo)) by (f_equal; lia).
  rewrite <- fmap_add_seq. apply map_ext. intros t. lia.
Qed.

Lemma for_in_cons {S : Type} x l (body : nat -> S -> S) s :
  for_in (x :: l) body s = for_in l body (body x s).
Proof. reflexivity. Qed.

Lemma for_in_app {S : Type} l1 l2 (body : nat -> S -> S) s :
  for_in (l1 ++ l2) body s = for_in l2 body (for_in l1 body s).
Proof. unfold for_in. apply fold_left_app. Qed.

Lemma for_in_map {S : Type} (h : nat -> nat) l (body : nat -> S -> S) s :
  for_in (map h l) body s = for_in l (fun t => body (h t)) s.
Proof. revert s. induction l as [|x l IH]; intros s; [reflexivity|]. apply IH. Qed.

(** The invariant rule for [for i in range(a, a + n)]. *)
Lemma for_in_seq_inv {S : Type} (P : nat -> S -> Prop) (body : nat -> S -> S) n :
  forall a s,
  P a s ->
  (forall i s, (a <= i < a + n)%nat -> P i s -> P (Datatypes.S i) (body i s)) ->
  P (a + n)%nat (for_in (seq a n) body s).
Proof.
  induction n as [|n IH]; intros a s H0 Hstep.
  - now rewrite Nat.add_0_r.
  - cbn [seq for_in fold_left]. rewrite <- Nat.add_succ_comm.
    apply IH.
    + apply Hstep; [lia|assumption].
    + intros i s' Hi. apply Hstep. lia.
Qed.

(** Two loops over one range whose bodies agree wherever [P] holds. *)
Lemma for_in_ext_inv {S : Type} (P : S -> Prop) (body1 body2 : nat -> S -> S) l :
  forall s,
  P s ->
  (forall i s, In i l -> P s -> body1 i s = body2 i s /\ P (body1 i s)) ->
  for_in l body1 s = for_in l body2 s /\ P (for_in l body1 s).
Proof.
  induction l as [|x l IH]; intros s Hs Hstep; [now split|].
  cbn [for_in fold_left].
  destruct (Hstep x s (or_introl eq_refl) Hs) as [E HP].
  rewrite <- E. apply IH; [assumption|].
  intros i s' Hi. apply Hstep. now right.
Qed.

Lemma for_in_ext {S : Type} (body1 body2 : nat -> S -> S) l s :
  (forall i s, In i l -> body1 i s = body2 i s) ->
  for_in l body1 s = for_in l body2 s.
Proof.
  intros Hb.
  apply (for_in_ext_inv (fun _ => True) body1 body2 l s I).
  intros i s' Hi _. split; [now apply Hb|exact I].
Qed.

(** Two loops over one range that keep their states related. *)
Lemma for_in_rel {S1 S2 : Type} (R : S1 -> S2 -> Prop)
    (body1 : nat -> S1 -> S1) (body2 : nat -> S2 -> S2) l :
  forall s1 s2,
  R s1 s2 ->
  (forall i s1 s2, In i l -> R s1 s2 -> R (body1 i s1) (body2 i s2)) ->
  R (for_in l body1 s1) (for_in l body2 s2).
Proof.
  induction l as [|x l IH]; intros s1 s2 HR Hstep; [assumption|].
  rewrite !for_in_cons. apply IH.
  - apply Hstep; [now left|assumption].
  - intros i t1 t2 Hi. apply Hstep. now right.
Qed.

(** ** Arrays *)

Lemma rd_insert_eq {A : Type} (d : A) a i x :
  (i < length a)%nat -> rd d (<[i := x]> a) i = x.
Proof. intros Hi. unfold rd. now rewrite list_lookup_insert_eq. Qed.

Lemma rd_insert_ne {A : Type} (d : A) a i j x :
  i <> j -> rd d (<[i := x]> a) j = rd d a j.
Proof. intros Hi. unfold rd. now rewrite list_lookup_insert_ne. Qed.

Lemma rd_map {A B : Type} (d : B) (d' : A) (f : A -> B) a i :
  (i < length a)%nat -> rd d (map f a) i = f (rd d' a i).
Proof.
  intros Hi. unfold rd. change (map f a) with (f <$> a).
  rewrite list_lookup_fmap.
  destruct (lookup_lt_is_Some_2 a i Hi) as [x ->]. reflexivity.
Qed.

Lemma rd_seq (d : nat) a n i : (i < n)%nat -> rd d (seq a n) i = (a + i)%nat.
Proof. intros Hi. unfold rd. now rewrite lookup_seq_lt. Qed.

Lemma rd_ge {A : Type} (d : A) a i : (length a <= i)%nat -> rd d a i = d.
Proof. intros Hi. unfold rd. now rewrite lookup_ge_None_2. Qed.

(** Arrays of one length with the same cells are equal. *)
Lemma rd_ext {A : Type} (d : A) a b :
  length a = length b ->
  (forall i, (i < length a)%nat -> rd d a i = rd d b i) -> a = b.
Proof.
  intros Hlen Hrd. apply list_eq. intros i.
  destruct (Nat.lt_ge_cases i (length a)) as [Hi|Hi].
  - specialize (Hrd i Hi). unfold rd in Hrd.
    destruct (lookup_lt_is_Some_2 a i Hi) as [x Hx].
    destruct (lookup_lt_is_Some_2 b i ltac:(lia)) as [y Hy].
    rewrite Hx, Hy in *. simpl in Hrd. now subst.
  - rewrite !lookup_ge_None_2; [reflexivity|lia|lia].
Qed.

Lemma map_rd_seq {A : Type} (d : A) a :
  map (fun i => rd d a i) (seq 0 (length a)) = a.
Proof.
  apply (rd_ext d).
  - now rewrite length_map, length_seq.
  - intros i Hi. rewrite length_map, length_seq in Hi.
    rewrite (rd_map d 0%nat) by now rewrite length_seq.
    now rewrite rd_seq.
Qed.

(** [for i in range(n): a[i] = f i] *)
Lemma for_in_fill {A : Type} (f : nat -> A) n a :
  length a = n ->
  for_in (seq 0 n) (fun i a => <[i := f i]> a) a = map f (seq 0 n).
Proof.
  intros Hlen. pose (d := f 0%nat).
  pose proof (for_in_seq_inv
    (fun i a => length a = n /\ forall t, (t < i)%nat -> rd d a t = f t)
    (fun i a => <[i := f i]> a) n 0%nat a) as Hinv.
  destruct Hinv as [Hl Hc].
  - split; [assumption|]. intros t Ht. lia.
  - intros i a' Hi [Hl Hc]. split; [now rewrite length_insert|].
    intros t Ht. destruct (decide (t = i)) as [->|Hne].
    + apply rd_insert_eq. lia.
    + rewrite rd_insert_ne by congruence. apply Hc. lia.
  - apply (rd_ext d).
    + now rewrite length_map, length_seq.
    + intros i Hi. rewrite Hc by (simpl; lia).
      rewrite (rd_map d 0%nat), rd_seq; rewrite ?length_seq; auto; lia.
Qed.

Section Pairs.
Context {A : Type} (d : A) (f g : nat -> A).

Local Abbreviation pairs := (pairs f g).

Lemma pairs_S n : pairs (S n) = pairs n ++ [f n; g n].
Proof. unfold pairs. rewrite seq_S, flat_map_app. simpl. reflexivity. Qed.

Lemma length_pairs n : length (pairs n) = (2 * n)%nat.
Proof.
  induction n as [|n IH]; [reflexivity|].
  rewrite pairs_S, length_app, IH. simpl. lia.
Qed.

Lemma rd_pairs n t :
  (t < n)%nat ->
  rd d (pairs n) (2 * t) = f t /\ rd d (pairs n) (2 * t + 1) = g t.
Proof.
  induction n as [|n IH]; intros Ht; [lia|].
  rewrite pairs_S. unfold rd in *.
  destruct (decide (t = n)) as [->|Hne].
  - rewrite !lookup_app_r by (rewrite length_pairs; lia).
    rewrite length_pairs.
    replace (2 * n - 2 * n)%nat with 0%nat by lia.
    replace (2 * n + 1 - 2 * n)%nat with 1%nat by lia.
    split; reflexivity.
  - rewrite !lookup_app_l by (rewrite length_pairs; lia).
    apply IH. lia.
Qed.

(** [for i in range(n): a[i * 2] = f i; a[i * 2 + 1] = g i] *)
Lemma for_in_fill_pairs n a :
  length a = (2 * n)%nat ->
  for_in (seq 0 n)
    (fun i a => let a := <[(i * 2)%nat := f i]> a in <[(i * 2 + 1)%nat := g i]> a) a
  = pairs n.
Proof.
  intros Hlen.
  pose proof (for_in_seq_inv
    (fun i a => length a = (2 * n)%nat
                /\ forall t, (t < i)%nat ->
                     rd d a (2 * t) = f t /\ rd d a (2 * t + 1) = g t)
    (fun i a => let a := <[(i * 2)%nat := f i]> a in <[(i * 2 + 1)%nat := g i]> a)
    n 0%nat a) as Hinv.
  destruct Hinv as [Hl Hc].
  - split; [assumption|]. intros t Ht. lia.
  - intros i a' Hi [Hl Hc]. cbv zeta. split; [now rewrite !length_insert|].
    intros t Ht. destruct (decide (t = i)) as [->|Hne].
    + split.
      * rewrite rd_insert_ne by lia.
        replace (2 * i)%nat with (i * 2)%nat by lia. apply rd_insert_eq. lia.
      * replace (2 * i + 1)%nat with (i * 2 + 1)%nat by lia.
        apply rd_insert_eq. rewrite length_insert. lia.
    + rewrite !rd_insert_ne by lia. apply Hc. lia.
  - apply (rd_ext d); [now rewrite length_pairs|].
    intros i Hi. rewrite Hl in Hi.
    destruct (Nat.Even_or_Odd i) as [[t ->]|[t ->]].
    + destruct (Hc t) as [-> _]; [simpl in *; lia|].
      symmetry. apply rd_pairs. lia.
    + destruct (Hc t) as [_ ->]; [simpl in *; lia|].
      symmetry. apply rd_pairs. lia.
Qed.

End Pairs.

(** ** Nibbles and bytes *)

Lemma mod_256_land x : x mod 256 = Z.land x 255.
Proof. change 255 with (Z.ones 8). now rewrite Z.land_ones by lia. Qed.

Lemma land_255_id x : is_byte x -> Z.land x 255 = x.
Proof. intros Hx. rewrite <- mod_256_land. now apply Z.mod_small. Qed.

Lemma land_15_nibble x : is_nibble (Z.land x 15).
Proof.
  unfold is_nibble. change 15 with (Z.ones 4).
  rewrite Z.land_ones by lia. apply Z.mod_pos_bound. lia.
Qed.

Lemma land_15_id x : is_nibble x -> Z.land x 15 = x.
Proof.
  intros Hx. change 15 with (Z.ones 4).
  rewrite Z.land_ones by lia. now apply Z.mod_small.
Qed.

Lemma high_nibble x : is_byte x -> Z.land (Z.shiftr x 4) 15 = Z.shiftr x 4.
Proof.
  intros Hx. apply land_15_id. unfold is_nibble, is_byte in *.
  rewrite Z.shiftr_div_pow2 by lia. change (2 ^ 4) with 16.
  split; [apply Z.div_pos; lia | apply Z.div_lt_upper_bound; lia].
Qed.

Lemma nibble_mod_256 x : is_nibble x -> Z.land (x mod 256) 15 = x.
Proof.
  intros Hx. unfold is_nibble in Hx.
  rewrite Z.mod_small by lia. now apply land_15_id.
Qed.

Lemma land_lxor_distr a b c :
  Z.land (Z.lxor a b) c = Z.lxor (Z.land a c) (Z.land b c).
Proof.
  apply Z.bits_inj'. intros n Hn.
  rewrite !Z.land_spec, !Z.lxor_spec, !Z.land_spec.
  destruct (Z.testbit a n), (Z.testbit b n), (Z.testbit c n); reflexivity.
Qed.

(** The byte assembled from two nibbles, xored into a byte, is a byte. *)
Lemma xor_byte_mod_256 b p q :
  is_byte b -> is_nibble p -> is_nibble q ->
  (Z.lxor b (Z.lor (Z.shiftl p 4) q)) mod 256
  = Z.lxor b (Z.lor (Z.shiftl p 4) q).
Proof.
  intros Hb Hp Hq. unfold is_nibble in *.
  rewrite mod_256_land, land_lxor_distr, Z.land_lor_distr_l.
  rewrite (land_255_id b Hb), (land_255_id q) by (unfold is_byte; lia).
  rewrite (land_255_id (Z.shiftl p 4)); [reflexivity|].
  unfold is_byte. rewrite Z.shiftl_mul_pow2 by lia. lia.
Qed.

Lemma is_byte_rd b i : Forall is_byte b -> is_byte (rd 0 b i).
Proof.
  intros Hb. unfold rd. destruct (b !! i) as [x|] eqn:E.
  - simpl. rewrite Forall_forall in Hb. apply Hb.
    apply list_elem_of_lookup. eauto.
  - simpl. unfold is_byte. lia.
Qed.

(** ** The sum of products *)

Lemma big_sum_snoc l x f : Spec.big_sum (l ++ [x]) f = Spec.big_sum l f + f x.
Proof.
  unfold Spec.big_sum. induction l as [|y l IH]; simpl; [lia|].
  rewrite IH. lia.
Qed.

Lemma u64_add_u64 a b : u64 (u64 a + u64 b) = u64 (a + b).
Proof. unfold u64. now rewrite <- Z.add_mod by lia. Qed.

Lemma u64_add_l a b : u64 (u64 a + b) = u64 (a + b).
Proof. unfold u64. now rewrite Z.add_mod_idemp_l by lia. Qed.

(** [s = 0; for j in range(n): s += <uint64_t>a[j] * <uint64_t>b[j]] *)
Lemma dot_loop (f : nat -> Z) n :
  for_in (seq 0 n) (fun j s => u64 (s + u64 (f j))) 0
  = u64 (Spec.big_sum (seq 0 n) f).
Proof.
  induction n as [|n IH]; [reflexivity|].
  rewrite seq_S, for_in_app, IH, big_sum_snoc. simpl.
  apply u64_add_u64.
Qed.

(** The same loop with the product taken in [int], as in v1. *)
Lemma dot_loop_int (f : nat -> Z) n :
  for_in (seq 0 n) (fun j s => u64 (s + f j)) 0
  = u64 (Spec.big_sum (seq 0 n) f).
Proof.
  induction n as [|n IH]; [reflexivity|].
  rewrite seq_S, for_in_app, IH, big_sum_snoc. simpl.
  apply u64_add_l.
Qed.

Lemma big_sum_ext l f f' :
  (forall j, In j l -> f j = f' j) -> Spec.big_sum l f = Spec.big_sum l f'.
Proof.
  unfold Spec.big_sum. induction l as [|x l IH]; intros Hf; [reflexivity|].
  simpl. rewrite (Hf x) by now left. rewrite IH; [reflexivity|].
  intros j Hj. apply Hf. now right.
Qed.

(** ** The HeavyHash step against its specification *)

(** The nibble loop, the same in the three files. *)
Lemma nibbles_loop (h v0 : list Z) :
  Forall is_byte h -> length v0 = 64%nat ->
  for_in (py_range 0 32 1)
    (fun i v =>
       let v := <[(i * 2)%nat := Z.land (Z.shiftr (rd 0 h i) 4) 15]> v in
       <[(i * 2 + 1)%nat := Z.land (rd 0 h i) 15]> v) v0
  = Spec.nibbles h.
Proof.
  intros Hh Hv. change (py_range 0 32 1) with (seq 0 32).
  rewrite (for_in_fill_pairs 0) by exact Hv.
  unfold Spec.nibbles, pairs. apply flat_map_ext. intros i.
  now rewrite high_nibble by now apply is_byte_rd.
Qed.

Lemma length_nibbles h : length (Spec.nibbles h) = 64%nat.
Proof. unfold Spec.nibbles. now rewrite length_pairs. Qed.

(** The multiply loop of v2 and v3; [cell i j] is the read of the matrix. *)
Lemma product_loop (cell : nat -> nat -> Z) (M : list (list Z)) (v p0 : list Z) :
  length p0 = 64%nat ->
  (forall i j, (i < 64)%nat -> (j < 64)%nat -> cell i j = rd2 0 M i j) ->
  for_in (py_range 0 64 1)
    (fun i p =>
       let s :=
         for_in (py_range 0 64 1) (fun j s => u64 (s + u64 (cell i j * rd 0 v j))) 0 in
       <[i := Z.land (Z.shiftr s 10) 15]> p) p0
  = Spec.product M v.
Proof.
  intros Hp Hcell. change (py_range 0 64 1) with (seq 0 64). cbv zeta.
  rewrite (for_in_fill (fun i => Z.land (Z.shiftr (for_in (seq 0 64)
             (fun j s => u64 (s + u64 (cell i j * rd 0 v j))) 0) 10) 15)) by exact Hp.
  unfold Spec.product. apply map_ext_in. intros i Hi. apply in_seq in Hi.
  rewrite (dot_loop (fun j => cell i j * rd 0 v j)).
  do 3 f_equal. apply big_sum_ext. intros j Hj. apply in_seq in Hj.
  rewrite Hcell by lia. reflexivity.
Qed.

Lemma length_product M v : length (Spec.product M v) = 64%nat.
Proof. unfold Spec.product. now rewrite length_map, length_seq. Qed.

Lemma product_nibble M v k : is_nibble (rd 0 (Spec.product M v) k).
Proof.
  destruct (Nat.lt_ge_cases k 64) as [Hk|Hk].
  - unfold Spec.product. rewrite (rd_map 0 0%nat) by now rewrite length_seq.
    apply land_15_nibble.
  - rewrite rd_ge by now rewrite length_product. unfold is_nibble. lia.
Qed.

(** [heavy_hash_core] of v3 writes the specified digest, whatever the
    buffer held before. *)
Lemma heavy_hash_core_spec (matrix_c pow_hash digest0 : list Z) (M : list (list Z)) :
  Forall is_byte pow_hash -> length digest0 = 32%nat ->
  (forall i j, (i < 64)%nat -> (j < 64)%nat ->
     rd 0 matrix_c (i * 64 + j) = rd2 0 M i j) ->
  V3.heavy_hash_core matrix_c pow_hash digest0
  = Spec.digest pow_hash (Spec.product M (Spec.nibbles pow_hash)).
Proof.
  intros Hh Hd Hm. unfold V3.heavy_hash_core.
  rewrite nibbles_loop by (auto; now rewrite repeat_length).
  rewrite (product_loop (fun i j => rd 0 matrix_c (i * 64 + j)) M)
    by (auto; now rewrite repeat_length).
  set (p := Spec.product M (Spec.nibbles pow_hash)).
  change (py_range 0 32 1) with (seq 0 32).
  rewrite (for_in_fill (fun i => (Z.lxor (rd 0 pow_hash i)
             (Z.lor (Z.shiftl (Z.land (rd 0 p (i * 2) mod 256) 15) 4)
                    (Z.land (rd 0 p (i * 2 + 1) mod 256) 15))) mod 256)) by exact Hd.
  unfold Spec.digest. apply map_ext. intros i.
  rewrite !nibble_mod_256 by apply product_nibble.
  rewrite xor_byte_mod_256 by (apply is_byte_rd || apply product_nibble; auto).
  now replace (i * 2)%nat with (2 * i)%nat by lia.
Qed.

Section HashingV2V3.
Context {H : CShake256}.

Lemma heavy_hash_with_matrix_spec (M : list (list Z)) (pow_hash : list Z) :
  Forall is_byte pow_hash ->
  V2.heavy_hash_with_matrix M pow_hash
  = cSHAKE256 HeavyHash (Spec.digest pow_hash (Spec.product M (Spec.nibbles pow_hash))).
Proof.
  intros Hh. unfold V2.heavy_hash_with_matrix.
  rewrite nibbles_loop by (auto; now rewrite repeat_length).
  rewrite (product_loop (fun i j => rd2 0 M i j) M)
    by (auto; now rewrite repeat_length).
  set (p := Spec.product M (Spec.nibbles pow_hash)).
  change (py_range 0 32 1) with (seq 0 32).
  rewrite (for_in_fill (fun i => Z.lxor (rd 0 pow_hash i)
             (Z.lor (Z.shiftl (Z.land (rd 0 p (i * 2) mod 256) 15) 4)
                    (Z.land (rd 0 p (i * 2 + 1) mod 256) 15))))
    by now rewrite repeat_length.
  f_equal. unfold Spec.digest. apply map_ext. intros i.
  rewrite !nibble_mod_256 by apply product_nibble.
  now replace (i * 2)%nat with (2 * i)%nat by lia.
Qed.

End HashingV2V3.

(** The copy into the flat C array holds cell [(i, j)] at [i * 64 + j],
    whatever the buffer held before. *)
Lemma copy_matrix_cells (M : list (list Z)) (buf : list Z) :
  length buf = 4096%nat ->
  length (V3.copy_matrix M buf) = 4096%nat
  /\ forall i j, (i < 64)%nat -> (j < 64)%nat ->
       rd 0 (V3.copy_matrix M buf) (i * 64 + j) = rd2 0 M i j.
Proof.
  intros Hbuf. unfold V3.copy_matrix. change (py_range 0 64 1) with (seq 0 64).
  apply (for_in_seq_inv
    (fun n a => length a = 4096%nat
                /\ forall i j, (i < n)%nat -> (j < 64)%nat ->
                     rd 0 a (i * 64 + j) = rd2 0 M i j)).
  - split; [assumption|]. intros i j Hi. lia.
  - intros n a Hn [Hl Hc].
    pose proof (for_in_seq_inv
      (fun c a => length a = 4096%nat
                  /\ (forall i j, (i < n)%nat -> (j < 64)%nat ->
                        rd 0 a (i * 64 + j) = rd2 0 M i j)
                  /\ forall j, (j < c)%nat -> rd 0 a (n * 64 + j) = rd2 0 M n j)
      (fun j a => <[(n * 64 + j)%nat := rd2 0 M n j]> a) 64 0%nat a) as Hinner.
    destruct Hinner as (Hl' & Hc' & Hr').
    + repeat split; auto. intros j Hj. lia.
    + intros c a' Hcb (Hl' & Hc' & Hr'). split; [now rewrite length_insert|]. split.
      * intros i j Hi Hj. rewrite rd_insert_ne by lia. now apply Hc'.
      * intros j Hj. destruct (decide (j = c)) as [->|Hne].
        -- apply rd_insert_eq. lia.
        -- rewrite rd_insert_ne by lia. apply Hr'. lia.
    + split; [assumption|]. intros i j Hi Hj.
      destruct (decide (i = n)) as [->|Hne]; [now apply Hr'|].
      apply Hc'; lia.
Qed.

Lemma in_u64_true x : is_u64 x -> in_u64 x = true.
Proof. unfold is_u64, in_u64. lia. Qed.

Lemma length_digest h p : length (Spec.digest h p) = 32%nat.
Proof. unfold Spec.digest. now rewrite length_map, length_seq. Qed.

(** [for i in range(32): c[i] = b[i]] copies a 32-byte string. *)
Lemma copy_32 (b buf : list Z) :
  length b = 32%nat -> length buf = 32%nat ->
  for_in (py_range 0 32 1) (fun i c => <[i := rd 0 b i]> c) buf = b.
Proof.
  intros Hb Hbuf. change (py_range 0 32 1) with (seq 0 32).
  rewrite (for_in_fill (fun i => rd 0 b i)) by exact Hbuf.
  rewrite <- Hb. apply map_rd_seq.
Qed.

Section ComputePow.
Context {H : CShake256}.

(** The per-nonce work shared by [compute_pow] and [compute_pow_batch] of
    v3, from any state of the reused buffers. *)
Lemma core_on_buffers (M : list (list Z)) (data buf pow_hash_c digest_c : list Z) :
  length buf = 4096%nat -> length pow_hash_c = 32%nat -> length digest_c = 32%nat ->
  let pow_hash := cSHAKE256 ProofOfWorkHash data in
  let pow_hash_c' :=
    for_in (py_range 0 32 1) (fun i c => <[i := rd 0 pow_hash i]> c) pow_hash_c in
  let digest_c' := V3.heavy_hash_core (V3.copy_matrix M buf) pow_hash_c' digest_c in
  pow_hash_c' = pow_hash
  /\ digest_c' = Spec.digest pow_hash (Spec.product M (Spec.nibbles pow_hash))
  /\ cSHAKE256 HeavyHash (map (fun i => rd 0 digest_c' i) (py_range 0 32 1))
     = Spec.pow_of_header data M.
Proof.
  intros Hbuf Hp Hd. cbv zeta.
  rewrite copy_32 by (auto using cSHAKE256_length).
  rewrite (heavy_hash_core_spec _ _ _ M);
    [ | apply cSHAKE256_bytes | assumption | apply copy_matrix_cells; assumption ].
  split; [reflexivity|].
  split; [reflexivity|].
  unfold Spec.pow_of_header. apply (f_equal (cSHAKE256 HeavyHash)).
  change (py_range 0 32 1) with (seq 0 32).
  rewrite <- (length_digest (cSHAKE256 ProofOfWorkHash data)
                (Spec.product M (Spec.nibbles (cSHAKE256 ProofOfWorkHash data)))) at 1.
  apply map_rd_seq.
Qed.

(** [compute_pow] of v3 on a digest of any length. *)
Lemma compute_pow_v3_returns (D : list Z) (T N : Z) (M : list (list Z)) :
  is_u64 T -> is_u64 N ->
  V3.compute_pow D T N M = Returned (Spec.pow D T N M).
Proof.
  intros HT HN. unfold V3.compute_pow, as_uint64.
  rewrite !in_u64_true by assumption. f_equal.
  apply (core_on_buffers M); now rewrite repeat_length.
Qed.

(** [compute_pow] of v2 on a digest of any length. *)
Lemma compute_pow_v2_returns (D : list Z) (T N : Z) (M : list (list Z)) :
  is_u64 T -> is_u64 N ->
  V2.compute_pow D T N M = Returned (Spec.pow D T N M).
Proof.
  intros HT HN. unfold V2.compute_pow, as_uint64.
  rewrite !in_u64_true by assumption. f_equal.
  apply heavy_hash_with_matrix_spec, cSHAKE256_bytes.
Qed.

Lemma length_header (D : list Z) (T N : Z) :
  length (Spec.header D T N) = (length D + 48)%nat.
Proof.
  unfold Spec.header. rewrite !length_app, !length_le_bytes, repeat_length. lia.
Qed.

(** C1. On a 32-byte digest, 64-bit timestamp and nonce and a 64 x 64
    matrix of nibbles, [compute_pow] of v3 and of v2 return the HeavyHash
    cSHAKE256 of the digest built from the ProofOfWorkHash cSHAKE256 of
    the 80-byte header, its nibbles, the shifted and masked 64-bit
    matrix-vector product and the byte-wise xor. *)
Theorem compute_pow_spec (D : list Z) (T N : Z) (M : list (list Z)) :
  length D = 32%nat -> Forall is_byte D -> is_u64 T -> is_u64 N -> is_matrix M ->
  let header := D ++ le_bytes 8 T ++ repeat 0 32%nat ++ le_bytes 8 N in
  let h1 := cSHAKE256 ProofOfWorkHash header in
  let v := Spec.nibbles h1 in
  let p := Spec.product M v in
  let d := Spec.digest h1 p in
  length header = 80%nat
  /\ V3.compute_pow D T N M = Returned (cSHAKE256 HeavyHash d)
  /\ V2.compute_pow D T N M = Returned (cSHAKE256 HeavyHash d)
  /\ length (cSHAKE256 HeavyHash d) = 32%nat.
Proof.
  intros HD _ HT HN _. cbv zeta. split; [|split; [|split]].
  - change (length (Spec.header D T N) = 80%nat). now rewrite length_header, HD.
  - now apply compute_pow_v3_returns.
  - now apply compute_pow_v2_returns.
  - apply cSHAKE256_length.
Qed.

End ComputePow.

(** The stand-in hash meets the interface. *)
#[local] Instance checksum_cshake : CShake256.
Proof.
  refine {| cSHAKE256 := checksum_hash |}.
  - intros custom data. unfold checksum_hash. now rewrite length_map, length_seq.
  - intros custom data. unfold checksum_hash. apply Forall_forall. intros b Hb.
    apply list_elem_of_In, in_map_iff in Hb. destruct Hb as (i & <- & _).
    unfold is_byte. apply Z.mod_pos_bound. lia.
Defined.

Lemma is_matrix_check M : is_matrixb M = true -> is_matrix M.
Proof.
  unfold is_matrixb, is_matrix. intros HM.
  apply andb_prop in HM as [Hl Hrows]. apply Nat.eqb_eq in Hl.
  split; [assumption|]. apply Forall_forall. intros row Hrow.
  apply list_elem_of_In in Hrow. rewrite forallb_forall in Hrows.
  apply Hrows, andb_prop in Hrow as [Hlr Hcells]. apply Nat.eqb_eq in Hlr.
  split; [assumption|]. apply Forall_forall. intros x Hx.
  apply list_elem_of_In in Hx. rewrite forallb_forall in Hcells.
  specialize (Hcells x Hx). unfold is_nibble. lia.
Qed.

Lemma compute_pow_spec_witness :
  let D := map Z.of_nat (seq 1 32) in
  let T := 1700000000000 in
  let N := 2 ^ 64 - 1 in
  let M := map (fun i => map (fun j => Z.of_nat ((i + 3 * j) mod 16)) (seq 0 64)) (seq 0 64) in
  let header := D ++ le_bytes 8 T ++ repeat 0 32%nat ++ le_bytes 8 N in
  let h1 := cSHAKE256 ProofOfWorkHash header in
  let v := Spec.nibbles h1 in
  let p := Spec.product M v in
  let d := Spec.digest h1 p in
  length header = 80%nat
  /\ V3.compute_pow D T N M = Returned (cSHAKE256 HeavyHash d)
  /\ V2.compute_pow D T N M = Returned (cSHAKE256 HeavyHash d)
  /\ length (cSHAKE256 HeavyHash d) = 32%nat.
Proof.
  apply (compute_pow_spec (H := checksum_cshake)).
  - reflexivity.
  - apply Forall_is_byte_check. reflexivity.
  - unfold is_u64. lia.
  - unfold is_u64. lia.
  - apply is_matrix_check. vm_compute. reflexivity.
Defined.

Section Batch.
Context {H : CShake256}.

(** The loop of [compute_pow_batch] from any state of its buffers. *)
Lemma batch_loop (D : list Z) (T : Z) (M : list (list Z)) (buf : list Z) (nonces : list Z) :
  length buf = 4096%nat -> Forall is_u64 nonces ->
  forall pow_hash_c digest_c results,
  length pow_hash_c = 32%nat -> length digest_c = 32%nat ->
  result_map (fun '(_, _, results) => results)
    (V3.for_each nonces
       (fun nonce '(pow_hash_c, digest_c, results) =>
          as_uint64 nonce (fun nonce =>
            let data :=
              D ++ pack_le64 T ++ repeat 0 32%nat ++ pack_le64 nonce in
            let pow_hash := cSHAKE256 ProofOfWorkHash data in
            let pow_hash_c :=
              for_in (py_range 0 32 1)
                (fun i pow_hash_c => <[i := rd 0 pow_hash i]> pow_hash_c)
                pow_hash_c in
            let digest_c := V3.heavy_hash_core (V3.copy_matrix M buf) pow_hash_c digest_c in
            let digest := map (fun i => rd 0 digest_c i) (py_range 0 32 1) in
            Returned (pow_hash_c, digest_c,
                      results ++ [(nonce, cSHAKE256 HeavyHash digest)])))
       (pow_hash_c, digest_c, results))
  = Returned (results ++ map (fun n => (n, Spec.pow D T n M)) nonces).
Proof.
  intros Hbuf. induction 1 as [|n nonces Hn _ IH]; intros pc dc res Hpc Hdc.
  - simpl. now rewrite app_nil_r.
  - cbn [V3.for_each]. unfold as_uint64 at 1. rewrite in_u64_true by assumption.
    cbv zeta.
    destruct (core_on_buffers M
                (D ++ pack_le64 T ++ repeat 0 32%nat ++ pack_le64 n)
                buf pc dc Hbuf Hpc Hdc) as (E1 & E2 & E3).
    rewrite E3. rewrite IH.
    + rewrite <- app_assoc. reflexivity.
    + rewrite E1. apply cSHAKE256_length.
    + rewrite E2. apply length_digest.
Qed.

(** C4. [compute_pow_batch] returns, in order, each nonce paired with what
    [compute_pow] returns for it. *)
Theorem compute_pow_batch_spec (D : list Z) (T : Z) (nonces : list Z) (M : list (list Z)) :
  is_u64 T -> Forall is_u64 nonces ->
  exists hashes : list (list Z),
    Forall2 (fun n h => V3.compute_pow D T n M = Returned h) nonces hashes
    /\ V3.compute_pow_batch D T nonces M = Returned (combine nonces hashes).
Proof.
  intros HT HN. exists (map (fun n => Spec.pow D T n M) nonces). split.
  - apply Forall2_fmap_r, Forall_Forall2_diag.
    rewrite Forall_forall in HN |- *. intros n Hn.
    apply compute_pow_v3_returns; auto.
  - unfold V3.compute_pow_batch, as_uint64. rewrite in_u64_true by assumption.
    pose proof (batch_loop D T M (repeat 0 (64 * 64)%nat) nonces
                  (repeat_length _ _) HN (repeat 0 32%nat) (repeat 0 32%nat) []
                  (repeat_length _ _) (repeat_length _ _)) as E.
    refine (eq_trans E _). cbn [app]. f_equal. clear HN E.
    induction nonces as [|n l IH]; [reflexivity|]. simpl. now rewrite IH.
Qed.

End Batch.

Lemma compute_pow_batch_spec_witness :
  let D := map Z.of_nat (seq 1 32) in
  let nonces := [0; 1; 2 ^ 64 - 1; 1] in
  exists hashes : list (list Z),
    Forall2 (fun n h => V3.compute_pow D 1700000000000 n np_zeros_64_64 = Returned h)
      nonces hashes
    /\ V3.compute_pow_batch D 1700000000000 nonces np_zeros_64_64
       = Returned (combine nonces hashes).
Proof.
  apply (compute_pow_batch_spec (H := checksum_cshake)).
  - unfold is_u64. lia.
  - repeat constructor; lia.
Defined.

(** ** Digests of the wrong length *)

(** The claim that a digest of another length is rejected fails: on a
    31-byte digest [compute_pow] of v3 and of v2 return the transform of a
    79-byte header. *)
Lemma compute_pow_short_digest_returns :
  let D := repeat 0 31%nat in
  length D <> 32%nat
  /\ length (Spec.header D 0 0) = 79%nat
  /\ V3.compute_pow (H := checksum_cshake) D 0 0 np_zeros_64_64
     = Returned (Spec.pow_of_header (Spec.header D 0 0) np_zeros_64_64)
  /\ V2.compute_pow (H := checksum_cshake) D 0 0 np_zeros_64_64
     = Returned (Spec.pow_of_header (Spec.header D 0 0) np_zeros_64_64)
  /\ ~ exists e, V3.compute_pow (H := checksum_cshake) D 0 0 np_zeros_64_64 = Raised e.
Proof.
  cbv zeta. split; [discriminate|]. split; [reflexivity|].
  assert (is_u64 0) as H0 by (unfold is_u64; lia).
  pose proof (compute_pow_v3_returns (H := checksum_cshake)
                (repeat 0 31%nat) 0 0 np_zeros_64_64 H0 H0) as E3.
  pose proof (compute_pow_v2_returns (H := checksum_cshake)
                (repeat 0 31%nat) 0 0 np_zeros_64_64 H0 H0) as E2.
  split; [exact E3|]. split; [exact E2|].
  intros [e He]. rewrite E3 in He. discriminate.
Qed.

Section AnyLength.
Context {H : CShake256}.

(** C6, amended. [compute_pow] checks no length: for a digest of any
    length it hashes the digest followed by the 48 bytes of timestamp,
    padding and nonce, without truncating or padding the digest, and
    returns the transform of that header. *)
Theorem compute_pow_any_length (D : list Z) (T N : Z) (M : list (list Z)) :
  is_u64 T -> is_u64 N ->
  let header := D ++ le_bytes 8 T ++ repeat 0 32%nat ++ le_bytes 8 N in
  length header = (length D + 48)%nat
  /\ take (length D) header = D
  /\ V3.compute_pow D T N M = Returned (Spec.pow_of_header header M)
  /\ V2.compute_pow D T N M = Returned (Spec.pow_of_header header M).
Proof.
  intros HT HN. cbv zeta. split; [|split; [|split]].
  - apply length_header.
  - now rewrite take_app_length.
  - now apply compute_pow_v3_returns.
  - now apply compute_pow_v2_returns.
Qed.

End AnyLength.

Lemma compute_pow_any_length_witness :
  let D := [1; 2; 3] in
  let header := D ++ le_bytes 8 5 ++ repeat 0 32%nat ++ le_bytes 8 7 in
  length header = (length D + 48)%nat
  /\ take (length D) header = D
  /\ V3.compute_pow D 5 7 np_zeros_64_64
     = Returned (Spec.pow_of_header header np_zeros_64_64)
  /\ V2.compute_pow D 5 7 np_zeros_64_64
     = Returned (Spec.pow_of_header header np_zeros_64_64).
Proof.
  apply (compute_pow_any_length (H := checksum_cshake) [1; 2; 3] 5 7 np_zeros_64_64);
    unfold is_u64; lia.
Defined.

(** ** Rows of a two-dimensional array *)

Lemma row_wr2 {A : Type} (m : list (list A)) a b x k :
  rd [] (wr2 m a b x) k = if decide (k = a) then <[b := x]> (rd [] m a) else rd [] m k.
Proof.
  unfold wr2, rd. destruct (decide (k = a)) as [->|Hne].
  - destruct (Nat.lt_ge_cases a (length m)) as [Ha|Ha].
    + now rewrite list_lookup_insert_eq.
    + rewrite list_insert_ge by assumption.
      now rewrite lookup_ge_None_2.
  - now rewrite list_lookup_insert_ne.
Qed.

Lemma rd2_wr2_ne {A : Type} (d : A) m a b x k c :
  k <> a \/ c <> b -> rd2 d (wr2 m a b x) k c = rd2 d m k c.
Proof.
  intros Hne. unfold rd2. rewrite row_wr2.
  destruct (decide (k = a)) as [->|]; [|reflexivity].
  apply rd_insert_ne. destruct Hne; congruence.
Qed.

Lemma length_wr2 {A : Type} (m : list (list A)) a b x :
  length (wr2 m a b x) = length m.
Proof. unfold wr2. apply length_insert. Qed.

Lemma in_py_range_1 p lo hi : In p (py_range lo hi 1) -> (lo <= p < hi)%nat.
Proof. rewrite py_range_1, in_seq. lia. Qed.

(** ** The rank computer *)

Module RankFacts.
Import Rank.

Local Open Scope float_scope.
Local Opaque size py_range.

(** The normalisation loop rewrites row [j] alone. *)
Lemma norm_loop_rows ps temp j : forall m k,
  rd [] (for_in ps (fun p m => wr2 m j p (rd2 0 m j p / temp)) m) k
  = if decide (k = j) then norm_row ps temp (rd [] m j) else rd [] m k.
Proof.
  induction ps as [|a ps IH]; intros m k.
  - simpl. now destruct (decide (k = j)) as [->|].
  - rewrite for_in_cons.
    rewrite (IH (wr2 m j a (rd2 0 m j a / temp)) k), !row_wr2.
    destruct (decide (k = j)) as [->|Hne].
    + destruct (decide (j = j)); [reflexivity|congruence].
    + destruct (decide (k = j)); [congruence|reflexivity].
Qed.

(** The elimination of row [k] rewrites row [k] alone, from row [j]. *)
Lemma elim_loop_rows ps temp j k : k <> j -> forall m k',
  rd [] (for_in ps (fun p m => wr2 m k p (rd2 0 m k p - rd2 0 m j p * temp)) m) k'
  = if decide (k' = k) then elim_row ps temp (rd [] m j) (rd [] m k) else rd [] m k'.
Proof.
  intros Hkj. induction ps as [|a ps IH]; intros m k'.
  - simpl. now destruct (decide (k' = k)) as [->|].
  - rewrite for_in_cons.
    rewrite (IH (wr2 m k a (rd2 0 m k a - rd2 0 m j a * temp)) k'), !row_wr2.
    destruct (decide (j = k)); [congruence|].
    destruct (decide (k = k)); [|congruence].
    destruct (decide (k' = k)) as [->|Hne]; reflexivity.
Qed.

(** What the scan returns. *)
Lemma scan_spec i st : forall n j0,
  let j := scan n j0 i st in
  (j0 <= j <= j0 + n)%nat
  /\ (forall j', (j0 <= j' < j)%nat ->
        negb (rd false (row_selected st) j')
        && non_negligible (rd2 0 (mat_float st) j' i) = false)
  /\ ((j < j0 + n)%nat ->
        rd false (row_selected st) j = false
        /\ non_negligible (rd2 0 (mat_float st) j i) = true).
Proof.
  induction n as [|n IH]; intros j0; cbn [scan]; cbv zeta.
  - repeat split; intros; lia.
  - destruct (negb (rd false (row_selected st) j0)
              && non_negligible (rd2 0 (mat_float st) j0 i)) eqn:E.
    + split; [lia|]. split; [intros; lia|]. intros _.
      apply andb_prop in E as [E1 E2]. now apply negb_true_iff in E1.
    + destruct (IH (S j0)) as (Hb & Hbefore & Hat). cbv zeta in *.
      split; [lia|]. split.
      * intros j' Hj'. destruct (decide (j' = j0)) as [->|]; [assumption|].
        apply Hbefore. lia.
      * intros Hlt. apply Hat. lia.
Qed.

(** The scan reads the selection flags and the unselected rows only. *)
Lemma scan_agree i st st' :
  row_selected st = row_selected st' ->
  (forall k, rd false (row_selected st) k = false ->
             rd [] (mat_float st) k = rd [] (mat_float st') k) ->
  forall n j0, scan n j0 i st = scan n j0 i st'.
Proof.
  intros Hsel Hrows. induction n as [|n IH]; intros j0; cbn [scan]; [reflexivity|].
  rewrite <- Hsel. unfold rd2.
  destruct (rd false (row_selected st) j0) eqn:E.
  - simpl. apply IH.
  - rewrite (Hrows j0 E). now rewrite IH.
Qed.

(** Caching the divisor and the multiplier in [temp] changes nothing:
    the inner loops write to the right of column [i] only. *)
Lemma step_step_c i st : step i st = step_c i st.
Proof.
  unfold step, step_c. destruct (Nat.eqb (find_pivot i st) size); [reflexivity|].
  cbv zeta. set (j := find_pivot i st). f_equal.
  set (m0 := mat_float st).
  destruct (for_in_ext_inv (fun m => rd2 0 m j i = rd2 0 m0 j i)
              (fun p m => wr2 m j p (rd2 0 m j p / rd2 0 m j i))
              (fun p m => wr2 m j p (rd2 0 m j p / rd2 0 m0 j i))
              (py_range (i + 1) size 1) m0 eq_refl) as [-> _].
  { intros p m Hp Hm. apply in_py_range_1 in Hp. split.
    - now rewrite Hm.
    - rewrite rd2_wr2_ne by (right; lia). exact Hm. }
  apply for_in_ext. intros k m _.
  destruct (negb (Nat.eqb k j) && non_negligible (rd2 0 m k i)); [|reflexivity].
  cbv zeta.
  destruct (for_in_ext_inv (fun m' => rd2 0 m' k i = rd2 0 m k i)
              (fun p m => wr2 m k p (rd2 0 m k p - rd2 0 m j p * rd2 0 m k i))
              (fun p m' => wr2 m' k p (rd2 0 m' k p - rd2 0 m' j p * rd2 0 m k i))
              (py_range (i + 1) size 1) m eq_refl) as [-> _]; [|reflexivity].
  intros p m' Hp Hm. apply in_py_range_1 in Hp. split.
  - now rewrite Hm.
  - rewrite rd2_wr2_ne by (right; lia). exact Hm.
Qed.

Lemma run_run_c n st : run n st = run_c n st.
Proof. unfold run, run_c. apply for_in_ext. intros i s _. apply step_step_c. Qed.

Lemma agree_refl st : agree st st.
Proof. repeat split. Qed.

(** One column of the code against one column of the specification. *)
Lemma step_agree i st st' :
  agree st st' -> agree (step_c i st) (step_untouched i st').
Proof.
  intros (Hsel & Hrank & Hrows). unfold step_c, step_untouched, find_pivot.
  rewrite <- (scan_agree i st st' Hsel Hrows).
  destruct (scan_spec i st size 0%nat) as (Hj & _ & Hat). cbv zeta in Hj, Hat.
  set (j := scan size 0 i st) in *.
  destruct (Nat.eqb_spec j size) as [E|E]; [now repeat split|].
  destruct Hat as [Hunsel _]; [lia|].
  cbv zeta. rewrite <- Hsel.
  set (sel := row_selected st) in *. set (ps := py_range (i + 1) size 1).
  split; [reflexivity|].
  split; [cbn [rank]; now rewrite Hrank|].
  cbn [row_selected mat_float].
  assert (forall k, rd false (<[j := true]> sel) k = false -> rd false sel k = false)
    as Hsub.
  { intros k Hk. destruct (decide (k = j)) as [->|]; [assumption|].
    now rewrite rd_insert_ne in Hk by congruence. }
  intros k Hk. apply Hsub in Hk. revert k Hk.
  apply (for_in_rel
    (fun m m' => forall k, rd false sel k = false -> rd [] m k = rd [] m' k)).
  - intros k Hk. rewrite !norm_loop_rows. unfold rd2.
    rewrite (Hrows j Hunsel). destruct (decide (k = j)); [reflexivity|].
    now apply Hrows.
  - intros k m m' _ Hm k' Hk'.
    destruct (Nat.eqb_spec k j) as [->|Hkj]; cbn [negb andb]; [now apply Hm|].
    rewrite (rd_insert_ne false sel j k true) by congruence.
    destruct (rd false sel k) eqn:Ek; cbn [negb andb].
    + destruct (non_negligible (rd2 0 m k i)); [|now apply Hm].
      cbv zeta. rewrite elim_loop_rows by assumption.
      destruct (decide (k' = k)) as [->|]; [congruence|]. now apply Hm.
    + assert (rd2 0 m k i = rd2 0 m' k i) as ->
        by (unfold rd2; now rewrite (Hm k Ek)).
      destruct (non_negligible (rd2 0 m' k i)); [|now apply Hm].
      cbv zeta. rewrite !elim_loop_rows by assumption.
      rewrite (Hm k Ek), (Hm j Hunsel).
      destruct (decide (k' = k)); [reflexivity|]. now apply Hm.
Qed.

Lemma run_agree n st : agree (run_c n st) (run_untouched n st).
Proof.
  unfold run_c, run_untouched.
  apply (for_in_rel agree); [apply agree_refl|].
  intros i s1 s2 _. apply step_agree.
Qed.

(** The elimination loop over the rows [0 .. n - 1], on the rows. *)
Lemma elim_all_rows i j ps m : forall n k',
  rd [] (for_in (seq 0 n)
           (fun k m =>
              if negb (Nat.eqb k j) && non_negligible (rd2 0 m k i)
              then
                let temp := rd2 0 m k i in
                for_in ps (fun p m => wr2 m k p (rd2 0 m k p - rd2 0 m j p * temp)) m
              else m) m) k'
  = if decide (k' = j) then rd [] m j
    else if Nat.ltb k' n && non_negligible (rd2 0 m k' i)
         then elim_row ps (rd2 0 m k' i) (rd [] m j) (rd [] m k')
         else rd [] m k'.
Proof.
  induction n as [|n IH]; intros k'.
  - simpl. destruct (decide (k' = j)) as [->|]; reflexivity.
  - rewrite seq_S, for_in_app. cbn [Nat.add].
    set (mn := for_in (seq 0 n) _ m) in *.
    rewrite for_in_cons. cbn [for_in fold_left].
    assert (rd [] mn n = rd [] m n) as Hn.
    { rewrite IH. rewrite Nat.ltb_irrefl. cbn [andb].
      destruct (decide (n = j)) as [->|]; reflexivity. }
    assert (rd [] mn j = rd [] m j) as Hjrow.
    { rewrite IH. destruct (decide (j = j)); [reflexivity|congruence]. }
    assert (rd2 0 mn n i = rd2 0 m n i) as Hcell by (unfold rd2; now rewrite Hn).
    rewrite Hcell.
    destruct (Nat.eqb_spec n j) as [->|Hnj]; cbn [negb andb].
    + rewrite IH. destruct (decide (k' = j)) as [->|Hne]; [reflexivity|].
      destruct (Nat.ltb_spec k' j), (Nat.ltb_spec k' (S j)); try lia; reflexivity.
    + destruct (non_negligible (rd2 0 m n i)) eqn:Enn.
      * cbv zeta. rewrite elim_loop_rows by assumption.
        destruct (decide (k' = n)) as [->|Hne].
        -- destruct (decide (n = j)); [congruence|].
           rewrite (proj2 (Nat.ltb_lt n (S n))) by lia. rewrite Enn. cbn [andb].
           now rewrite Hn, Hjrow.
        -- rewrite IH. destruct (decide (k' = j)); [reflexivity|].
           destruct (Nat.ltb_spec k' n), (Nat.ltb_spec k' (S n)); try lia; reflexivity.
      * rewrite IH. destruct (decide (k' = j)); [reflexivity|].
        destruct (Nat.ltb_spec k' n), (Nat.ltb_spec k' (S n)); try lia; try reflexivity.
        assert (k' = n) as -> by lia. now rewrite Enn.
Qed.

Lemma py_range_0_size : py_range 0 size 1 = seq 0 size.
Proof. now rewrite py_range_1, Nat.sub_0_r. Qed.

(** A column of [compute_rank_c] does what [column_step] says. *)
Lemma step_c_column i st : column_step i st (step_c i st).
Proof.
  unfold column_step, step_c, find_pivot.
  destruct (scan_spec i st size 0%nat) as (Hj & Hbefore & Hat).
  cbv zeta in Hj, Hbefore, Hat |- *.
  set (j := scan size 0 i st) in *.
  split; [lia|]. split.
  { intros j' Hj'. specialize (Hbefore j' ltac:(lia)).
    apply andb_false_iff in Hbefore as [Hb|Hb]; [left|now right].
    now apply negb_false_iff in Hb. }
  destruct (Nat.eqb_spec j size) as [E|E].
  - split; [reflexivity|]. intros Hlt. lia.
  - split; [intros; congruence|]. intros Hlt.
    destruct Hat as [Hunsel Hnn]; [lia|].
    cbn [row_selected rank mat_float].
    repeat (split; [assumption || reflexivity|]).
    intros k. rewrite py_range_0_size, elim_all_rows.
    rewrite !norm_loop_rows.
    destruct (decide (j = j)); [|congruence].
    destruct (decide (k = j)) as [->|Hkj]; [reflexivity|].
    assert (rd2 0 (for_in (py_range (i + 1) size 1)
                     (fun p m => wr2 m j p (rd2 0 m j p / rd2 0 (mat_float st) j i))
                     (mat_float st)) k i
            = rd2 0 (mat_float st) k i) as ->; [|reflexivity].
    unfold rd2. rewrite norm_loop_rows.
    destruct (decide (k = j)); [congruence|]. reflexivity.
Qed.

Lemma run_c_S n st : run_c (S n) st = step_c n (run_c n st).
Proof. unfold run_c. now rewrite seq_S, for_in_app. Qed.

Lemma rank_step_c i st :
  rank (step_c i st)
  = (rank st + if Nat.eqb (find_pivot i st) size then 0 else 1)%Z.
Proof.
  unfold step_c. destruct (Nat.eqb (find_pivot i st) size); cbn [rank]; lia.
Qed.

(** The rank counts the columns with a pivot. *)
Lemma rank_run_c st0 : forall n,
  rank (run_c n st0)
  = (rank st0
     + Z.of_nat (length (List.filter
                           (fun i => negb (Nat.eqb (find_pivot i (run_c i st0)) size))
                           (seq 0 n))))%Z.
Proof.
  induction n as [|n IH]; [cbn; lia|].
  rewrite run_c_S, rank_step_c, IH, seq_S, List.filter_app, length_app.
  cbn [List.filter Nat.add].
  destruct (Nat.eqb (find_pivot n (run_c n st0)) size); cbn [negb length]; lia.
Qed.

Lemma count_insert_true (sel : list bool) : forall j,
  (j < length sel)%nat -> rd false sel j = false ->
  length (List.filter (fun b : bool => b) (<[j := true]> sel))
  = S (length (List.filter (fun b : bool => b) sel)).
Proof.
  induction sel as [|b sel IH]; intros [|j] Hj Hb; simpl in Hj; try lia.
  - unfold rd in Hb. simpl in Hb. subst b. reflexivity.
  - change (<[S j := true]> (b :: sel)) with (b :: <[j := true]> sel).
    cbn [List.filter]. destruct b; cbn [length]; rewrite IH; auto; lia.
Qed.

(** The rank counts the rows selected. *)
Lemma selected_run_c st0 :
  length (row_selected st0) = size -> forall n,
  length (row_selected (run_c n st0)) = size
  /\ (Z.of_nat (selected_count (run_c n st0)) - Z.of_nat (selected_count st0)
      = rank (run_c n st0) - rank st0)%Z.
Proof.
  intros Hlen. induction n as [|n [IHl IHc]]; [cbn; split; [assumption|lia]|].
  rewrite run_c_S, rank_step_c. set (st := run_c n st0) in *.
  unfold step_c, find_pivot.
  destruct (scan_spec n st size 0%nat) as (Hj & _ & Hat). cbv zeta in Hj, Hat.
  unfold find_pivot. destruct (Nat.eqb_spec (scan size 0 n st) size) as [E|E].
  - split; [assumption|lia].
  - destruct Hat as [Hunsel _]; [lia|].
    unfold selected_count in *. cbn [row_selected].
    split; [now rewrite length_insert|].
    rewrite count_insert_true by (assumption || lia). lia.
Qed.

Lemma filter_repeat_false n :
  length (List.filter (fun b : bool => b) (repeat false n)) = 0%nat.
Proof. induction n as [|n IH]; [reflexivity|exact IH]. Qed.

Lemma gaussian_rank_run_c cell :
  gaussian_rank cell (rank (run_c size (init cell))).
Proof.
  unfold gaussian_rank. cbv zeta. set (st0 := init cell).
  assert (rank st0 = 0%Z) as H0 by reflexivity.
  split; [|split; [|split; [|split]]].
  - intros i _. rewrite run_c_S. apply step_c_column.
  - rewrite rank_run_c, H0.
    pose proof (List.filter_length_le
                  (fun i => negb (Nat.eqb (find_pivot i (run_c i st0)) size))
                  (seq 0 size)) as Hle.
    rewrite length_seq in Hle.
    assert (Z.of_nat size = 64%Z) as Hs by reflexivity. lia.
  - rewrite rank_run_c, H0. unfold pivot_columns. lia.
  - destruct (selected_run_c st0 (repeat_length false size) size) as [_ Hc].
    assert (selected_count st0 = 0%nat) as Hz.
    { unfold selected_count, st0, init. cbn [row_selected].
      apply filter_repeat_false. }
    rewrite Hz, H0 in Hc. change 64%nat with size. lia.
  - unfold compute_rank_untouched. apply run_agree.
Qed.

End RankFacts.

(** C5, amended. The rank computer of v3 and that of v1 and v2 select, for
    each column, the first row that is not selected and has an entry of
    absolute value above 1e-9 in that column, mark it, normalise it, and
    eliminate that column from every other row with a non-negligible
    entry there, rows selected earlier included; the rank returned lies in
    [0, 64], counts the pivots found, and equals what the elimination
    that leaves the selected rows alone returns. *)
Theorem rank_computer_pivots (matrix_c : list Z) (matrix : list (list Z)) :
  gaussian_rank (fun i j => rd 0 matrix_c (i * 64 + j)) (compute_rank_c matrix_c)
  /\ gaussian_rank (fun i j => rd2 0 matrix i j) (compute_rank matrix).
Proof.
  split.
  - apply RankFacts.gaussian_rank_run_c.
  - unfold compute_rank. rewrite RankFacts.run_run_c.
    apply RankFacts.gaussian_rank_run_c.
Qed.

(** The claim that rows selected earlier are left untouched fails: on
    [touched_matrix] row 0 is selected at column 0, and column 1, whose
    pivot is row 1, rewrites cell 2 of row 0 from 0 to -1. *)
Lemma compute_rank_c_touches_selected_row :
  let st0 := Rank.init (fun i j => rd 0 touched_matrix (i * 64 + j)) in
  let st1 := Rank.run_c 1 st0 in
  let st2 := Rank.run_c 2 st0 in
  rd false (Rank.row_selected st1) 0 = true
  /\ Rank.find_pivot 1 st1 = 1%nat
  /\ rd2 0%float (Rank.mat_float st1) 0 2 = 0%float
  /\ rd2 0%float (Rank.mat_float st2) 0 2 = (-1)%float
  /\ rd [] (Rank.mat_float st2) 0 <> rd [] (Rank.mat_float st1) 0.
Proof.
  cbv zeta. repeat split; try (vm_compute; reflexivity).
  intros Hrow.
  apply (f_equal (fun r => PrimFloat.eqb (rd 0%float r 2) 0%float)) in Hrow.
  vm_compute in Hrow. discriminate.
Qed.

(** ** The fill loops *)

Lemma draws_S n : forall s, draws (S n) s = snd (xoshiro_next (draws n s)).
Proof. induction n as [|n IH]; intros s; [reflexivity|]. cbn [draws] in *. apply IH. Qed.

Lemma draws_add a b s : draws (a + b) s = draws b (draws a s).
Proof.
  revert s. induction a as [|a IH]; intros s; [reflexivity|].
  cbn [Nat.add draws]. apply IH.
Qed.

Lemma div_mod_16 g k : (k < 16)%nat -> ((16 * g + k) / 16 = g /\ (16 * g + k) mod 16 = k)%nat.
Proof.
  intros Hk. split.
  - symmetry. apply (Nat.div_unique _ _ _ k); lia.
  - symmetry. apply (Nat.mod_unique _ _ g); lia.
Qed.

(** Brings in the invariant rule for the loop over [seq a n] of the goal. *)
Ltac loop_inv n P :=
  match goal with
  | |- context [for_in (seq ?a n) ?b ?s] =>
      let H := fresh "Hinv" in
      pose proof (for_in_seq_inv P b n a s) as H; cbv beta in H
  end.

Section FillLoops.
Context {M : Type} (store : nat -> nat -> Z -> M -> M) (get : M -> nat -> nat -> Z)
  (valid : M -> Prop).
Hypothesis store_valid : forall i c x m, valid m -> valid (store i c x m).
Hypothesis get_store_eq : forall i c x m,
  valid m -> (i < 64)%nat -> (c < 64)%nat -> get (store i c x m) i c = x.
Hypothesis get_store_ne : forall i c x m i' c',
  valid m -> (i < 64)%nat -> (c < 64)%nat -> (i' < 64)%nat -> (c' < 64)%nat ->
  i' <> i \/ c' <> c ->
  get (store i c x m) i' c' = get m i' c'.

(** The fill draws 256 words and writes every cell, whatever the matrix
    held before. *)
Lemma fill_loops_cells (rng : xstate) (m : M) :
  valid m ->
  fst (fill_loops store rng m) = draws 256 rng
  /\ valid (snd (fill_loops store rng m))
  /\ forall i c, (i < 64)%nat -> (c < 64)%nat ->
       get (snd (fill_loops store rng m)) i c = nibble_cell rng i c.
Proof using store_valid get_store_eq get_store_ne.
  intros Hm. unfold fill_loops.
  change (py_range 0 64 1) with (seq 0 64).
  change (py_range 0 64 16) with (map (fun g => (16 * g)%nat) (seq 0 4)).
  change (py_range 0 16 1) with (seq 0 16).
  loop_inv 64%nat
    (fun i (st : xstate * M) =>
       fst st = draws (4 * i) rng /\ valid (snd st)
       /\ forall i' c, (i' < i)%nat -> (c < 64)%nat ->
            get (snd st) i' c = nibble_cell rng i' c).
  destruct Hinv as (H1 & H2 & H3); [| |auto].
  { cbn [fst snd]. repeat split; auto. intros i' c Hi'. lia. }
  intros i [r a] Hi (Hr & Ha & Hrows). cbn [fst snd] in Hr, Ha, Hrows.
  rewrite for_in_map.
  loop_inv 4%nat
    (fun g (st : xstate * M) =>
       fst st = draws (4 * i + g) rng /\ valid (snd st)
       /\ (forall i' c, (i' < i)%nat -> (c < 64)%nat ->
             get (snd st) i' c = nibble_cell rng i' c)
       /\ forall c, (c < 16 * g)%nat -> get (snd st) i c = nibble_cell rng i c).
  destruct Hinv as (G1 & G2 & G3 & G4).
  { cbn [fst snd]. rewrite Nat.add_0_r. repeat split; auto. intros c Hc. lia. }
  { intros g [r' a'] Hg (Hr' & Ha' & Hrows' & Hcols). cbn [fst snd] in *.
    destruct (xoshiro_next r') as [val r''] eqn:Enext. cbn [fst snd].
    assert (val = word rng (4 * i + g)) as Hval
      by (unfold word; now rewrite <- Hr', Enext).
    loop_inv 16%nat
      (fun k a'' =>
         valid a''
         /\ (forall i' c, (i' < i)%nat -> (c < 64)%nat ->
               get a'' i' c = nibble_cell rng i' c)
         /\ forall c, (c < 16 * g + k)%nat -> get a'' i c = nibble_cell rng i c).
    destruct Hinv as (K1 & K2 & K3).
    - rewrite Nat.add_0_r. auto.
    - intros k a'' Hk (Hv & Hro & Hco). split; [now apply store_valid|]. split.
      + intros i' c Hi' Hc. rewrite get_store_ne by (auto; lia). now apply Hro.
      + intros c Hc. destruct (decide (c = (16 * g + k)%nat)) as [->|Hne].
        * rewrite get_store_eq by (auto; lia). unfold nibble_cell.
          destruct (div_mod_16 g k ltac:(lia)) as [-> ->]. now rewrite Hval.
        * rewrite get_store_ne by (auto; lia). apply Hco. lia.
    - split; [|split; [|split]]; auto.
      + replace (4 * i + S g)%nat with (S (4 * i + g)) by lia.
        rewrite draws_S, <- Hr', Enext. reflexivity.
      + intros c Hc. apply K3. lia. }
  split; [|split]; auto.
  - rewrite G1. f_equal. lia.
  - intros i' c Hi' Hc. destruct (decide (i' = i)) as [->|Hne].
    + apply G4. lia.
    + apply G3; [lia|assumption].
Qed.

End FillLoops.

(** ** The two stores *)

Lemma rd2_ext (m m' : list (list Z)) :
  shape_64_64 m -> shape_64_64 m' ->
  (forall i c, (i < 64)%nat -> (c < 64)%nat -> rd2 0 m i c = rd2 0 m' i c) ->
  m = m'.
Proof.
  intros [Hl Hr] [Hl' Hr'] Hc. apply (rd_ext []); [congruence|].
  intros i Hi. rewrite Hl in Hi. apply (rd_ext 0).
  - rewrite Hr, Hr'; auto.
  - intros c Hc'. rewrite Hr in Hc' by assumption. now apply Hc.
Qed.

Lemma shape_wr2 m i c x : shape_64_64 m -> shape_64_64 (wr2 m i c x).
Proof.
  intros [Hl Hr]. split; [now rewrite length_wr2|].
  intros k Hk. rewrite row_wr2. destruct (decide (k = i)) as [->|].
  - rewrite length_insert. auto.
  - auto.
Qed.

Lemma rd2_wr2_eq m i c x :
  shape_64_64 m -> (i < 64)%nat -> (c < 64)%nat -> rd2 0 (wr2 m i c x) i c = x.
Proof.
  intros [Hl Hr] Hi Hc. unfold rd2. rewrite row_wr2.
  destruct (decide (i = i)); [|congruence].
  apply rd_insert_eq. rewrite Hr; auto.
Qed.

Lemma rd2_matrix_of s i c :
  (i < 64)%nat -> (c < 64)%nat -> rd2 0 (matrix_of s) i c = nibble_cell s i c.
Proof.
  intros Hi Hc. unfold rd2, matrix_of.
  rewrite (rd_map [] 0%nat), rd_seq by (rewrite ?length_seq; lia).
  rewrite (rd_map 0 0%nat), rd_seq by (rewrite ?length_seq; lia).
  reflexivity.
Qed.

Lemma shape_matrix_of s : shape_64_64 (matrix_of s).
Proof.
  unfold matrix_of. split; [now rewrite length_map, length_seq|].
  intros i Hi. rewrite (rd_map [] 0%nat) by (rewrite length_seq; lia).
  now rewrite length_map, length_seq.
Qed.

Lemma shape_np_zeros : shape_64_64 np_zeros_64_64.
Proof.
  split; [reflexivity|]. intros i Hi. unfold np_zeros_64_64.
  unfold rd. rewrite <- nth_lookup, nth_repeat_lt by assumption. apply repeat_length.
Qed.

Lemma rd_flat_of s i c :
  (i < 64)%nat -> (c < 64)%nat -> rd 0 (flat_of s) (i * 64 + c) = nibble_cell s i c.
Proof.
  intros Hi Hc. unfold flat_of.
  rewrite (rd_map 0 0%nat), rd_seq by (rewrite ?length_seq; lia).
  cbn [Nat.add]. f_equal.
  - symmetry. apply (Nat.div_unique _ _ _ c); lia.
  - symmetry. apply (Nat.mod_unique _ _ i); lia.
Qed.

Lemma length_flat_of s : length (flat_of s) = 4096%nat.
Proof. unfold flat_of. now rewrite length_map, length_seq. Qed.

(** A flat array of 4096 cells is determined by its cells [(i, c)]. *)
Lemma flat_ext (a b : list Z) :
  length a = 4096%nat -> length b = 4096%nat ->
  (forall i c, (i < 64)%nat -> (c < 64)%nat ->
     rd 0 a (i * 64 + c) = rd 0 b (i * 64 + c)) ->
  a = b.
Proof.
  intros Ha Hb Hc. apply (rd_ext 0); [congruence|].
  intros t Ht. rewrite Ha in Ht.
  rewrite (Nat.div_mod_eq t 64), (Nat.mul_comm 64).
  apply Hc.
  - apply Nat.Div0.div_lt_upper_bound. lia.
  - apply Nat.mod_upper_bound. lia.
Qed.

(** The fill of v1 and v2: 256 draws, and the matrix of the state. *)
Lemma fill_2d rng m :
  shape_64_64 m ->
  fill_loops (fun i c x m => wr2 m i c x) rng m = (draws 256 rng, matrix_of rng).
Proof.
  intros Hm.
  destruct (fill_loops_cells (fun i c x m => wr2 m i c x) (fun m i c => rd2 0 m i c)
              shape_64_64) with (rng := rng) (m := m) as (E1 & E2 & E3); auto.
  - intros i c x a. apply shape_wr2.
  - intros i c x a. apply rd2_wr2_eq.
  - intros i c x a i' c' _ _ _ _ _. apply rd2_wr2_ne.
  - destruct (fill_loops _ rng m) as [r a]. cbn [fst snd] in *. f_equal; [assumption|].
    apply rd2_ext; [assumption|apply shape_matrix_of|].
    intros i c Hi Hc. now rewrite E3, rd2_matrix_of.
Qed.

(** The fill of v3: 256 draws, and the same cells in row-major order. *)
Lemma fill_flat rng out :
  length out = 4096%nat ->
  fill_loops (fun i c x m => <[(i * 64 + c)%nat := x]> m) rng out
  = (draws 256 rng, flat_of rng).
Proof.
  intros Hout.
  destruct (fill_loops_cells (fun i c x m => <[(i * 64 + c)%nat := x]> m)
              (fun m i c => rd 0 m (i * 64 + c))
              (fun m => length m = 4096%nat)) with (rng := rng) (m := out)
    as (E1 & E2 & E3); auto.
  - intros i c x a Ha. now rewrite length_insert.
  - intros i c x a Ha Hi Hc. apply rd_insert_eq. lia.
  - intros i c x a i' c' Ha Hi Hc Hi' Hc' Hne. apply rd_insert_ne. lia.
  - destruct (fill_loops _ rng out) as [r a]. cbn [fst snd] in *. f_equal; [assumption|].
    apply flat_ext; [assumption|apply length_flat_of|].
    intros i c Hi Hc. now rewrite E3, rd_flat_of.
Qed.

(** ** The three generators *)

Lemma init_ext cell cell' :
  (forall i j, (i < 64)%nat -> (j < 64)%nat -> cell i j = cell' i j) ->
  Rank.init cell = Rank.init cell'.
Proof.
  intros Hc. unfold Rank.init. f_equal.
  apply map_ext_in. intros i Hi. apply in_seq in Hi.
  apply map_ext_in. intros j Hj. apply in_seq in Hj.
  f_equal. apply Hc; unfold Rank.size in *; lia.
Qed.

(** The rank computer of v3 on the flat matrix of a state is that of v1
    and v2 on its rows. *)
Lemma compute_rank_c_flat_of s : compute_rank_c (flat_of s) = compute_rank (matrix_of s).
Proof.
  unfold compute_rank_c, compute_rank. rewrite RankFacts.run_run_c.
  rewrite (init_ext (fun i j => rd 0 (flat_of s) (i * 64 + j))
                    (fun i j => rd2 0 (matrix_of s) i j)); [reflexivity|].
  intros i j Hi Hj. now rewrite rd_flat_of, rd2_matrix_of.
Qed.

Lemma state_eta (s : xstate) :
  Xoshiro256PlusPlus.new (Xoshiro256PlusPlus.s0 s) (Xoshiro256PlusPlus.s1 s)
    (Xoshiro256PlusPlus.s2 s) (Xoshiro256PlusPlus.s3 s) = s.
Proof. now destruct s. Qed.

Lemma generate_matrix_c_loop_states fuel : forall state out_matrix,
  length out_matrix = 4096%nat ->
  V3.generate_matrix_c_loop fuel state out_matrix
  = option_map flat_of (passing_state fuel state).
Proof.
  induction fuel as [|fuel IH]; intros state out Hout; [reflexivity|].
  cbn [V3.generate_matrix_c_loop passing_state].
  rewrite fill_flat by assumption. rewrite compute_rank_c_flat_of.
  destruct (compute_rank (matrix_of state) =? 64); [reflexivity|].
  apply IH, length_flat_of.
Qed.

Lemma generate_matrix_internal_states fuel : forall s0 s1 s2 s3 out_matrix,
  shape_64_64 out_matrix ->
  V1.generate_matrix_internal fuel s0 s1 s2 s3 out_matrix
  = option_map matrix_of (passing_state fuel (Xoshiro256PlusPlus.new s0 s1 s2 s3)).
Proof.
  induction fuel as [|fuel IH]; intros s0 s1 s2 s3 out Hout; [reflexivity|].
  cbn [V1.generate_matrix_internal passing_state]. cbv zeta.
  rewrite fill_2d by assumption.
  destruct (compute_rank (matrix_of _) =? 64); [reflexivity|].
  rewrite IH by apply shape_matrix_of. now rewrite state_eta.
Qed.

Lemma generate_matrix_loop_states fuel : forall s0 s1 s2 s3,
  V2.generate_matrix_loop fuel s0 s1 s2 s3
  = option_map matrix_of (passing_state fuel (Xoshiro256PlusPlus.new s0 s1 s2 s3)).
Proof.
  induction fuel as [|fuel IH]; intros s0 s1 s2 s3; [reflexivity|].
  cbn [V2.generate_matrix_loop passing_state]. cbv zeta.
  rewrite fill_2d by apply shape_np_zeros.
  destruct (compute_rank (matrix_of _) =? 64); [reflexivity|].
  rewrite IH. now rewrite state_eta.
Qed.

(** The copy of the flat C matrix into the NumPy result gives the rows. *)
Lemma copy_out s :
  for_in (py_range 0 64 1)
    (fun i result =>
       for_in (py_range 0 64 1)
         (fun j result => wr2 result i j (rd 0 (flat_of s) (i * 64 + j))) result)
    np_zeros_64_64
  = matrix_of s.
Proof.
  change (py_range 0 64 1) with (seq 0 64).
  loop_inv 64%nat
    (fun i m => shape_64_64 m
                /\ forall i' c, (i' < i)%nat -> (c < 64)%nat ->
                     rd2 0 m i' c = nibble_cell s i' c).
  destruct Hinv as (H1 & H2).
  - split; [apply shape_np_zeros|]. intros i' c Hi'. lia.
  - intros i m Hi (Hm & Hrows).
    loop_inv 64%nat
      (fun j m => shape_64_64 m
                  /\ (forall i' c, (i' < i)%nat -> (c < 64)%nat ->
                        rd2 0 m i' c = nibble_cell s i' c)
                  /\ forall c, (c < j)%nat -> rd2 0 m i c = nibble_cell s i c).
    destruct Hinv as (K1 & K2 & K3).
    + repeat split; auto; try apply Hm. intros c Hc. lia.
    + intros j m' Hj (Hm' & Hrows' & Hcols). split; [now apply shape_wr2|]. split.
      * intros i' c Hi' Hc. rewrite rd2_wr2_ne by lia. now apply Hrows'.
      * intros c Hc. destruct (decide (c = j)) as [->|Hne].
        -- rewrite rd2_wr2_eq by (auto; lia). apply rd_flat_of; lia.
        -- rewrite rd2_wr2_ne by lia. apply Hcols. lia.
    + split; [assumption|]. intros i' c Hi' Hc.
      destruct (decide (i' = i)) as [->|Hne]; [now apply K3|].
      apply K2; [lia|assumption].
  - apply rd2_ext; [apply H1|apply shape_matrix_of|].
    intros i c Hi Hc. rewrite rd2_matrix_of by assumption. now apply H2.
Qed.

Lemma generate_matrix_v3_states fuel D :
  V3.generate_matrix fuel D = option_map matrix_of (passing_state fuel (seed_of D)).
Proof.
  unfold V3.generate_matrix, V3.generate_matrix_c. cbv zeta.
  rewrite state_eta, generate_matrix_c_loop_states by apply repeat_length.
  fold (seed_of D). destruct (passing_state fuel (seed_of D)) as [s|]; [|reflexivity].
  cbn [option_map]. now rewrite copy_out.
Qed.

Lemma generate_matrix_v2_states fuel D :
  V2.generate_matrix fuel D = option_map matrix_of (passing_state fuel (seed_of D)).
Proof. unfold V2.generate_matrix. cbv zeta. apply generate_matrix_loop_states. Qed.

Lemma passing_state_rank fuel : forall s s',
  passing_state fuel s = Some s' -> compute_rank (matrix_of s') = 64.
Proof.
  induction fuel as [|fuel IH]; intros s s'; [discriminate|].
  cbn [passing_state]. destruct (Z.eqb_spec (compute_rank (matrix_of s)) 64) as [E|E].
  - intros [= <-]. exact E.
  - apply IH.
Qed.

(** More fuel does not change what the loop returns. *)
Lemma passing_state_more fuel : forall fuel' s s',
  (fuel <= fuel')%nat ->
  passing_state fuel s = Some s' -> passing_state fuel' s = Some s'.
Proof.
  induction fuel as [|fuel IH]; intros fuel' s s' Hle; [discriminate|].
  destruct fuel' as [|fuel']; [lia|]. cbn [passing_state].
  destruct (compute_rank (matrix_of s) =? 64); [trivial|].
  apply IH. lia.
Qed.

(** After [k] failed attempts the loop is where a fresh loop started
    [256 * k] draws later would be. *)
Lemma passing_state_retry k : forall fuel s,
  (forall a, (a < k)%nat -> compute_rank (matrix_of (draws (256 * a) s)) <> 64) ->
  passing_state (k + fuel) s = passing_state fuel (draws (256 * k) s).
Proof.
  induction k as [|k IH]; intros fuel s Hfail; [reflexivity|].
  cbn [Nat.add passing_state].
  destruct (Z.eqb_spec (compute_rank (matrix_of s)) 64) as [E|_].
  - exfalso. apply (Hfail 0%nat); [lia|exact E].
  - rewrite IH.
    + replace (256 * S k)%nat with (256 + 256 * k)%nat by lia.
      now rewrite draws_add.
    + intros a Ha. rewrite <- draws_add.
      replace (256 + 256 * a)%nat with (256 * S a)%nat by lia. apply Hfail. lia.
Qed.

Lemma is_matrix_matrix_of s : is_matrix (matrix_of s).
Proof.
  unfold is_matrix, matrix_of. split; [now rewrite length_map, length_seq|].
  apply Forall_forall. intros row Hrow.
  apply list_elem_of_In, in_map_iff in Hrow. destruct Hrow as (i & <- & _).
  split; [now rewrite length_map, length_seq|].
  apply Forall_forall. intros x Hx.
  apply list_elem_of_In, in_map_iff in Hx. destruct Hx as (c & <- & _).
  apply land_15_nibble.
Qed.

(** The loop returns the state of the first attempt whose matrix has
    rank 64. *)
Lemma passing_state_first fuel : forall s s',
  passing_state fuel s = Some s'
  <-> exists k, (k < fuel)%nat
        /\ s' = draws (256 * k) s
        /\ compute_rank (matrix_of s') = 64
        /\ forall a, (a < k)%nat ->
             compute_rank (matrix_of (draws (256 * a) s)) <> 64.
Proof.
  induction fuel as [|fuel IH]; intros s s'.
  - split; [discriminate|]. intros (k & Hk & _). lia.
  - cbn [passing_state].
    destruct (Z.eqb_spec (compute_rank (matrix_of s)) 64) as [E|E].
    + split.
      * intros [= <-]. exists 0%nat. repeat split; auto; try lia.
      * intros (k & Hk & -> & Hr & Hfail). destruct k as [|k]; [reflexivity|].
        exfalso. apply (Hfail 0%nat); [lia|exact E].
    + rewrite IH. split.
      * intros (k & Hk & -> & Hr & Hfail). exists (S k).
        replace (256 * S k)%nat with (256 + 256 * k)%nat by lia.
        rewrite draws_add. repeat split; auto; try lia.
        intros a Ha. destruct a as [|a]; [exact E|].
        replace (256 * S a)%nat with (256 + 256 * a)%nat by lia.
        rewrite draws_add. apply Hfail. lia.
      * intros (k & Hk & -> & Hr & Hfail). destruct k as [|k].
        -- exfalso. apply E. exact Hr.
        -- exists k. replace (256 * S k)%nat with (256 + 256 * k)%nat in * by lia.
           rewrite draws_add in *. repeat split; auto; try lia.
           intros a Ha. specialize (Hfail (S a) ltac:(lia)).
           replace (256 * S a)%nat with (256 + 256 * a)%nat in Hfail by lia.
           now rewrite draws_add in Hfail.
Qed.

(** C8. Each attempt of the matrix generator draws 256 words and fills a
    matrix that depends on the state alone. An attempt that passes the
    rank test returns that matrix; when the test fails, the next attempt
    starts from the state those 256 draws have left, in v3 (the state
    array), in v1 and in v2 (the generator rebuilt from the fields copied
    back). So attempt [a] fills its matrix from the state [256 * a] draws
    after the seed, never from the seed again: after [k] failed attempts
    the loop goes on as a loop started [256 * k] draws after the seed,
    it returns the matrix of attempt [k] when that one passes, and what
    it returns within [fuel] attempts is the matrix of the first attempt
    that passes, nothing while all of them fail. *)
Theorem generator_retry (state : xstate) (out_matrix : list Z)
    (matrix : list (list Z)) (k fuel : nat) :
  length out_matrix = 4096%nat -> shape_64_64 matrix ->
  let fields (s : xstate) (f : Z -> Z -> Z -> Z -> option (list (list Z))) :=
    f (Xoshiro256PlusPlus.s0 s) (Xoshiro256PlusPlus.s1 s)
      (Xoshiro256PlusPlus.s2 s) (Xoshiro256PlusPlus.s3 s) in
  let v3 (n : nat) := V3.generate_matrix_c_loop n state out_matrix in
  let v1 (n : nat) :=
    fields state (fun s0 s1 s2 s3 =>
      V1.generate_matrix_internal n s0 s1 s2 s3 matrix) in
  let v2 (n : nat) := fields state (V2.generate_matrix_loop n) in
  let attempt (a : nat) := draws (256 * a) state in
  let passes (a : nat) := compute_rank (matrix_of (attempt a)) = 64 in
  let first (a : nat) := passes a /\ forall b, (b < a)%nat -> ~ passes b in
  fill_loops (fun i c x m => <[(i * 64 + c)%nat := x]> m) state out_matrix
    = (draws 256 state, flat_of state)
  /\ fill_loops (fun i c x m => wr2 m i c x) state matrix
    = (draws 256 state, matrix_of state)
  /\ (compute_rank_c (flat_of state) <> 64 ->
      V3.generate_matrix_c_loop (S fuel) state out_matrix
      = V3.generate_matrix_c_loop fuel (draws 256 state) (flat_of state))
  /\ (compute_rank (matrix_of state) <> 64 ->
      fields state (fun s0 s1 s2 s3 =>
        V1.generate_matrix_internal (S fuel) s0 s1 s2 s3 matrix)
      = fields (draws 256 state) (fun s0 s1 s2 s3 =>
        V1.generate_matrix_internal fuel s0 s1 s2 s3 (matrix_of state))
      /\ fields state (V2.generate_matrix_loop (S fuel))
         = fields (draws 256 state) (V2.generate_matrix_loop fuel))
  /\ ((forall a, (a < k)%nat ->
         compute_rank (matrix_of (draws (256 * a) state)) <> 64) ->
      V3.generate_matrix_c_loop (k + fuel) state out_matrix
      = V3.generate_matrix_c_loop fuel (draws (256 * k) state) out_matrix
      /\ fields state (fun s0 s1 s2 s3 =>
           V1.generate_matrix_internal (k + fuel) s0 s1 s2 s3 matrix)
         = fields (draws (256 * k) state) (fun s0 s1 s2 s3 =>
           V1.generate_matrix_internal fuel s0 s1 s2 s3 matrix)
      /\ fields state (V2.generate_matrix_loop (k + fuel))
         = fields (draws (256 * k) state) (V2.generate_matrix_loop fuel))
  /\ (compute_rank_c (flat_of state) = 64 ->
      v3 (S fuel) = Some (flat_of state))
  /\ (compute_rank (matrix_of state) = 64 ->
      v1 (S fuel) = Some (matrix_of state) /\ v2 (S fuel) = Some (matrix_of state))
  /\ (first k ->
      v3 (k + S fuel)%nat = Some (flat_of (attempt k))
      /\ v1 (k + S fuel)%nat = Some (matrix_of (attempt k))
      /\ v2 (k + S fuel)%nat = Some (matrix_of (attempt k)))
  /\ ((forall a, (a < fuel)%nat -> ~ passes a) ->
      v3 fuel = None /\ v1 fuel = None /\ v2 fuel = None)
  /\ (forall m, v3 fuel = Some m
        <-> exists a, (a < fuel)%nat /\ first a /\ m = flat_of (attempt a))
  /\ (forall m, v1 fuel = Some m
        <-> exists a, (a < fuel)%nat /\ first a /\ m = matrix_of (attempt a))
  /\ (forall m, v2 fuel = Some m
        <-> exists a, (a < fuel)%nat /\ first a /\ m = matrix_of (attempt a)).
Proof.
  intros Hout Hm. cbv zeta.
  assert (forall n,
            V3.generate_matrix_c_loop n state out_matrix
            = option_map flat_of (passing_state n state)) as E3
    by (intros n; now apply generate_matrix_c_loop_states).
  assert (forall n,
            V1.generate_matrix_internal n (Xoshiro256PlusPlus.s0 state)
              (Xoshiro256PlusPlus.s1 state) (Xoshiro256PlusPlus.s2 state)
              (Xoshiro256PlusPlus.s3 state) matrix
            = option_map matrix_of (passing_state n state)) as E1
    by (intros n; now rewrite generate_matrix_internal_states, state_eta).
  assert (forall n,
            V2.generate_matrix_loop n (Xoshiro256PlusPlus.s0 state)
              (Xoshiro256PlusPlus.s1 state) (Xoshiro256PlusPlus.s2 state)
              (Xoshiro256PlusPlus.s3 state)
            = option_map matrix_of (passing_state n state)) as E2
    by (intros n; now rewrite generate_matrix_loop_states, state_eta).
  assert (forall n (f : xstate -> list (list Z)) (g : xstate -> list Z),
            (forall m, option_map f (passing_state n state) = Some m
               <-> exists a, (a < n)%nat
                     /\ (compute_rank (matrix_of (draws (256 * a) state)) = 64
                         /\ forall b, (b < a)%nat ->
                              compute_rank (matrix_of (draws (256 * b) state)) <> 64)
                     /\ m = f (draws (256 * a) state))
            /\ (forall m, option_map g (passing_state n state) = Some m
               <-> exists a, (a < n)%nat
                     /\ (compute_rank (matrix_of (draws (256 * a) state)) = 64
                         /\ forall b, (b < a)%nat ->
                              compute_rank (matrix_of (draws (256 * b) state)) <> 64)
                     /\ m = g (draws (256 * a) state))) as Hfirst.
  { intros n f g.
    assert (forall (B : Type) (h : xstate -> B) (m : B),
              option_map h (passing_state n state) = Some m
              <-> exists a, (a < n)%nat
                    /\ (compute_rank (matrix_of (draws (256 * a) state)) = 64
                        /\ forall b, (b < a)%nat ->
                             compute_rank (matrix_of (draws (256 * b) state)) <> 64)
                    /\ m = h (draws (256 * a) state)) as Hh.
    { intros B h m. split.
      - destruct (passing_state n state) as [s'|] eqn:Es; [|discriminate].
        cbn [option_map]. intros [= <-].
        apply passing_state_first in Es. destruct Es as (a & Ha & -> & Hr & Hf).
        exists a. repeat split; auto.
      - intros (a & Ha & (Hr & Hf) & ->).
        assert (passing_state n state = Some (draws (256 * a) state)) as ->;
          [|reflexivity].
        apply passing_state_first. exists a. repeat split; auto. }
    split; intros m; apply Hh. }
  split; [now apply fill_flat|]. split; [now apply fill_2d|].
  split; [|split; [|split; [|split; [|split; [|split; [|split; [|split; [|split]]]]]]]].
  - intros Hfail. cbn [V3.generate_matrix_c_loop].
    rewrite fill_flat by assumption.
    destruct (Z.eqb_spec (compute_rank_c (flat_of state)) 64); [contradiction|reflexivity].
  - intros Hfail. split.
    + cbn [V1.generate_matrix_internal]. cbv zeta.
      rewrite state_eta, fill_2d by assumption.
      destruct (Z.eqb_spec (compute_rank (matrix_of state)) 64); [contradiction|reflexivity].
    + cbn [V2.generate_matrix_loop]. cbv zeta.
      rewrite state_eta, fill_2d by apply shape_np_zeros.
      destruct (Z.eqb_spec (compute_rank (matrix_of state)) 64); [contradiction|reflexivity].
  - intros Hfail.
    rewrite !generate_matrix_c_loop_states by assumption.
    rewrite !generate_matrix_internal_states by assumption.
    rewrite !generate_matrix_loop_states, !state_eta.
    now rewrite passing_state_retry.
  - intros Hpass. rewrite E3. cbn [passing_state].
    rewrite <- compute_rank_c_flat_of, Hpass. reflexivity.
  - intros Hpass. rewrite E1, E2. cbn [passing_state]. rewrite Hpass. now split.
  - intros [Hpass Hfail]. rewrite E3, E1, E2.
    rewrite passing_state_retry by exact Hfail.
    cbn [passing_state]. rewrite Hpass. now repeat split.
  - intros Hfail. rewrite E3, E1, E2.
    pose proof (passing_state_retry fuel 0 state Hfail) as E.
    rewrite Nat.add_0_r in E. rewrite E. now repeat split.
  - intros m. rewrite E3. apply (Hfirst fuel matrix_of flat_of).
  - intros m. rewrite E1. apply (Hfirst fuel matrix_of flat_of).
  - intros m. rewrite E2. apply (Hfirst fuel matrix_of flat_of).
Qed.

(** From the all-zero state every draw is zero and leaves the state
    all-zero, so every attempt fills the zero matrix, of rank 0: on the
    digest of 32 zero bytes the loop never returns. *)
Lemma draws_zero n :
  draws n (Xoshiro256PlusPlus.new 0 0 0 0) = Xoshiro256PlusPlus.new 0 0 0 0.
Proof. induction n as [|n IH]; [reflexivity|]. cbn [draws]. exact IH. Qed.

Lemma matrix_of_zero : matrix_of (Xoshiro256PlusPlus.new 0 0 0 0) = np_zeros_64_64.
Proof.
  apply rd2_ext; [apply shape_matrix_of|apply shape_np_zeros|].
  intros i c Hi Hc. rewrite rd2_matrix_of by assumption.
  unfold nibble_cell, word. rewrite draws_zero.
  change (fst (xoshiro_next (Xoshiro256PlusPlus.new 0 0 0 0))) with 0.
  rewrite Z.shiftr_0_l, Z.land_0_l.
  unfold rd2, rd, np_zeros_64_64.
  rewrite <- !nth_lookup, !nth_repeat_lt by assumption. reflexivity.
Qed.

Lemma compute_rank_zeros : compute_rank np_zeros_64_64 = 0.
Proof. vm_compute. reflexivity. Qed.

Lemma zero_seed_never_passes fuel :
  passing_state fuel (Xoshiro256PlusPlus.new 0 0 0 0) = None.
Proof.
  induction fuel as [|fuel IH]; [reflexivity|].
  cbn [passing_state]. rewrite matrix_of_zero, compute_rank_zeros.
  cbn [Z.eqb]. now rewrite draws_zero.
Qed.

(** ** Full rank *)

(** C2. A matrix returned by [generate_matrix] has its 64 x 64 entries in
    [0, 15] and rank 64 for the rank computer, on its rows as on its flat
    copy; v2 returns the same matrix, and so does any longer run of the
    loop. *)
Theorem generate_matrix_full_rank (fuel : nat) (D : list Z) (M : list (list Z)) :
  length D = 32%nat -> Forall is_byte D ->
  V3.generate_matrix fuel D = Some M ->
  is_matrix M
  /\ compute_rank M = 64
  /\ compute_rank_c (V3.copy_matrix M (repeat 0 (64 * 64)%nat)) = 64
  /\ V2.generate_matrix fuel D = Some M
  /\ forall fuel', (fuel <= fuel')%nat -> V3.generate_matrix fuel' D = Some M.
Proof.
  intros _ _. rewrite generate_matrix_v3_states, generate_matrix_v2_states.
  destruct (passing_state fuel (seed_of D)) as [s|] eqn:Es; [|discriminate].
  cbn [option_map]. intros [= <-].
  pose proof (passing_state_rank _ _ _ Es) as Hr.
  split; [apply is_matrix_matrix_of|]. split; [exact Hr|].
  split; [|split; [reflexivity|]].
  2:{ intros fuel' Hle. rewrite generate_matrix_v3_states.
      now rewrite (passing_state_more fuel fuel' _ s Hle Es). }
  destruct (copy_matrix_cells (matrix_of s) (repeat 0 (64 * 64)%nat)
              (repeat_length _ _)) as [Hl Hc].
  rewrite (flat_ext (V3.copy_matrix (matrix_of s) (repeat 0 (64 * 64)%nat)) (flat_of s)).
  - now rewrite compute_rank_c_flat_of.
  - exact Hl.
  - apply length_flat_of.
  - intros i c Hi Hc'. now rewrite Hc, rd_flat_of, rd2_matrix_of.
Qed.

(** On the digest of bytes 1 to 32 the first attempt succeeds. *)
Lemma generate_matrix_first_attempt :
  match V3.generate_matrix 1 (map Z.of_nat (seq 1 32)) with
  | Some _ => true
  | None => false
  end = true.
Proof. vm_compute. reflexivity. Qed.

Lemma generate_matrix_full_rank_witness :
  let D := map Z.of_nat (seq 1 32) in
  exists M,
    V3.generate_matrix 1 D = Some M
    /\ is_matrix M
    /\ compute_rank M = 64
    /\ compute_rank_c (V3.copy_matrix M (repeat 0 (64 * 64)%nat)) = 64
    /\ V2.generate_matrix 1 D = Some M
    /\ forall fuel', (1 <= fuel')%nat -> V3.generate_matrix fuel' D = Some M.
Proof.
  cbv zeta.
  destruct (V3.generate_matrix 1 (map Z.of_nat (seq 1 32))) as [M|] eqn:E.
  - exists M. split; [reflexivity|].
    apply (generate_matrix_full_rank 1 (map Z.of_nat (seq 1 32)) M).
    + reflexivity.
    + apply Forall_is_byte_check. reflexivity.
    + exact E.
  - exfalso. pose proof generate_matrix_first_attempt as Hs.
    rewrite E in Hs. discriminate.
Defined.

(** A first attempt that passes leaves the rank test of the seed. *)
Lemma first_attempt_rank (D : list Z) :
  V3.generate_matrix 1 D <> None -> compute_rank (matrix_of (seed_of D)) = 64.
Proof.
  rewrite generate_matrix_v3_states. cbn [passing_state].
  destruct (Z.eqb_spec (compute_rank (matrix_of (seed_of D))) 64) as [E|E];
    [intros _; exact E|].
  intros Hn. now contradiction Hn.
Qed.

(** On the seed of the bytes 1 to 32 the first attempt passes and the
    loop returns its matrix; from the all-zero state every attempt
    fails, each one starting where the one before has stopped, and the
    loop returns nothing. *)
Lemma generator_retry_witness :
  let state := seed_of (map Z.of_nat (seq 1 32)) in
  let zero := Xoshiro256PlusPlus.new 0 0 0 0 in
  let out_matrix := repeat 7 4096%nat in
  V3.generate_matrix_c_loop (0 + 1) state out_matrix = Some (flat_of (draws (256 * 0) state))
  /\ V3.generate_matrix_c_loop (3 + 1) zero out_matrix
     = V3.generate_matrix_c_loop 1 (draws (256 * 3) zero) out_matrix
  /\ V3.generate_matrix_c_loop 4 zero out_matrix = None.
Proof.
  cbv zeta.
  assert (compute_rank (matrix_of (seed_of (map Z.of_nat (seq 1 32)))) = 64) as Hpass.
  { apply first_attempt_rank. intros E.
    pose proof generate_matrix_first_attempt as Hs. rewrite E in Hs. discriminate. }
  assert (forall a : nat,
            compute_rank (matrix_of (draws (256 * a) (Xoshiro256PlusPlus.new 0 0 0 0)))
            <> 64) as Hfail.
  { intros a. rewrite draws_zero, matrix_of_zero, compute_rank_zeros. discriminate. }
  split; [|split].
  - refine (proj1 (proj1 (proj2 (proj2 (proj2 (proj2 (proj2 (proj2 (proj2
      (generator_retry (seed_of (map Z.of_nat (seq 1 32))) (repeat 7 4096%nat)
         np_zeros_64_64 0 0 _ _)))))))) _)).
    + apply repeat_length.
    + apply shape_np_zeros.
    + split; [exact Hpass|]. intros b Hb. lia.
  - refine (proj1 (proj1 (proj2 (proj2 (proj2 (proj2
      (generator_retry (Xoshiro256PlusPlus.new 0 0 0 0) (repeat 7 4096%nat)
         np_zeros_64_64 3 1 _ _))))) _)).
    + apply repeat_length.
    + apply shape_np_zeros.
    + intros a _. apply Hfail.
  - refine (proj1 (proj1 (proj2 (proj2 (proj2 (proj2 (proj2 (proj2 (proj2 (proj2
      (generator_retry (Xoshiro256PlusPlus.new 0 0 0 0) (repeat 7 4096%nat)
         np_zeros_64_64 0 4 _ _))))))))) _)).
    + apply repeat_length.
    + apply shape_np_zeros.
    + intros a _. apply Hfail.
Defined.

(** ** v1 against v2 and v3 *)

Lemma for_in_nil {S : Type} (body : nat -> S -> S) s : for_in [] body s = s.
Proof. reflexivity. Qed.

(** The words of a 32-byte digest, written back byte by byte, are the
    digest. *)
Lemma digest_words_bytes (D : list Z) :
  length D = 32%nat -> Forall is_byte D ->
  le_bytes 8 (from_bytes_little (slice D 0 8))
  ++ le_bytes 8 (from_bytes_little (slice D 8 16))
  ++ le_bytes 8 (from_bytes_little (slice D 16 24))
  ++ le_bytes 8 (from_bytes_little (slice D 24 32)) = D.
Proof.
  intros HD HB.
  assert (forall lo hi, (hi <= 32)%nat -> (hi - lo = 8)%nat ->
            le_bytes 8 (from_bytes_little (slice D lo hi)) = slice D lo hi) as Hs.
  { intros lo hi Hhi Hw.
    assert (length (slice D lo hi) = 8%nat) as Hl
      by (unfold slice; rewrite length_take, length_drop; lia).
    rewrite <- Hl at 1. apply le_bytes_from_bytes_little.
    unfold slice. now apply Forall_take, Forall_drop. }
  rewrite !Hs by lia. clear Hs HB.
  do 32 (destruct D as [|? D]; [discriminate|]).
  destruct D; [reflexivity|discriminate].
Qed.

Lemma digest_words_u64 (D : list Z) :
  length D = 32%nat -> Forall is_byte D ->
  forallb in_u64 (take 4 (digest_words D)) = true.
Proof.
  intros HD HB.
  assert (forall lo hi, (hi <= 32)%nat -> (hi - lo = 8)%nat ->
            in_u64 (from_bytes_little (slice D lo hi)) = true) as Hs.
  { intros lo hi Hhi Hw. apply in_u64_true. unfold is_u64.
    assert (length (slice D lo hi) = 8%nat) as Hl
      by (unfold slice; rewrite length_take, length_drop; lia).
    pose proof (from_bytes_little_bound (slice D lo hi)) as Hb.
    rewrite Hl in Hb. change (256 ^ Z.of_nat 8) with (2 ^ 64) in Hb.
    apply Hb. unfold slice. now apply Forall_take, Forall_drop. }
  unfold digest_words. cbn [take forallb]. now rewrite !Hs by lia.
Qed.

Section HeavyHashV1.
Context {H : CShake256}.

(** The multiply loop of v1, whose [p] keeps sixteen bits. *)
Lemma product_loop_v1 (mat : list (list Z)) (v p0 : list Z) :
  length p0 = 64%nat ->
  for_in (py_range 0 64 1)
    (fun i p =>
       let s :=
         for_in (py_range 0 64 1) (fun j s => u64 (s + rd2 0 mat i j * rd 0 v j)) 0 in
       <[i := Z.land (Z.shiftr s 10) 65535]> p) p0
  = map (fun i =>
           Z.land (Z.shiftr (u64 (Spec.big_sum (seq 0 64)
                                    (fun j => rd2 0 mat i j * rd 0 v j))) 10) 65535)
        (seq 0 64).
Proof.
  intros Hp. change (py_range 0 64 1) with (seq 0 64). cbv zeta.
  rewrite (for_in_fill (fun i => Z.land (Z.shiftr (for_in (seq 0 64)
             (fun j s => u64 (s + rd2 0 mat i j * rd 0 v j)) 0) 10) 65535)) by exact Hp.
  apply map_ext. intros i.
  now rewrite (dot_loop_int (fun j => rd2 0 mat i j * rd 0 v j)).
Qed.

Lemma land_65535_15 x : Z.land (Z.land x 65535) 15 = Z.land x 15.
Proof. now rewrite <- Z.land_assoc. Qed.

(** [heavyhash] of v1 after the matrix: the reversed transform. *)
Lemma heavyhash_with_spec (mat : list (list Z)) (D : list Z) (T N : Z) :
  length D = 32%nat -> Forall is_byte D ->
  V1.heavyhash_with mat (digest_words D) T N = rev (Spec.pow D T N mat).
Proof.
  intros HD HB. unfold V1.heavyhash_with.
  set (hdr := for_in (py_range 0 8 1) _ (for_in (py_range 0 8 1) _ _)).
  assert (hdr = Spec.header D T N) as ->.
  { unfold Spec.header. rewrite <- (digest_words_bytes D HD HB) at 1.
    rewrite <- !app_assoc. reflexivity. }
  unfold Spec.pow, Spec.pow_of_header.
  set (h1 := cSHAKE256 ProofOfWorkHash (Spec.header D T N)).
  assert (Forall is_byte h1) as Hh1 by apply cSHAKE256_bytes.
  rewrite nibbles_loop by (auto; now rewrite repeat_length).
  rewrite product_loop_v1 by now rewrite repeat_length.
  change (py_range 0 32 1) with (seq 0 32).
  set (v := Spec.nibbles h1).
  set (p := map _ (seq 0 64)).
  rewrite (for_in_fill (fun i => Z.lxor (rd 0 h1 i)
             (Z.lor (Z.shiftl (Z.land (rd 0 p (i * 2)) 15) 4)
                    (Z.land (rd 0 p (i * 2 + 1)) 15))))
    by now rewrite repeat_length.
  do 2 f_equal. unfold Spec.digest. apply map_ext_in. intros i Hi.
  apply in_seq in Hi.
  assert (forall k, (k < 64)%nat -> Z.land (rd 0 p k) 15 = rd 0 (Spec.product mat v) k)
    as Hp.
  { intros k Hk. unfold p, Spec.product.
    rewrite !(rd_map 0 0%nat) by now rewrite length_seq.
    now rewrite land_65535_15. }
  rewrite !Hp by lia. now replace (i * 2)%nat with (2 * i)%nat by lia.
Qed.

(** C3. [heavyhash] of v1 on the four little-endian words of a 32-byte
    digest returns the byte reversal of what [compute_pow] of v3, and of
    v2, returns on the digest and the matrix [generate_matrix] makes for
    it; the two pipelines agree up to that reversal, and both are still
    in the generator loop after the same number of attempts. *)
Theorem heavyhash_reverses_compute_pow (fuel : nat) (D : list Z) (T N : Z) :
  length D = 32%nat -> Forall is_byte D -> is_u64 T -> is_u64 N ->
  V1.heavyhash fuel (digest_words D) T N
  = option_map (fun M => result_map (@rev Z) (V3.compute_pow D T N M))
      (V3.generate_matrix fuel D)
  /\ V1.heavyhash fuel (digest_words D) T N
     = option_map (fun M => result_map (@rev Z) (V2.compute_pow D T N M))
         (V2.generate_matrix fuel D).
Proof.
  intros HD HB HT HN.
  assert (V1.heavyhash fuel (digest_words D) T N
          = option_map (fun M => Returned (rev (Spec.pow D T N M)))
              (option_map matrix_of (passing_state fuel (seed_of D)))) as E.
  { unfold V1.heavyhash.
    rewrite !in_u64_true, digest_words_u64 by assumption. cbn [andb].
    change (rd 0 (digest_words D) 0) with (from_bytes_little (slice D 0 8)).
    change (rd 0 (digest_words D) 1) with (from_bytes_little (slice D 8 16)).
    change (rd 0 (digest_words D) 2) with (from_bytes_little (slice D 16 24)).
    change (rd 0 (digest_words D) 3) with (from_bytes_little (slice D 24 32)).
    rewrite generate_matrix_internal_states by apply shape_np_zeros.
    fold (seed_of D).
    destruct (passing_state fuel (seed_of D)) as [s|]; [|reflexivity].
    cbn [option_map]. now rewrite heavyhash_with_spec. }
  rewrite E, generate_matrix_v3_states, generate_matrix_v2_states.
  destruct (passing_state fuel (seed_of D)) as [s|]; [|now split].
  cbn [option_map].
  rewrite compute_pow_v3_returns, compute_pow_v2_returns by assumption.
  now split.
Qed.

End HeavyHashV1.

Lemma heavyhash_reverses_compute_pow_witness :
  let D := map Z.of_nat (seq 1 32) in
  let T := 1700000000000 in
  let N := 42 in
  V1.heavyhash 1 (digest_words D) T N
  = option_map (fun M => result_map (@rev Z) (V3.compute_pow D T N M))
      (V3.generate_matrix 1 D)
  /\ V1.heavyhash 1 (digest_words D) T N
     = option_map (fun M => result_map (@rev Z) (V2.compute_pow D T N M))
         (V2.generate_matrix 1 D).
Proof.
  cbv zeta.
  apply (heavyhash_reverses_compute_pow (H := checksum_cshake) 1
           (map Z.of_nat (seq 1 32)) 1700000000000 42).
  - reflexivity.
  - apply Forall_is_byte_check. reflexivity.
  - unfold is_u64. lia.
  - unfold is_u64. lia.
Defined.

(** * Further properties of the kernel *)

(** ** The byte order of the comparators *)

Lemma bytes_lt_irrefl a : V1.bytes_lt a a = false.
Proof.
  induction a as [|x a IH]; [reflexivity|].
  cbn [V1.bytes_lt]. now rewrite Z.ltb_irrefl.
Qed.

Lemma bytes_lt_trans a : forall b c,
  V1.bytes_lt a b = true -> V1.bytes_lt b c = true -> V1.bytes_lt a c = true.
Proof.
  induction a as [|x a IH]; intros [|y b] [|z c]; cbn [V1.bytes_lt];
    try discriminate; try reflexivity.
  destruct (Z.ltb_spec x y), (Z.ltb_spec y x), (Z.ltb_spec y z), (Z.ltb_spec z y),
    (Z.ltb_spec x z), (Z.ltb_spec z x); try discriminate; try reflexivity; try lia.
  apply IH.
Qed.

Lemma bytes_lt_total a : forall b,
  V1.bytes_lt a b = true \/ a = b \/ V1.bytes_lt b a = true.
Proof.
  induction a as [|x a IH]; intros [|y b]; cbn [V1.bytes_lt]; auto.
  destruct (Z.ltb_spec x y), (Z.ltb_spec y x); auto; try lia.
  assert (x = y) as -> by lia.
  destruct (IH b) as [Hlt|[->|Hgt]]; auto.
Qed.

(** X1. [check_pow] of [kaspa_pow.pyx] is a strict total order on byte
    strings of any lengths: no string is below itself, the order is
    transitive, never holds both ways, and two different strings are
    always ordered. *)
Theorem check_pow_strict_total_order (a b c : list Z) :
  V1.check_pow a a = false
  /\ (V1.check_pow a b = true -> V1.check_pow b c = true -> V1.check_pow a c = true)
  /\ (V1.check_pow a b = true -> V1.check_pow b a = false)
  /\ (V1.check_pow a b = true \/ a = b \/ V1.check_pow b a = true).
Proof.
  unfold V1.check_pow. split; [apply bytes_lt_irrefl|]. split; [apply bytes_lt_trans|].
  split; [|apply bytes_lt_total].
  intros Hab. destruct (V1.bytes_lt b a) eqn:Hba; [|reflexivity].
  pose proof (bytes_lt_trans a b a Hab Hba) as Haa.
  now rewrite bytes_lt_irrefl in Haa.
Qed.

Lemma from_bytes_little_app a b :
  from_bytes_little (a ++ b)
  = from_bytes_little a + 256 ^ Z.of_nat (length a) * from_bytes_little b.
Proof.
  induction a as [|x a IH]; [simpl; lia|].
  cbn [app from_bytes_little length]. rewrite IH.
  rewrite Nat2Z.inj_succ, Z.pow_succ_r by lia. lia.
Qed.

Lemma from_bytes_little_take n b :
  Forall is_byte b ->
  from_bytes_little (take n b) = from_bytes_little b mod 256 ^ Z.of_nat (length (take n b))
  /\ from_bytes_little (take n b) <= from_bytes_little b.
Proof.
  intros Hb.
  pose proof (from_bytes_little_app (take n b) (drop n b)) as E.
  rewrite take_drop in E. rewrite E.
  pose proof (from_bytes_little_bound (take n b) ltac:(now apply Forall_take)) as Ht.
  pose proof (from_bytes_little_bound (drop n b) ltac:(now apply Forall_drop)) as Hd.
  assert (0 < 256 ^ Z.of_nat (length (take n b))) as Hw
    by (apply Z.pow_pos_nonneg; lia).
  set (w := 256 ^ Z.of_nat (length (take n b))) in *.
  split.
  - rewrite Z.mul_comm, Z.mod_add by lia. symmetry. now apply Z.mod_small.
  - nia.
Qed.

Lemma bytes_lt_rev_little a b :
  length a = length b -> Forall is_byte a -> Forall is_byte b ->
  V1.bytes_lt (rev a) b = true <-> from_bytes_little a < from_bytes_big b.
Proof.
  intros Hl Ha Hb.
  rewrite bytes_lt_big, from_bytes_big_rev; [reflexivity| | |assumption].
  - now rewrite length_rev.
  - now apply Forall_rev.
Qed.

(** X2. The reversal at the end of [heavyhash] makes [check_pow] of
    [kaspa_pow.pyx] compare the unreversed 32-byte hash, read as a
    little-endian integer, with the big-endian target. *)
Theorem check_pow_of_reversed_hash (pow_hash target : list Z) :
  length pow_hash = 32%nat -> length target = 32%nat ->
  Forall is_byte pow_hash -> Forall is_byte target ->
  V1.check_pow (rev pow_hash) target = true
  <-> from_bytes_little pow_hash < from_bytes_big target.
Proof.
  intros Lh Lt Bh Bt. unfold V1.check_pow.
  apply bytes_lt_rev_little; congruence.
Qed.

Lemma check_pow_of_reversed_hash_witness :
  let pow_hash := [9] ++ repeat 0 31 in
  let target := repeat 0 31 ++ [10] in
  V1.check_pow (rev pow_hash) target = true
  <-> from_bytes_little pow_hash < from_bytes_big target.
Proof.
  apply (check_pow_of_reversed_hash ([9] ++ repeat 0 31) (repeat 0 31 ++ [10]));
    [reflexivity | reflexivity | | ]; apply Forall_is_byte_check; reflexivity.
Defined.

(** X3. [check_pow] of [kaspa_pow_v2.pyx] looks at the low 64 bits of the
    hash read as a little-endian integer. For a target below 2^64 it
    accepts every hash that the full comparator of [kaspa_pow.pyx]
    accepts on the reversed hash; the converse fails. *)
Theorem check_pow_v2_prefilter (pow_hash : list Z) (target : Z) :
  length pow_hash = 32%nat -> Forall is_byte pow_hash -> is_u64 target ->
  V2.check_pow pow_hash target
    = Returned (from_bytes_little pow_hash mod 2 ^ 64 <? target)
  /\ (V1.check_pow (rev pow_hash) (to_bytes_big 32 target) = true ->
      V2.check_pow pow_hash target = Returned true)
  /\ (exists h : list Z,
        length h = 32%nat /\ Forall is_byte h
        /\ V2.check_pow h 1 = Returned true
        /\ V1.check_pow (rev h) (to_bytes_big 32 1) = false).
Proof.
  intros Lh Bh Ht.
  destruct (from_bytes_little_take 8 pow_hash Bh) as [Hmod Hle].
  assert (length (take 8 pow_hash) = 8%nat) as L8 by (rewrite length_take; lia).
  rewrite L8 in Hmod. change (256 ^ Z.of_nat 8) with (2 ^ 64) in Hmod.
  assert (V2.check_pow pow_hash target
          = Returned (from_bytes_little pow_hash mod 2 ^ 64 <? target)) as E.
  { unfold V2.check_pow, as_uint64, slice. rewrite in_u64_true by assumption.
    now rewrite <- Hmod. }
  split; [exact E|]. split.
  - intros Hfull. rewrite E. f_equal. apply Z.ltb_lt.
    assert (length pow_hash = length (to_bytes_big 32 target)) as Hl
      by (unfold to_bytes_big; now rewrite length_rev, length_le_bytes).
    assert (Forall is_byte (to_bytes_big 32 target)) as Hb
      by (unfold to_bytes_big; apply Forall_rev, le_bytes_bytes).
    apply (bytes_lt_rev_little _ _ Hl Bh Hb) in Hfull.
    rewrite from_bytes_big_to_bytes_big in Hfull
      by (unfold is_u64 in Ht; change (256 ^ Z.of_nat 32) with (2 ^ 256); lia).
    rewrite <- Hmod. lia.
  - exists (repeat 0 8 ++ [1] ++ repeat 0 23).
    split; [reflexivity|]. split; [apply Forall_is_byte_check; reflexivity|].
    split; reflexivity.
Qed.

Lemma check_pow_v2_prefilter_witness :
  let pow_hash := [5] ++ repeat 0 31 in
  let target := 6 in
  V2.check_pow pow_hash target
    = Returned (from_bytes_little pow_hash mod 2 ^ 64 <? target)
  /\ (V1.check_pow (rev pow_hash) (to_bytes_big 32 target) = true ->
      V2.check_pow pow_hash target = Returned true)
  /\ (exists h : list Z,
        length h = 32%nat /\ Forall is_byte h
        /\ V2.check_pow h 1 = Returned true
        /\ V1.check_pow (rev h) (to_bytes_big 32 1) = false).
Proof.
  apply (check_pow_v2_prefilter ([5] ++ repeat 0 31) 6).
  - reflexivity.
  - apply Forall_is_byte_check. reflexivity.
  - unfold is_u64. lia.
Defined.

(** ** The compact target decoder on every input *)

Lemma bits_to_target_coefficient bits :
  0 <= Z.land bits 16777215 < 2 ^ 24.
Proof.
  change 16777215 with (Z.ones 24). rewrite Z.land_ones by lia.
  apply Z.mod_pos_bound. lia.
Qed.

Lemma bits_to_target_exponent bits :
  0 <= Z.land (Z.shiftr bits 24) 255 < 256.
Proof. apply land_255_byte. Qed.

(** X4. [bits_to_target] rejects no integer: on every [bits], negative
    ones included, it returns a non-negative target that depends on the
    low 32 bits alone. *)
Theorem bits_to_target_low_32_bits (bits : Z) :
  0 <= bits_to_target bits
  /\ bits_to_target bits = bits_to_target (bits mod 2 ^ 32).
Proof.
  split.
  - unfold bits_to_target.
    pose proof (bits_to_target_coefficient bits) as Hc.
    destruct (Z.land (Z.shiftr bits 24) 255 <=? 3).
    + apply Z.shiftr_nonneg. lia.
    + apply Z.shiftl_nonneg. lia.
  - unfold bits_to_target.
    rewrite <- (Z.land_ones bits 32) by lia.
    assert (Z.land (Z.shiftr (Z.land bits (Z.ones 32)) 24) 255
            = Z.land (Z.shiftr bits 24) 255) as ->.
    { rewrite Z.shiftr_land.
      change (Z.shiftr (Z.ones 32) 24) with 255.
      now rewrite <- Z.land_assoc, Z.land_diag. }
    assert (Z.land (Z.land bits (Z.ones 32)) 16777215 = Z.land bits 16777215) as ->.
    { rewrite <- Z.land_assoc. reflexivity. }
    reflexivity.
Qed.

(** X5. When the exponent byte is at most 32 the decoded target fits in
    256 bits, so that [check_pow] of [kaspa_pow.pyx] against its 32-byte
    big-endian encoding is the comparison of the hash, read big-endian,
    with the decoded target. *)
Theorem bits_to_target_fits_comparator (bits : Z) (pow_hash : list Z) :
  Z.land (Z.shiftr bits 24) 255 <= 32 ->
  length pow_hash = 32%nat -> Forall is_byte pow_hash ->
  0 <= bits_to_target bits < 2 ^ 256
  /\ from_bytes_big (to_bytes_big 32 (bits_to_target bits)) = bits_to_target bits
  /\ (V1.check_pow pow_hash (to_bytes_big 32 (bits_to_target bits)) = true
      <-> from_bytes_big pow_hash < bits_to_target bits).
Proof.
  intros He Lh Bh.
  assert (0 <= bits_to_target bits < 2 ^ 256) as Hr.
  { unfold bits_to_target.
    pose proof (bits_to_target_coefficient bits) as Hc.
    pose proof (bits_to_target_exponent bits) as Hx.
    set (c := Z.land bits 16777215) in *.
    set (e := Z.land (Z.shiftr bits 24) 255) in *.
    destruct (Z.leb_spec e 3).
    - rewrite Z.shiftr_div_pow2 by lia.
      assert (0 < 2 ^ (8 * (3 - e))) by (apply Z.pow_pos_nonneg; lia).
      split; [apply Z.div_pos; lia|].
      apply Z.le_lt_trans with c; [apply Z.div_le_upper_bound; nia|lia].
    - rewrite Z.shiftl_mul_pow2 by lia.
      assert (0 < 2 ^ (8 * (e - 3))) by (apply Z.pow_pos_nonneg; lia).
      assert (2 ^ (8 * (e - 3)) <= 2 ^ 232) by (apply Z.pow_le_mono_r; lia).
      change (2 ^ 256) with (2 ^ 24 * 2 ^ 232). nia. }
  assert (from_bytes_big (to_bytes_big 32 (bits_to_target bits)) = bits_to_target bits)
    as Hrt by (apply from_bytes_big_to_bytes_big; exact Hr).
  split; [exact Hr|]. split; [exact Hrt|].
  unfold V1.check_pow. rewrite bytes_lt_big, Hrt; [reflexivity| |assumption|].
  - unfold to_bytes_big. now rewrite length_rev, length_le_bytes.
  - unfold to_bytes_big. apply Forall_rev, le_bytes_bytes.
Qed.

Lemma bits_to_target_fits_comparator_witness :
  let bits := 486604799 in
  let pow_hash := repeat 0 32%nat in
  0 <= bits_to_target bits < 2 ^ 256
  /\ from_bytes_big (to_bytes_big 32 (bits_to_target bits)) = bits_to_target bits
  /\ (V1.check_pow pow_hash (to_bytes_big 32 (bits_to_target bits)) = true
      <-> from_bytes_big pow_hash < bits_to_target bits).
Proof.
  apply (bits_to_target_fits_comparator 486604799 (repeat 0 32%nat)).
  - vm_compute. discriminate.
  - reflexivity.
  - apply Forall_is_byte_check. reflexivity.
Defined.

(** ** The generator on 64-bit words *)

Lemma land_mul_pow2_small a b k :
  0 <= k -> 0 <= b < 2 ^ k -> Z.land (a * 2 ^ k) b = 0.
Proof.
  intros Hk Hb. apply Z.bits_inj'. intros i Hi.
  rewrite Z.land_spec, Z.bits_0.
  destruct (Z.lt_ge_cases i k) as [Hlt|Hge].
  - now rewrite Z.mul_pow2_bits_low.
  - rewrite <- (Z.mod_small b (2 ^ k)) by assumption.
    rewrite Z.mod_pow2_bits_high by lia. apply andb_false_r.
Qed.

Lemma lor_mul_pow2_small a b k :
  0 <= k -> 0 <= b < 2 ^ k -> Z.lor (a * 2 ^ k) b = a * 2 ^ k + b.
Proof.
  intros Hk Hb. pose proof (land_mul_pow2_small a b k Hk Hb) as H0.
  rewrite <- Z.lxor_lor by exact H0. symmetry. now apply Z.add_nocarry_lxor.
Qed.

(** The rotation in arithmetic: the low [64 - k] bits move up by [k], the
    high [k] bits come down. *)
Lemma rotl_arith x k :
  is_u64 x -> 0 <= k <= 64 ->
  rotl x k = (x mod 2 ^ (64 - k)) * 2 ^ k + x / 2 ^ (64 - k)
  /\ 0 <= x mod 2 ^ (64 - k) < 2 ^ (64 - k)
  /\ 0 <= x / 2 ^ (64 - k) < 2 ^ k.
Proof.
  intros Hx Hk. unfold is_u64 in Hx.
  assert (0 < 2 ^ (64 - k)) as Hn by (apply Z.pow_pos_nonneg; lia).
  assert (0 < 2 ^ k) as Hkp by (apply Z.pow_pos_nonneg; lia).
  assert (2 ^ 64 = 2 ^ (64 - k) * 2 ^ k) as Hsplit
    by (rewrite <- Z.pow_add_r by lia; f_equal; lia).
  pose proof (Z.mod_pos_bound x (2 ^ (64 - k)) Hn) as Hlo.
  assert (0 <= x / 2 ^ (64 - k) < 2 ^ k) as Hhi.
  { split; [apply Z.div_pos; lia|]. apply Z.div_lt_upper_bound; lia. }
  split; [|split; assumption].
  unfold rotl, u64. rewrite Z.shiftl_mul_pow2, Z.shiftr_div_pow2 by lia.
  set (lo := x mod 2 ^ (64 - k)) in *. set (hi := x / 2 ^ (64 - k)) in *.
  assert (x = hi * 2 ^ (64 - k) + lo) as Ex
    by (unfold hi, lo; rewrite Z.mul_comm; apply Z.div_mod; lia).
  assert ((x * 2 ^ k) mod 2 ^ 64 = lo * 2 ^ k) as ->.
  { rewrite Ex at 1.
    replace ((hi * 2 ^ (64 - k) + lo) * 2 ^ k) with (lo * 2 ^ k + hi * 2 ^ 64)
      by (rewrite Hsplit; ring).
    rewrite Z.mod_add by lia. apply Z.mod_small. rewrite Hsplit. nia. }
  now apply lor_mul_pow2_small.
Qed.

Lemma rotl_round_trip x k :
  is_u64 x -> 0 <= k <= 64 ->
  is_u64 (rotl x k) /\ rotl (rotl x k) (64 - k) = x.
Proof.
  intros Hx Hk.
  destruct (rotl_arith x k Hx Hk) as (E & Hlo & Hhi).
  assert (0 < 2 ^ (64 - k)) as Hn by (apply Z.pow_pos_nonneg; lia).
  assert (0 < 2 ^ k) as Hkp by (apply Z.pow_pos_nonneg; lia).
  assert (2 ^ 64 = 2 ^ (64 - k) * 2 ^ k) as Hsplit
    by (rewrite <- Z.pow_add_r by lia; f_equal; lia).
  set (lo := x mod 2 ^ (64 - k)) in *. set (hi := x / 2 ^ (64 - k)) in *.
  assert (is_u64 (rotl x k)) as Hy by (unfold is_u64; rewrite E, Hsplit; nia).
  split; [exact Hy|].
  destruct (rotl_arith (rotl x k) (64 - k) Hy ltac:(lia)) as (E2 & _ & _).
  rewrite E2. replace (64 - (64 - k)) with k by lia. rewrite E.
  assert ((lo * 2 ^ k + hi) mod 2 ^ k = hi) as ->
    by (rewrite Z.add_comm, Z.mod_add by lia; now apply Z.mod_small).
  assert ((lo * 2 ^ k + hi) / 2 ^ k = lo) as ->
    by (rewrite Z.add_comm, Z.div_add by lia; rewrite Z.div_small by lia; lia).
  unfold hi, lo. rewrite Z.mul_comm. symmetry. apply Z.div_mod. lia.
Qed.

(** X6. [rotl] is a rotation of 64-bit words: the result is a 64-bit
    word, and rotating on by [64 - k] gives the word back, so no bit is
    lost. *)
Theorem rotl_rotates (x k : Z) :
  is_u64 x -> 0 <= k <= 64 ->
  is_u64 (rotl x k) /\ rotl (rotl x k) (64 - k) = x.
Proof. apply rotl_round_trip. Qed.

Lemma rotl_rotates_witness :
  is_u64 (rotl 9223372036854775809 23)
  /\ rotl (rotl 9223372036854775809 23) (64 - 23) = 9223372036854775809.
Proof. apply (rotl_rotates 9223372036854775809 23); unfold is_u64; lia. Defined.

Lemma is_u64_u64 x : is_u64 (u64 x).
Proof. unfold is_u64, u64. apply Z.mod_pos_bound. lia. Qed.

Lemma is_u64_lxor a b : is_u64 a -> is_u64 b -> is_u64 (Z.lxor a b).
Proof.
  intros Ha Hb. unfold is_u64 in *.
  assert (Z.lxor a b = Z.lxor a b mod 2 ^ 64) as ->.
  { rewrite <- Z.land_ones, land_lxor_distr, !Z.land_ones by lia.
    now rewrite !Z.mod_small by lia. }
  apply Z.mod_pos_bound. lia.
Qed.

Lemma is_u64_rotl x k : is_u64 x -> 0 <= k <= 64 -> is_u64 (rotl x k).
Proof. intros Hx Hk. now apply rotl_round_trip. Qed.

Lemma xoshiro_next_words s :
  is_state s -> is_u64 (fst (xoshiro_next s)) /\ is_state (snd (xoshiro_next s)).
Proof.
  destruct s as [a b c d]. intros (Ha & Hb & Hc & Hd). cbn in Ha, Hb, Hc, Hd.
  unfold xoshiro_next. cbn [fst snd]. split; [apply is_u64_u64|].
  unfold is_state. cbn [Xoshiro256PlusPlus.s0 Xoshiro256PlusPlus.s1
                        Xoshiro256PlusPlus.s2 Xoshiro256PlusPlus.s3].
  repeat split;
    repeat first [ apply is_u64_lxor | apply is_u64_rotl | apply is_u64_u64
                 | assumption | lia ].
Qed.

Lemma draws_words n : forall s, is_state s -> is_state (draws n s).
Proof.
  induction n as [|n IH]; intros s Hs; [exact Hs|].
  cbn [draws]. apply IH. now apply xoshiro_next_words.
Qed.

Lemma slice_word (D : list Z) lo hi :
  Forall is_byte D -> (hi - lo <= 8)%nat -> is_u64 (from_bytes_little (slice D lo hi)).
Proof.
  intros HD Hw. unfold is_u64.
  pose proof (from_bytes_little_bound (slice D lo hi)) as Hb.
  assert (length (slice D lo hi) <= 8)%nat as Hl
    by (unfold slice; rewrite length_take; lia).
  assert (256 ^ Z.of_nat (length (slice D lo hi)) <= 256 ^ 8)
    by (apply Z.pow_le_mono_r; lia).
  change (256 ^ 8) with (2 ^ 64) in *.
  specialize (Hb ltac:(unfold slice; now apply Forall_take, Forall_drop)). lia.
Qed.

(** X7. The generator stays on unsigned 64-bit words: the seed read from
    a byte string of any length is four such words, and from four such
    words every draw returns one and leaves four. *)
Theorem xoshiro_keeps_words (s : xstate) (n : nat) (D : list Z) :
  is_state s -> Forall is_byte D ->
  is_state (draws n s)
  /\ is_u64 (fst (xoshiro_next (draws n s)))
  /\ is_state (seed_of D).
Proof.
  intros Hs HD. split; [now apply draws_words|]. split.
  - now apply xoshiro_next_words, draws_words.
  - unfold seed_of, is_state.
    cbn [Xoshiro256PlusPlus.s0 Xoshiro256PlusPlus.s1
         Xoshiro256PlusPlus.s2 Xoshiro256PlusPlus.s3].
    repeat split; apply slice_word; auto; lia.
Qed.

Lemma xoshiro_keeps_words_witness :
  let s := Xoshiro256PlusPlus.new 1 2 3 4 in
  let D := [255; 255; 255] in
  is_state (draws 5 s)
  /\ is_u64 (fst (xoshiro_next (draws 5 s)))
  /\ is_state (seed_of D).
Proof.
  apply (xoshiro_keeps_words (Xoshiro256PlusPlus.new 1 2 3 4) 5 [255; 255; 255]).
  - unfold is_state, is_u64. cbn. lia.
  - apply Forall_is_byte_check. reflexivity.
Defined.

(** A word equal to itself shifted left by 17 within 64 bits is zero. *)
Lemma shl_17_fixed x : is_u64 x -> x = u64 (Z.shiftl x 17) -> x = 0.
Proof.
  unfold is_u64, u64. intros Hx E. rewrite Z.shiftl_mul_pow2 in E by lia.
  assert (2 ^ 64 | x * (2 ^ 17 - 1))%Z as Hdiv.
  { exists (x * 2 ^ 17 / 2 ^ 64).
    pose proof (Z.div_mod (x * 2 ^ 17) (2 ^ 64) ltac:(lia)) as Hdm. lia. }
  rewrite Z.mul_comm in Hdiv.
  apply Z.gauss in Hdiv; [|reflexivity].
  destruct Hdiv as [q Hq]. destruct (Z.eq_dec q 0) as [->|Hne]; [lia|nia].
Qed.

Lemma xoshiro_next_zero_iff s :
  is_state s -> snd (xoshiro_next s) = zero_state <-> s = zero_state.
Proof.
  intros Hs. split; [|intros ->; reflexivity].
  destruct s as [a b c d]. destruct Hs as (Ha & Hb & Hc & Hd). cbn in Ha, Hb, Hc, Hd.
  unfold xoshiro_next, zero_state. cbn [snd]. intros [= E0 E1 E2 E3].
  assert (Z.lxor d b = 0) as Hdb.
  { destruct (rotl_round_trip (Z.lxor d b) 45) as [_ Hrt];
      [now apply is_u64_lxor|lia|].
    rewrite E3 in Hrt. rewrite <- Hrt. reflexivity. }
  rewrite Hdb, Z.lxor_0_r in E0. subst a.
  rewrite Z.lxor_0_r in E1, E2.
  apply Z.lxor_eq in Hdb, E1, E2. subst d. subst c.
  assert (b = 0) as -> by (apply shl_17_fixed; assumption).
  reflexivity.
Qed.

(** X8. The all-zero state is a trap that cannot be entered: from four
    64-bit words the state after any number of draws is all-zero exactly
    when the first one was. *)
Theorem zero_state_unreachable (s : xstate) (n : nat) :
  is_state s -> draws n s = zero_state <-> s = zero_state.
Proof.
  revert s. induction n as [|n IH]; intros s Hs; [reflexivity|].
  cbn [draws]. rewrite IH by now apply xoshiro_next_words.
  now apply xoshiro_next_zero_iff.
Qed.

Lemma zero_state_unreachable_witness :
  draws 3 (Xoshiro256PlusPlus.new 0 1 0 0) = zero_state
  <-> Xoshiro256PlusPlus.new 0 1 0 0 = zero_state.
Proof.
  apply (zero_state_unreachable (Xoshiro256PlusPlus.new 0 1 0 0) 3).
  unfold is_state, is_u64. cbn. lia.
Defined.

(** ** The matrix generator on every digest *)

Lemma rd_slice (b : list Z) lo hi i :
  rd 0 (slice b lo hi) i = if Nat.ltb i (hi - lo) then rd 0 b (lo + i) else 0.
Proof.
  unfold slice, rd. destruct (Nat.ltb_spec i (hi - lo)).
  - now rewrite lookup_take_lt, lookup_drop by assumption.
  - now rewrite lookup_take_ge by assumption.
Qed.

Lemma rd_pad_32 (D : list Z) t :
  (t < 32)%nat -> rd 0 (take 32 (D ++ repeat 0 32%nat)) t = rd 0 D t.
Proof.
  intros Ht. unfold rd. rewrite lookup_take_lt by assumption.
  destruct (Nat.lt_ge_cases t (length D)) as [Hlt|Hge].
  - now rewrite lookup_app_l by assumption.
  - rewrite lookup_app_r, (lookup_ge_None_2 D) by assumption.
    destruct (repeat 0 32%nat !! (t - length D)%nat) as [x|] eqn:E; [|reflexivity].
    apply list_elem_of_lookup_2, list_elem_of_In, repeat_spec in E. now subst.
Qed.

Lemma from_bytes_little_zero b : (forall i, rd 0 b i = 0) -> from_bytes_little b = 0.
Proof.
  induction b as [|x b IH]; intros Hz; [reflexivity|].
  cbn [from_bytes_little]. rewrite IH.
  - specialize (Hz 0%nat). unfold rd in Hz. simpl in Hz. lia.
  - intros i. apply (Hz (S i)).
Qed.

(** The little-endian value of a byte string is a function of its cells,
    the cells past its end counting as zero. *)
Lemma from_bytes_little_cells a : forall b,
  (forall i, rd 0 a i = rd 0 b i) -> from_bytes_little a = from_bytes_little b.
Proof.
  induction a as [|x a IH]; intros b Hab.
  - symmetry. apply from_bytes_little_zero. intros i. now rewrite <- Hab.
  - destruct b as [|y b].
    + apply from_bytes_little_zero. intros i. now rewrite Hab.
    + cbn [from_bytes_little]. rewrite (IH b).
      * specialize (Hab 0%nat). unfold rd in Hab. simpl in Hab. now subst.
      * intros i. apply (Hab (S i)).
Qed.

Lemma seed_of_pad_32 (D : list Z) : seed_of (take 32 (D ++ repeat 0 32%nat)) = seed_of D.
Proof.
  assert (forall lo hi, (hi <= 32)%nat ->
            from_bytes_little (slice (take 32 (D ++ repeat 0 32%nat)) lo hi)
            = from_bytes_little (slice D lo hi)) as Hs.
  { intros lo hi Hhi. apply from_bytes_little_cells. intros i.
    rewrite !rd_slice. destruct (Nat.ltb_spec i (hi - lo)); [|reflexivity].
    apply rd_pad_32. lia. }
  unfold seed_of. now rewrite !Hs by lia.
Qed.

(** X9. [generate_matrix] of v2 and of v3 read the first 32 bytes of the
    digest and nothing else: a longer digest is cut to 32 bytes and a
    shorter one is extended with zero bytes, without any error. *)
Theorem generate_matrix_cuts_and_pads (fuel : nat) (D : list Z) :
  V3.generate_matrix fuel D = V3.generate_matrix fuel (take 32 (D ++ repeat 0 32%nat))
  /\ V2.generate_matrix fuel D = V2.generate_matrix fuel (take 32 (D ++ repeat 0 32%nat)).
Proof.
  rewrite !generate_matrix_v3_states, !generate_matrix_v2_states.
  now rewrite seed_of_pad_32.
Qed.

(** X10. The three generators are one function of the digest: on every
    byte string and for every bound on the attempts, v1 on the four words
    of the digest, v2 and v3 return the same matrix or are all still in
    the loop. *)
Theorem generators_agree (fuel : nat) (D : list Z) :
  Forall is_byte D ->
  V1.generate_matrix fuel
    (from_bytes_little (slice D 0 8)) (from_bytes_little (slice D 8 16))
    (from_bytes_little (slice D 16 24)) (from_bytes_little (slice D 24 32))
  = V3.generate_matrix fuel D
  /\ V2.generate_matrix fuel D = V3.generate_matrix fuel D.
Proof.
  intros _. rewrite generate_matrix_v3_states, generate_matrix_v2_states.
  split; [|reflexivity].
  unfold V1.generate_matrix.
  now rewrite generate_matrix_internal_states by apply shape_np_zeros.
Qed.

Lemma generators_agree_witness :
  let D := map Z.of_nat (seq 1 32) in
  V1.generate_matrix 2
    (from_bytes_little (slice D 0 8)) (from_bytes_little (slice D 8 16))
    (from_bytes_little (slice D 16 24)) (from_bytes_little (slice D 24 32))
  = V3.generate_matrix 2 D
  /\ V2.generate_matrix 2 D = V3.generate_matrix 2 D.
Proof.
  cbv zeta. apply (generators_agree 2 (map Z.of_nat (seq 1 32))).
  apply Forall_is_byte_check. reflexivity.
Defined.

Lemma seed_of_zeros n : seed_of (repeat 0 n) = zero_state.
Proof.
  assert (forall lo hi, from_bytes_little (slice (repeat 0 n) lo hi) = 0) as Hs.
  { intros lo hi. apply from_bytes_little_zero. intros i.
    rewrite rd_slice. destruct (Nat.ltb (i) (hi - lo)); [|reflexivity].
    unfold rd. destruct (repeat 0 n !! (lo + i)%nat) as [x|] eqn:E; [|reflexivity].
    apply list_elem_of_lookup_2, list_elem_of_In, repeat_spec in E. now subst. }
  unfold seed_of, zero_state. now rewrite !Hs.
Qed.

(** X11. On a digest made of zero bytes, of any length, the empty one
    included, no generator ever returns: every attempt fills the zero
    matrix and leaves the state all-zero, so [heavyhash] of v1 on four
    zero words does not return either. *)
Theorem zero_digest_never_returns {H : CShake256} (fuel n : nat) (T N : Z) :
  V3.generate_matrix fuel (repeat 0 n) = None
  /\ V2.generate_matrix fuel (repeat 0 n) = None
  /\ V1.generate_matrix fuel 0 0 0 0 = None
  /\ (is_u64 T -> is_u64 N ->
      V1.heavyhash fuel [0; 0; 0; 0] T N = None).
Proof.
  rewrite generate_matrix_v3_states, generate_matrix_v2_states, seed_of_zeros.
  unfold zero_state. rewrite zero_seed_never_passes.
  assert (V1.generate_matrix_internal fuel 0 0 0 0 np_zeros_64_64 = None) as E1.
  { rewrite generate_matrix_internal_states by apply shape_np_zeros.
    now rewrite zero_seed_never_passes. }
  repeat split; [exact E1|].
  intros HT HN. unfold V1.heavyhash. rewrite !in_u64_true by assumption.
  change (forallb in_u64 (take 4 [0; 0; 0; 0])) with true. cbn [andb].
  change (rd 0 [0; 0; 0; 0] 0) with 0. change (rd 0 [0; 0; 0; 0] 1) with 0.
  change (rd 0 [0; 0; 0; 0] 2) with 0. change (rd 0 [0; 0; 0; 0] 3) with 0.
  now rewrite E1.
Qed.

(** X12. [generate_matrix] returns the matrix of the first attempt that
    passes the rank test: attempt [k] fills cell [(i, c)] with nibble
    [c mod 16] of draw [256 * k + 4 * i + c / 16] from the seed, and the
    matrix returned is that of the least [k] below the bound whose matrix
    has rank 64. *)
Theorem generate_matrix_first_full_rank (fuel : nat) (D : list Z) (M : list (list Z)) :
  V3.generate_matrix fuel D = Some M
  <-> exists k, (k < fuel)%nat
        /\ M = matrix_of (draws (256 * k) (seed_of D))
        /\ compute_rank M = 64
        /\ (forall a, (a < k)%nat ->
              compute_rank (matrix_of (draws (256 * a) (seed_of D))) <> 64)
        /\ forall i c, (i < 64)%nat -> (c < 64)%nat ->
             rd2 0 M i c
             = Z.land (Z.shiftr (word (seed_of D) (256 * k + (4 * i + c / 16)))
                         (4 * Z.of_nat (c mod 16))) 15.
Proof.
  rewrite generate_matrix_v3_states. split.
  - destruct (passing_state fuel (seed_of D)) as [s'|] eqn:E; [|discriminate].
    cbn [option_map]. intros [= <-].
    apply passing_state_first in E. destruct E as (k & Hk & -> & Hr & Hfail).
    exists k. repeat split; auto.
    intros i c Hi Hc. rewrite rd2_matrix_of by assumption.
    unfold nibble_cell, word.
    now rewrite (draws_add (256 * k) (4 * i + c / 16)).
  - intros (k & Hk & -> & Hr & Hfail & _).
    assert (passing_state fuel (seed_of D) = Some (draws (256 * k) (seed_of D))) as ->;
      [|reflexivity].
    apply passing_state_first. exists k. repeat split; auto.
Qed.

(** X13. On 32-byte digests the seed loses nothing: two digests have the
    same four seed words exactly when they are the same digest. *)
Theorem seed_of_injective (D D' : list Z) :
  length D = 32%nat -> length D' = 32%nat ->
  Forall is_byte D -> Forall is_byte D' ->
  seed_of D = seed_of D' <-> D = D'.
Proof.
  intros HD HD' HB HB'. split; [|now intros ->].
  unfold seed_of. intros [= E0 E1 E2 E3].
  rewrite <- (digest_words_bytes D HD HB), <- (digest_words_bytes D' HD' HB').
  now rewrite E0, E1, E2, E3.
Qed.

Lemma seed_of_injective_witness :
  let D := map Z.of_nat (seq 1 32) in
  let D' := map Z.of_nat (seq 2 32) in
  seed_of D = seed_of D' <-> D = D'.
Proof.
  cbv zeta.
  apply (seed_of_injective (map Z.of_nat (seq 1 32)) (map Z.of_nat (seq 2 32)));
    try reflexivity; apply Forall_is_byte_check; reflexivity.
Defined.

(** ** The rank computer on degenerate matrices *)

Lemma count_true_lt (sel : list bool) : forall k,
  (k < length sel)%nat -> rd false sel k = false ->
  (length (List.filter (fun b : bool => b) sel) < length sel)%nat.
Proof.
  induction sel as [|b sel IH]; intros [|k] Hk Hb; simpl in Hk; try lia.
  - unfold rd in Hb. simpl in Hb. subst b. cbn [List.filter length].
    pose proof (List.filter_length_le (fun b : bool => b) sel). lia.
  - specialize (IH k ltac:(lia) Hb). cbn [List.filter].
    destruct b; cbn [length]; lia.
Qed.

(** A row of zeros is never selected and never rewritten. *)
Lemma zero_row_kept cell k :
  (k < 64)%nat -> (forall j, (j < 64)%nat -> cell k j = 0) ->
  forall n,
  let st := Rank.run_c n (Rank.init cell) in
  length (Rank.row_selected st) = 64%nat
  /\ rd false (Rank.row_selected st) k = false
  /\ forall c, rd2 0%float (Rank.mat_float st) k c = 0%float.
Proof.
  intros Hk Hz. induction n as [|n (IHl & IHs & IHr)]; cbv zeta.
  - unfold Rank.run_c, for_in. cbn [seq fold_left Rank.init Rank.row_selected Rank.mat_float].
    split; [apply repeat_length|]. split.
    + unfold rd. rewrite <- nth_lookup. now apply nth_repeat_lt.
    + intros c. unfold rd2.
      rewrite (rd_map [] 0%nat), rd_seq by (rewrite ?length_seq; exact Hk).
      destruct (Nat.lt_ge_cases c 64) as [Hc|Hc].
      * rewrite (rd_map 0%float 0%nat), rd_seq by (rewrite ?length_seq; exact Hc).
        cbn [Nat.add]. now rewrite Hz.
      * apply rd_ge. now rewrite length_map, length_seq.
  - rewrite RankFacts.run_c_S. cbv zeta in IHl, IHs, IHr.
    set (st := Rank.run_c n (Rank.init cell)) in *.
    destruct (RankFacts.step_c_column n st) as (Hj & _ & Hnone & Hsome).
    cbv zeta in Hj, Hnone, Hsome.
    destruct (Nat.eq_dec (Rank.find_pivot n st) Rank.size) as [E|E].
    + rewrite (Hnone E). auto.
    + destruct Hsome as (_ & Hnn & Hsel & _ & Hrows); [lia|].
      assert (Rank.find_pivot n st <> k) as Hjk.
      { intros Ejk. rewrite Ejk, IHr in Hnn. discriminate. }
      rewrite Hsel. split; [now rewrite length_insert|]. split.
      * now rewrite rd_insert_ne by exact Hjk.
      * intros c. unfold rd2. rewrite Hrows.
        destruct (decide (k = Rank.find_pivot n st)) as [Ekj|_]; [congruence|].
        rewrite IHr. rewrite andb_false_r. apply IHr.
Qed.

Lemma zero_row_rank cell k :
  (k < 64)%nat -> (forall j, (j < 64)%nat -> cell k j = 0) ->
  Rank.rank (Rank.run_c Rank.size (Rank.init cell)) < 64.
Proof.
  intros Hk Hz.
  destruct (RankFacts.gaussian_rank_run_c cell) as (_ & _ & _ & Hcount & _).
  cbv zeta in Hcount. rewrite Hcount.
  destruct (zero_row_kept cell k Hk Hz 64) as (Hl & Hs & _). cbv zeta in Hl, Hs.
  unfold Rank.selected_count.
  assert (k < length (Rank.row_selected (Rank.run_c 64 (Rank.init cell))))%nat as Hkl
    by (rewrite Hl; exact Hk).
  pose proof (count_true_lt _ k Hkl Hs) as Hlt. rewrite Hl in Hlt.
  change Rank.size with 64%nat. lia.
Qed.

Lemma zero_row_compute_rank (M : list (list Z)) (k : nat) :
  (k < 64)%nat -> (forall j, (j < 64)%nat -> rd2 0 M k j = 0) -> compute_rank M < 64.
Proof.
  intros Hk Hz. unfold compute_rank. rewrite RankFacts.run_run_c.
  now apply (zero_row_rank _ k).
Qed.

(** X14. A matrix with a row of zeros has rank below 64 for both rank
    computers, so the generator never accepts it. *)
Theorem zero_row_rank_deficient (M : list (list Z)) (k : nat) :
  (k < 64)%nat -> (forall j, (j < 64)%nat -> rd2 0 M k j = 0) ->
  compute_rank M < 64
  /\ compute_rank_c (V3.copy_matrix M (repeat 0 (64 * 64)%nat)) < 64.
Proof.
  intros Hk Hz. split; [now apply (zero_row_compute_rank M k)|].
  unfold compute_rank_c. apply (zero_row_rank _ k Hk).
  intros j Hj.
  destruct (copy_matrix_cells M (repeat 0 (64 * 64)%nat) (repeat_length _ _)) as [_ Hc].
  rewrite Hc by assumption. now apply Hz.
Qed.

Lemma zero_row_rank_deficient_witness :
  let M := <[5%nat := repeat 0 64%nat]> (matrix_of (Xoshiro256PlusPlus.new 1 2 3 4)) in
  compute_rank M < 64
  /\ compute_rank_c (V3.copy_matrix M (repeat 0 (64 * 64)%nat)) < 64.
Proof.
  cbv zeta.
  apply (zero_row_rank_deficient
           (<[5%nat := repeat 0 64%nat]> (matrix_of (Xoshiro256PlusPlus.new 1 2 3 4))) 5).
  - lia.
  - intros j Hj. unfold rd2.
    rewrite rd_insert_eq by (destruct (shape_matrix_of (Xoshiro256PlusPlus.new 1 2 3 4)); lia).
    unfold rd. rewrite <- nth_lookup. now apply nth_repeat_lt.
Defined.

Lemma nonzero_cell_or_none (f : nat -> Z) (n : nat) :
  (exists j, (j < n)%nat /\ f j <> 0) \/ (forall j, (j < n)%nat -> f j = 0).
Proof.
  induction n as [|n [(j & Hj & Hne)|Hz]].
  - right. intros j Hj. lia.
  - left. exists j. split; [lia|exact Hne].
  - destruct (Z.eq_dec (f n) 0) as [E|Hne].
    + right. intros j Hj. destruct (Nat.eq_dec j n) as [->|Hjn]; [exact E|].
      apply Hz. lia.
    + left. exists n. split; [lia|exact Hne].
Qed.

(** X23. No matrix the generator returns has a row of zeros: in every
    row of a returned matrix some cell is not zero. *)
Theorem generate_matrix_no_zero_row (fuel : nat) (D : list Z) (M : list (list Z))
    (k : nat) :
  V3.generate_matrix fuel D = Some M -> (k < 64)%nat ->
  exists j, (j < 64)%nat /\ rd2 0 M k j <> 0.
Proof.
  intros E Hk. rewrite generate_matrix_v3_states in E.
  destruct (passing_state fuel (seed_of D)) as [s|] eqn:Es; [|discriminate].
  injection E as <-. apply passing_state_rank in Es.
  destruct (nonzero_cell_or_none (fun j => rd2 0 (matrix_of s) k j) 64) as [Hex|Hz];
    [exact Hex|exfalso].
  pose proof (zero_row_compute_rank (matrix_of s) k Hk Hz) as Hlt. lia.
Qed.

Lemma generate_matrix_no_zero_row_witness :
  exists M, V3.generate_matrix 1 (map Z.of_nat (seq 1 32)) = Some M
            /\ exists j, (j < 64)%nat /\ rd2 0 M 63 j <> 0.
Proof.
  destruct (V3.generate_matrix 1 (map Z.of_nat (seq 1 32))) as [M|] eqn:E.
  - exists M. split; [reflexivity|].
    apply (generate_matrix_no_zero_row 1 (map Z.of_nat (seq 1 32)) M 63 E). lia.
  - exfalso. pose proof generate_matrix_first_attempt as Hs.
    rewrite E in Hs. discriminate.
Defined.

(** X15. The rank computer of v3, on the flat array, and that of v1 and
    v2, on the two-dimensional one, return the same rank whenever the 64
    x 64 cells are the same: caching the pivot and the multiplier in
    [temp] changes nothing, and nothing outside those cells is read. *)
Theorem rank_computers_agree (matrix_c : list Z) (matrix : list (list Z)) :
  (forall i j, (i < 64)%nat -> (j < 64)%nat ->
     rd 0 matrix_c (i * 64 + j) = rd2 0 matrix i j) ->
  compute_rank_c matrix_c = compute_rank matrix.
Proof.
  intros Hc. unfold compute_rank_c, compute_rank. rewrite RankFacts.run_run_c.
  now rewrite (init_ext (fun i j => rd 0 matrix_c (i * 64 + j))
                        (fun i j => rd2 0 matrix i j) Hc).
Qed.

Lemma rank_computers_agree_witness :
  let s := Xoshiro256PlusPlus.new 1 2 3 4 in
  compute_rank_c (flat_of s) = compute_rank (matrix_of s).
Proof.
  cbv zeta.
  apply (rank_computers_agree (flat_of (Xoshiro256PlusPlus.new 1 2 3 4))
           (matrix_of (Xoshiro256PlusPlus.new 1 2 3 4))).
  intros i j Hi Hj. now rewrite rd_flat_of, rd2_matrix_of.
Defined.

(** ** Errors of the entry points *)

Lemma in_u64_iff x : in_u64 x = true <-> is_u64 x.
Proof. unfold in_u64, is_u64. lia. Qed.

Lemma forallb_in_u64 l : forallb in_u64 l = true <-> Forall is_u64 l.
Proof.
  rewrite forallb_forall, Forall_forall. split; intros Hl x Hx.
  - apply in_u64_iff, Hl. now apply list_elem_of_In.
  - apply in_u64_iff, Hl. now apply list_elem_of_In.
Qed.

Section Errors.
Context {H : CShake256}.

(** X16. On a 64 x 64 matrix of 16-bit cells, [compute_pow] of v2 and of
    v3 are the same function on all digests, timestamps and nonces, also
    those they reject: they raise [OverflowError] exactly when the
    timestamp or the nonce is outside the unsigned 64-bit range, and
    return 32 bytes otherwise. *)
Theorem compute_pow_overflow (D : list Z) (T N : Z) (M : list (list Z)) :
  shape_64_64 M ->
  (forall i j, (i < 64)%nat -> (j < 64)%nat -> 0 <= rd2 0 M i j < 2 ^ 16) ->
  V2.compute_pow D T N M = V3.compute_pow D T N M
  /\ (V3.compute_pow D T N M = Raised OverflowError <-> ~ (is_u64 T /\ is_u64 N))
  /\ (is_u64 T /\ is_u64 N <->
      exists h, V3.compute_pow D T N M = Returned h
                /\ length h = 32%nat /\ Forall is_byte h).
Proof.
  intros _ _.
  destruct (in_u64 T) eqn:ET; [destruct (in_u64 N) eqn:EN|].
  - apply in_u64_iff in ET, EN.
    rewrite compute_pow_v2_returns, compute_pow_v3_returns by assumption.
    split; [reflexivity|]. split.
    + split; [discriminate|]. intros Hn. now destruct Hn.
    + split; [|now intros _]. intros _. exists (Spec.pow D T N M).
      split; [reflexivity|]. unfold Spec.pow, Spec.pow_of_header.
      split; [apply cSHAKE256_length | apply cSHAKE256_bytes].
  - assert (~ is_u64 N) as HN by (rewrite <- in_u64_iff, EN; discriminate).
    unfold V2.compute_pow, V3.compute_pow, as_uint64. rewrite ET, EN.
    split; [reflexivity|]. split.
    + split; [|reflexivity]. intros _ [_ HN']. contradiction.
    + split; [intros [_ HN']; contradiction|]. intros (h & Eh & _). discriminate.
  - assert (~ is_u64 T) as HT by (rewrite <- in_u64_iff, ET; discriminate).
    unfold V2.compute_pow, V3.compute_pow, as_uint64. rewrite ET.
    split; [reflexivity|]. split.
    + split; [|reflexivity]. intros _ [HT' _]. contradiction.
    + split; [intros [HT' _]; contradiction|]. intros (h & Eh & _). discriminate.
Qed.

(** The loop of [compute_pow_batch] on any nonces, from any state of its
    buffers: the first nonce out of range ends it with the error. *)
Lemma batch_loop_any (D : list Z) (T : Z) (M : list (list Z)) (buf : list Z) :
  length buf = 4096%nat ->
  forall nonces pow_hash_c digest_c results,
  length pow_hash_c = 32%nat -> length digest_c = 32%nat ->
  result_map (fun '(_, _, results) => results)
    (V3.for_each nonces
       (fun nonce '(pow_hash_c, digest_c, results) =>
          as_uint64 nonce (fun nonce =>
            let data :=
              D ++ pack_le64 T ++ repeat 0 32%nat ++ pack_le64 nonce in
            let pow_hash := cSHAKE256 ProofOfWorkHash data in
            let pow_hash_c :=
              for_in (py_range 0 32 1)
                (fun i pow_hash_c => <[i := rd 0 pow_hash i]> pow_hash_c)
                pow_hash_c in
            let digest_c := V3.heavy_hash_core (V3.copy_matrix M buf) pow_hash_c digest_c in
            let digest := map (fun i => rd 0 digest_c i) (py_range 0 32 1) in
            Returned (pow_hash_c, digest_c,
                      results ++ [(nonce, cSHAKE256 HeavyHash digest)])))
       (pow_hash_c, digest_c, results))
  = if forallb in_u64 nonces
    then Returned (results ++ map (fun n => (n, Spec.pow D T n M)) nonces)
    else Raised OverflowError.
Proof.
  intros Hbuf. induction nonces as [|n nonces IH]; intros pc dc res Hpc Hdc.
  - simpl. now rewrite app_nil_r.
  - cbn [V3.for_each forallb]. unfold as_uint64 at 1.
    destruct (in_u64 n) eqn:En; [|reflexivity].
    cbv zeta. cbn [andb].
    destruct (core_on_buffers M
                (D ++ pack_le64 T ++ repeat 0 32%nat ++ pack_le64 n)
                buf pc dc Hbuf Hpc Hdc) as (E1 & E2 & E3).
    rewrite E3. rewrite IH.
    + destruct (forallb in_u64 nonces); [|reflexivity].
      rewrite <- app_assoc. reflexivity.
    + rewrite E1. apply cSHAKE256_length.
    + rewrite E2. apply length_digest.
Qed.

Lemma compute_pow_batch_closed (D : list Z) (T : Z) (nonces : list Z) (M : list (list Z)) :
  V3.compute_pow_batch D T nonces M
  = if in_u64 T && forallb in_u64 nonces
    then Returned (map (fun n => (n, Spec.pow D T n M)) nonces)
    else Raised OverflowError.
Proof.
  unfold V3.compute_pow_batch, as_uint64.
  destruct (in_u64 T); [|reflexivity]. cbn [andb].
  exact (batch_loop_any D T M (repeat 0 (64 * 64)%nat) (repeat_length _ _) nonces
           (repeat 0 32%nat) (repeat 0 32%nat) []
           (repeat_length _ _) (repeat_length _ _)).
Qed.

(** X17. [compute_pow_batch] raises [OverflowError] exactly when the
    timestamp or one of the nonces is outside the unsigned 64-bit range:
    one such nonce, wherever it stands in the list, costs the results of
    all the others. Otherwise it returns one pair per nonce, in order. *)
Theorem compute_pow_batch_overflow (D : list Z) (T : Z) (nonces : list Z)
    (M : list (list Z)) :
  (V3.compute_pow_batch D T nonces M = Raised OverflowError
   <-> ~ (is_u64 T /\ Forall is_u64 nonces))
  /\ (is_u64 T /\ Forall is_u64 nonces <->
      exists r, V3.compute_pow_batch D T nonces M = Returned r
                /\ map fst r = nonces).
Proof.
  rewrite compute_pow_batch_closed.
  destruct (in_u64 T && forallb in_u64 nonces) eqn:E.
  - apply andb_true_iff in E as [ET EN].
    apply in_u64_iff in ET. apply forallb_in_u64 in EN. split.
    + split; [discriminate|]. intros Hn. now destruct Hn.
    + split; [|now intros _]. intros _. eexists. split; [reflexivity|].
      rewrite map_map. cbn [fst]. apply map_id.
  - assert (~ (is_u64 T /\ Forall is_u64 nonces)) as Hn.
    { intros [HT HN]. apply in_u64_iff in HT. apply forallb_in_u64 in HN.
      rewrite HT, HN in E. discriminate. }
    split.
    + split; [now intros _ | reflexivity].
    + split; [intros HTN; contradiction|]. intros (r & Er & _). discriminate.
Qed.

(** X18. A batch can be cut anywhere: the batch of [nonces1 ++ nonces2] is
    the batch of [nonces1] followed by that of [nonces2], and raises when
    one of the two does. The buffers reused from one nonce to the next
    carry nothing over. *)
Theorem compute_pow_batch_app (D : list Z) (T : Z) (nonces1 nonces2 : list Z)
    (M : list (list Z)) :
  V3.compute_pow_batch D T (nonces1 ++ nonces2) M
  = match V3.compute_pow_batch D T nonces1 M with
    | Returned r1 => result_map (app r1) (V3.compute_pow_batch D T nonces2 M)
    | Raised e => Raised e
    end.
Proof.
  rewrite !compute_pow_batch_closed, forallb_app, map_app.
  destruct (in_u64 T); [|reflexivity]. cbn [andb].
  destruct (forallb in_u64 nonces1); [|reflexivity]. cbn [andb].
  destruct (forallb in_u64 nonces2); reflexivity.
Qed.

(** X19. [heavyhash] converts its arguments before it generates the
    matrix: on a list of at least four words it raises [OverflowError]
    exactly when the timestamp, the nonce or one of the first four words
    is outside the unsigned 64-bit range, and then does so without
    entering the generator loop, whatever the words are. *)
Theorem heavyhash_overflow_first (fuel : nat) (hash_values : list Z)
    (timestamp nonce : Z) :
  (4 <= length hash_values)%nat ->
  (V1.heavyhash fuel hash_values timestamp nonce = Some (Raised OverflowError)
   <-> ~ (is_u64 timestamp /\ is_u64 nonce /\ Forall is_u64 (take 4 hash_values)))
  /\ (V1.heavyhash fuel hash_values timestamp nonce = Some (Raised OverflowError)
      -> V1.heavyhash 0 hash_values timestamp nonce = Some (Raised OverflowError)).
Proof.
  intros _. unfold V1.heavyhash.
  destruct (in_u64 timestamp && in_u64 nonce && forallb in_u64 (take 4 hash_values)) eqn:E.
  - apply andb_true_iff in E as [E E3]. apply andb_true_iff in E as [E1 E2].
    apply in_u64_iff in E1, E2. apply forallb_in_u64 in E3.
    assert (forall s0 s1 s2 s3 m,
              match V1.generate_matrix_internal fuel s0 s1 s2 s3 m with
              | None => None
              | Some mat =>
                  Some (Returned (V1.heavyhash_with mat hash_values timestamp nonce))
              end <> Some (Raised OverflowError)) as Hne.
    { intros s0 s1 s2 s3 m.
      destruct (V1.generate_matrix_internal fuel s0 s1 s2 s3 m); discriminate. }
    split.
    + split; [intros E; now apply Hne in E|]. intros Hn. now destruct Hn.
    + intros E. now apply Hne in E.
  - split; [|reflexivity].
    split; [|reflexivity]. intros _ (H1 & H2 & H3).
    apply in_u64_iff in H1, H2. apply forallb_in_u64 in H3.
    rewrite H1, H2, H3 in E. discriminate.
Qed.

End Errors.

Lemma compute_pow_overflow_witness :
  let D := [1; 2; 3] in
  let T := 1700000000000 in
  let N := 2 ^ 64 in
  let M := np_zeros_64_64 in
  V2.compute_pow D T N M = V3.compute_pow D T N M
  /\ (V3.compute_pow D T N M = Raised OverflowError <-> ~ (is_u64 T /\ is_u64 N))
  /\ (is_u64 T /\ is_u64 N <->
      exists h, V3.compute_pow D T N M = Returned h
                /\ length h = 32%nat /\ Forall is_byte h).
Proof.
  cbv zeta.
  apply (compute_pow_overflow (H := checksum_cshake) [1; 2; 3] 1700000000000 (2 ^ 64)
           np_zeros_64_64).
  - apply shape_np_zeros.
  - intros i j Hi Hj. unfold rd2, rd, np_zeros_64_64.
    rewrite <- !nth_lookup, !nth_repeat_lt by assumption. lia.
Defined.

Lemma heavyhash_overflow_first_witness :
  (V1.heavyhash 3 [0; 0; 0; 0] (-1) 5 = Some (Raised OverflowError)
   <-> ~ (is_u64 (-1) /\ is_u64 5 /\ Forall is_u64 (take 4 [0; 0; 0; 0])))
  /\ (V1.heavyhash 3 [0; 0; 0; 0] (-1) 5 = Some (Raised OverflowError)
      -> V1.heavyhash 0 [0; 0; 0; 0] (-1) 5 = Some (Raised OverflowError)).
Proof.
  apply (heavyhash_overflow_first (H := checksum_cshake) 3 [0; 0; 0; 0] (-1) 5).
  simpl. lia.
Defined.

(** ** The product never wraps *)

Lemma big_sum_bound (l : list nat) (f : nat -> Z) (B : Z) :
  (forall j, In j l -> 0 <= f j <= B) ->
  0 <= Spec.big_sum l f <= B * Z.of_nat (length l).
Proof.
  induction l as [|x l IH]; intros Hf.
  - cbn. lia.
  - cbn [Spec.big_sum fold_right length].
    pose proof (Hf x (or_introl eq_refl)).
    specialize (IH (fun j Hj => Hf j (or_intror Hj))).
    unfold Spec.big_sum in IH. lia.
Qed.

(** The cells of the vector of nibbles, in arithmetic. *)
Lemma rd_nibbles (h : list Z) (k : nat) :
  Forall is_byte h -> (k < 64)%nat ->
  rd 0 (Spec.nibbles h) k
  = if Nat.even k then rd 0 h (k / 2) / 16 else rd 0 h (k / 2) mod 16.
Proof.
  intros Hh Hk. unfold Spec.nibbles.
  assert (k / 2 < 32)%nat as Ht by (apply Nat.Div0.div_lt_upper_bound; lia).
  destruct (rd_pairs 0 (fun i => Z.shiftr (rd 0 h i) 4)
              (fun i => Z.land (rd 0 h i) 15) 32 (k / 2) Ht) as [E0 E1].
  pose proof (Nat.div_mod_eq k 2) as Ek.
  destruct (Nat.even k) eqn:Ev.
  - apply Nat.even_spec in Ev. destruct Ev as [t ->].
    replace (2 * t / 2)%nat with t in * by (symmetry; rewrite Nat.mul_comm; apply Nat.div_mul; lia).
    rewrite E0. now rewrite Z.shiftr_div_pow2 by lia.
  - assert (Nat.odd k = true) as Ho by (rewrite <- Nat.negb_even, Ev; reflexivity).
    apply Nat.odd_spec in Ho. destruct Ho as [t ->].
    replace ((2 * t + 1) / 2)%nat with t in *
      by (symmetry; rewrite Nat.mul_comm, Nat.div_add_l by lia; cbn; lia).
    rewrite E1. change 15 with (Z.ones 4). now rewrite Z.land_ones by lia.
Qed.

(** X20. On a matrix of nibbles and a 32-byte hash the matrix-vector
    product of [heavy_hash_core] is exact: no 64-bit sum wraps and the
    mask cuts nothing, so every [p] is the integer sum of the row divided
    by 1024, at most 14, and byte [i] of the digest is the byte of the
    hash xor [16 * p (2 i) + p (2 i + 1)]. *)
Theorem heavy_hash_core_exact (matrix pow_hash digest : list Z) (i : nat) :
  Forall is_byte pow_hash -> length pow_hash = 32%nat -> length digest = 32%nat ->
  (forall r c, (r < 64)%nat -> (c < 64)%nat -> is_nibble (rd 0 matrix (r * 64 + c))) ->
  (i < 32)%nat ->
  let v (k : nat) :=
    if Nat.even k then rd 0 pow_hash (k / 2) / 16 else rd 0 pow_hash (k / 2) mod 16 in
  let p (r : nat) :=
    Spec.big_sum (seq 0 64) (fun j => rd 0 matrix (r * 64 + j) * v j) / 1024 in
  0 <= p (2 * i)%nat <= 14
  /\ 0 <= p (2 * i + 1)%nat <= 14
  /\ rd 0 (V3.heavy_hash_core matrix pow_hash digest) i
     = Z.lxor (rd 0 pow_hash i) (16 * p (2 * i)%nat + p (2 * i + 1)%nat).
Proof.
  intros Hh _ Hd Hm Hi v p.
  set (M := map (fun r => map (fun c => rd 0 matrix (r * 64 + c)) (seq 0 64)) (seq 0 64)).
  assert (forall r c, (r < 64)%nat -> (c < 64)%nat ->
            rd 0 matrix (r * 64 + c) = rd2 0 M r c) as HM.
  { intros r c Hr Hc. unfold rd2, M.
    rewrite (rd_map [] 0%nat), rd_seq by (rewrite ?length_seq; exact Hr).
    rewrite (rd_map 0 0%nat), rd_seq by (rewrite ?length_seq; exact Hc).
    reflexivity. }
  assert (forall k, (k < 64)%nat -> 0 <= v k < 16) as Hv.
  { intros k Hk. unfold v. pose proof (is_byte_rd pow_hash (k / 2) Hh) as Hb.
    unfold is_byte in Hb. destruct (Nat.even k).
    - split; [apply Z.div_pos; lia | apply Z.div_lt_upper_bound; lia].
    - apply Z.mod_pos_bound. lia. }
  assert (forall r, (r < 64)%nat ->
            0 <= Spec.big_sum (seq 0 64) (fun j => rd 0 matrix (r * 64 + j) * v j)
              <= 14400) as Hsum.
  { intros r Hr.
    pose proof (big_sum_bound (seq 0 64)
                  (fun j => rd 0 matrix (r * 64 + j) * v j) 225) as Hb.
    rewrite length_seq in Hb. change (225 * Z.of_nat 64) with 14400 in Hb.
    apply Hb. intros j Hj. apply in_seq in Hj.
    pose proof (Hm r j Hr ltac:(lia)) as Hn. unfold is_nibble in Hn.
    pose proof (Hv j ltac:(lia)). nia. }
  assert (forall r, (r < 64)%nat -> 0 <= p r <= 14) as Hp.
  { intros r Hr. unfold p. pose proof (Hsum r Hr).
    split; [apply Z.div_pos; lia | ].
    apply Z.lt_succ_r. apply Z.div_lt_upper_bound; lia. }
  assert (forall r, (r < 64)%nat -> rd 0 (Spec.product M (Spec.nibbles pow_hash)) r = p r)
    as Hprod.
  { intros r Hr. unfold Spec.product.
    rewrite (rd_map 0 0%nat), rd_seq by (rewrite ?length_seq; exact Hr).
    cbn [Nat.add].
    rewrite (big_sum_ext (seq 0 64) _ (fun j => rd 0 matrix (r * 64 + j) * v j)).
    - pose proof (Hsum r Hr) as Hs. pose proof (Hp r Hr) as Hpr. unfold p in Hpr |- *.
      unfold u64. rewrite Z.mod_small by lia.
      rewrite Z.shiftr_div_pow2 by lia. change (2 ^ 10) with 1024.
      apply land_15_id. unfold is_nibble. lia.
    - intros j Hj. apply in_seq in Hj.
      rewrite <- HM by lia. rewrite rd_nibbles by (assumption || lia). reflexivity. }
  split; [apply Hp; lia|]. split; [apply Hp; lia|].
  rewrite (heavy_hash_core_spec matrix pow_hash digest M Hh Hd HM).
  unfold Spec.digest. rewrite (rd_map 0 0%nat), rd_seq by (rewrite ?length_seq; exact Hi).
  cbn [Nat.add]. rewrite !Hprod by lia.
  pose proof (Hp (2 * i)%nat ltac:(lia)) as H0.
  pose proof (Hp (2 * i + 1)%nat ltac:(lia)) as H1.
  apply (f_equal (Z.lxor (rd 0 pow_hash i))).
  rewrite Z.shiftl_mul_pow2 by lia.
  rewrite (lor_mul_pow2_small (p (2 * i)%nat) (p (2 * i + 1)%nat) 4) by lia.
  change (2 ^ 4) with 16. now rewrite (Z.mul_comm (p (2 * i)%nat) 16).
Qed.

Lemma heavy_hash_core_exact_witness :
  let matrix := flat_of (Xoshiro256PlusPlus.new 1 2 3 4) in
  let pow_hash := map Z.of_nat (seq 100 32) in
  let v (k : nat) :=
    if Nat.even k then rd 0 pow_hash (k / 2) / 16 else rd 0 pow_hash (k / 2) mod 16 in
  let p (r : nat) :=
    Spec.big_sum (seq 0 64) (fun j => rd 0 matrix (r * 64 + j) * v j) / 1024 in
  0 <= p (2 * 7)%nat <= 14
  /\ 0 <= p (2 * 7 + 1)%nat <= 14
  /\ rd 0 (V3.heavy_hash_core matrix pow_hash (repeat 0 32%nat)) 7
     = Z.lxor (rd 0 pow_hash 7) (16 * p (2 * 7)%nat + p (2 * 7 + 1)%nat).
Proof.
  apply (heavy_hash_core_exact (flat_of (Xoshiro256PlusPlus.new 1 2 3 4))
           (map Z.of_nat (seq 100 32)) (repeat 0 32%nat) 7).
  - apply Forall_is_byte_check. vm_compute. reflexivity.
  - reflexivity.
  - reflexivity.
  - intros r c Hr Hc. rewrite rd_flat_of by assumption. apply land_15_nibble.
  - lia.
Defined.

(** ** The generator loses no state *)

Lemma lxor_inj_l a x y : Z.lxor a x = Z.lxor a y -> x = y.
Proof.
  intros E. apply (f_equal (Z.lxor a)) in E.
  now rewrite <- !Z.lxor_assoc, Z.lxor_nilpotent, !Z.lxor_0_l in E.
Qed.

Lemma lxor_inj_r a x y : Z.lxor x a = Z.lxor y a -> x = y.
Proof. rewrite !(Z.lxor_comm _ a). apply lxor_inj_l. Qed.

Lemma lxor_middle b y t : Z.lxor (Z.lxor b y) (Z.lxor y t) = Z.lxor b t.
Proof.
  apply Z.bits_inj'. intros n _. rewrite !Z.lxor_spec.
  now destruct (Z.testbit b n), (Z.testbit y n), (Z.testbit t n).
Qed.

Lemma shl_17_lxor b b' :
  Z.lxor (u64 (Z.shiftl b 17)) (u64 (Z.shiftl b' 17)) = u64 (Z.shiftl (Z.lxor b b') 17).
Proof.
  unfold u64. rewrite <- !Z.land_ones by lia.
  now rewrite <- land_lxor_distr, Z.shiftl_lxor.
Qed.

Lemma xoshiro_next_inj s s' :
  is_state s -> is_state s' ->
  snd (xoshiro_next s) = snd (xoshiro_next s') -> s = s'.
Proof.
  destruct s as [a b c d], s' as [a' b' c' d'].
  intros (Ha & Hb & Hc & Hd) (Ha' & Hb' & Hc' & Hd').
  cbn in Ha, Hb, Hc, Hd, Ha', Hb', Hc', Hd'.
  unfold xoshiro_next. cbn [snd]. intros [= E0 E1 E2 E3].
  assert (Z.lxor d b = Z.lxor d' b') as Hdb.
  { destruct (rotl_round_trip (Z.lxor d b) 45) as [_ <-];
      [now apply is_u64_lxor|lia|].
    destruct (rotl_round_trip (Z.lxor d' b') 45) as [_ <-];
      [now apply is_u64_lxor|lia|].
    now rewrite E3. }
  rewrite Hdb in E0. apply lxor_inj_r in E0. subst a'.
  assert (Z.lxor b (u64 (Z.shiftl b 17)) = Z.lxor b' (u64 (Z.shiftl b' 17))) as Hb17.
  { rewrite <- (lxor_middle b (Z.lxor c a)), <- (lxor_middle b' (Z.lxor c' a)).
    now rewrite E1, E2. }
  assert (Z.lxor b b' = 0) as Hbb.
  { apply shl_17_fixed; [now apply is_u64_lxor|].
    rewrite <- shl_17_lxor. apply Z.lxor_eq.
    transitivity (Z.lxor (Z.lxor b (u64 (Z.shiftl b 17)))
                         (Z.lxor b' (u64 (Z.shiftl b' 17)))).
    - apply Z.bits_inj'. intros n _. rewrite !Z.lxor_spec.
      now destruct (Z.testbit b n), (Z.testbit b' n),
        (Z.testbit (u64 (Z.shiftl b 17)) n), (Z.testbit (u64 (Z.shiftl b' 17)) n).
    - rewrite Hb17. apply Z.lxor_nilpotent. }
  apply Z.lxor_eq in Hbb. subst b'.
  apply lxor_inj_r in Hdb. subst d'.
  apply lxor_inj_l in E1. apply lxor_inj_r in E1. now subst c'.
Qed.

(** X21. The state update of the generator is injective on 64-bit words:
    two states are the same after any number of draws exactly when they
    were the same before, so two different seeds never fall into the
    same sequence of attempts. *)
Theorem draws_injective (n : nat) (s s' : xstate) :
  is_state s -> is_state s' -> draws n s = draws n s' <-> s = s'.
Proof.
  intros Hs Hs'. split; [|now intros ->].
  revert s s' Hs Hs'. induction n as [|n IH]; intros a b Ha Hb E; [exact E|].
  cbn [draws] in E. apply IH in E; try now apply xoshiro_next_words.
  now apply xoshiro_next_inj.
Qed.

Lemma draws_injective_witness :
  draws 2 (Xoshiro256PlusPlus.new 1 2 3 4) = draws 2 (Xoshiro256PlusPlus.new 1 2 3 5)
  <-> Xoshiro256PlusPlus.new 1 2 3 4 = Xoshiro256PlusPlus.new 1 2 3 5.
Proof.
  apply (draws_injective 2 (Xoshiro256PlusPlus.new 1 2 3 4)
           (Xoshiro256PlusPlus.new 1 2 3 5));
    unfold is_state, is_u64; cbn; lia.
Defined.

(** ** The hashed header *)

Lemma pack_le64_inj x y : is_u64 x -> is_u64 y -> pack_le64 x = pack_le64 y -> x = y.
Proof.
  unfold is_u64, pack_le64. intros Hx Hy E.
  apply (f_equal from_bytes_little) in E.
  rewrite !from_bytes_little_le_bytes in E.
  change (256 ^ Z.of_nat 8) with (2 ^ 64) in E.
  now rewrite !Z.mod_small in E by assumption.
Qed.

(** X22. The byte string [compute_pow] hashes first determines its three
    inputs: for digests of any length and 64-bit timestamps and nonces,
    two calls hash the same header exactly when they have the same
    digest, timestamp and nonce. *)
Theorem header_injective (D D' : list Z) (T T' N N' : Z) :
  is_u64 T -> is_u64 T' -> is_u64 N -> is_u64 N' ->
  D ++ pack_le64 T ++ repeat 0 32%nat ++ pack_le64 N
    = D' ++ pack_le64 T' ++ repeat 0 32%nat ++ pack_le64 N'
  <-> D = D' /\ T = T' /\ N = N'.
Proof.
  intros HT HT' HN HN'. split; [|now intros (-> & -> & ->)].
  intros E.
  assert (length D = length D') as HL.
  { apply (f_equal length) in E. unfold pack_le64 in E.
    rewrite !length_app, !length_le_bytes, !repeat_length in E. lia. }
  apply app_inj_1 in E; [|exact HL]. destruct E as [-> E].
  apply app_inj_1 in E; [|unfold pack_le64; now rewrite !length_le_bytes].
  destruct E as [ET E]. apply app_inv_head in E.
  split; [reflexivity|]. split; now apply pack_le64_inj.
Qed.

Lemma header_injective_witness :
  [1; 2] ++ pack_le64 7 ++ repeat 0 32%nat ++ pack_le64 (2 ^ 64 - 1)
    = [1; 2; 7] ++ pack_le64 0 ++ repeat 0 32%nat ++ pack_le64 (2 ^ 64 - 1)
  <-> [1; 2] = [1; 2; 7] /\ 7 = 0 /\ 2 ^ 64 - 1 = 2 ^ 64 - 1.
Proof.
  apply (header_injective [1; 2] [1; 2; 7] 7 0 (2 ^ 64 - 1) (2 ^ 64 - 1));
    unfold is_u64; lia.
Defined.

(** ** The on-chain message *)

Lemma latin1_bytes_str b : Forall is_byte b -> latin1_bytes (latin1_str b) = b.
Proof.
  unfold latin1_bytes, latin1_str. induction 1 as [|x b Hx _ IH]; [reflexivity|].
  cbn [map]. rewrite IH. unfold is_byte in Hx.
  rewrite N_ascii_embedding by lia. now rewrite Z2N.id by lia.
Qed.

Lemma latin1_str_bytes s : latin1_str (latin1_bytes s) = s.
Proof.
  unfold latin1_bytes, latin1_str. induction s as [|c s IH]; [reflexivity|].
  cbn [map]. now rewrite IH, N2Z.id, ascii_N_embedding.
Qed.

Lemma latin1_bytes_bytes s : Forall is_byte (latin1_bytes s).
Proof.
  unfold latin1_bytes. induction s as [|c s IH]; constructor; [|exact IH].
  pose proof (N_ascii_bounded c). unfold is_byte. lia.
Qed.

(** The stand-in meets the interface. *)
#[local] Instance latin1_text : PyText.
Proof.
  refine {| str := list ascii;
            bytes_fromhex := fun s => Some (latin1_bytes s);
            bytes_hex := latin1_str;
            str_encode := latin1_bytes;
            bytes_decode := fun b => Some (latin1_str b) |}.
  - intros b Hb. now rewrite latin1_bytes_str.
  - intros s. now rewrite latin1_str_bytes.
  - apply latin1_bytes_bytes.
Defined.

Section Message.
Context {T : PyText}.

(** X24. A message written as [send_message_on_chain] builds it reads
    back: when its UTF-8 encoding has at most 255 bytes the payload
    exists and [decode_op_return] of its hex form returns the message;
    above 255 bytes no payload is built. *)
Theorem decode_op_return_round_trip (message : str) :
  (op_return (str_encode message) = None
   <-> (256 <= length (str_encode message))%nat)
  /\ forall payload, op_return (str_encode message) = Some payload ->
       decode_op_return (bytes_hex payload) = inl message.
Proof.
  unfold op_return.
  destruct (Z.ltb_spec (Z.of_nat (length (str_encode message))) 256) as [Hlt|Hge].
  - split; [split; [discriminate|lia]|].
    intros payload [= <-]. unfold decode_op_return.
    rewrite bytes_fromhex_hex.
    + cbn [app lookup list_lookup negb Z.eqb Pos.eqb].
      unfold slice. rewrite Nat2Z.id. cbn [drop].
      replace (2 + length (str_encode message) - 2)%nat
        with (length (str_encode message)) by lia.
      now rewrite drop_0, firstn_all, bytes_decode_encode.
    + repeat constructor; try (unfold is_byte; lia). apply str_encode_bytes.
  - split; [split; [lia|reflexivity]|]. discriminate.
Qed.

(** X25. [decode_op_return] trusts the length byte and checks nothing
    else: on the hex form of a byte string it raises [IndexError] exactly
    on the empty string and on the lone opcode, [ValueError] exactly when
    the first byte is not [0x6a], and it reads the same message whatever
    follows the announced length. *)
Theorem decode_op_return_edges (data message tail : list Z) :
  Forall is_byte data -> Forall is_byte message -> Forall is_byte tail ->
  (decode_op_return (bytes_hex data) = inr IndexError <-> data = [] \/ data = [106])
  /\ (decode_op_return (bytes_hex data) = inr ValueError
      <-> exists opcode rest, data = opcode :: rest /\ opcode <> 106)
  /\ (Z.of_nat (length message) < 256 ->
      decode_op_return
        (bytes_hex ([106; Z.of_nat (length message)] ++ message ++ tail))
      = decode_op_return (bytes_hex ([106; Z.of_nat (length message)] ++ message))).
Proof.
  intros Hd Hm Ht. split; [|split].
  - unfold decode_op_return. rewrite bytes_fromhex_hex by exact Hd.
    destruct data as [|opcode [|len rest]]; cbn [lookup list_lookup].
    + split; [now left|reflexivity].
    + destruct (Z.eqb_spec opcode 106) as [->|Hne]; cbn [negb].
      * split; [now right|reflexivity].
      * split; [discriminate|]. intros [E|[= E]]; [discriminate|contradiction].
    + destruct (Z.eqb_spec opcode 106) as [->|Hne]; cbn [negb].
      * destruct (bytes_decode _); split; try discriminate; intros [E|E]; discriminate.
      * split; [discriminate|]. intros [E|E]; discriminate.
  - unfold decode_op_return. rewrite bytes_fromhex_hex by exact Hd.
    destruct data as [|opcode [|len rest]]; cbn [lookup list_lookup].
    + split; [discriminate|]. intros (o & r & E & _). discriminate.
    + destruct (Z.eqb_spec opcode 106) as [->|Hne]; cbn [negb].
      * split; [discriminate|]. intros (o & r & [= <- _] & Ho). contradiction.
      * split; [|reflexivity]. intros _. now exists opcode, [].
    + destruct (Z.eqb_spec opcode 106) as [->|Hne]; cbn [negb].
      * split.
        -- destruct (bytes_decode _); discriminate.
        -- intros (o & r & [= <- _] & Ho). contradiction.
      * split; [|reflexivity]. intros _. now exists opcode, (len :: rest).
  - intros Hlen. unfold decode_op_return.
    rewrite !bytes_fromhex_hex.
    + cbn [app lookup list_lookup negb Z.eqb Pos.eqb].
      unfold slice. rewrite Nat2Z.id. cbn [drop].
      replace (2 + length message - 2)%nat with (length message) by lia.
      now rewrite !drop_0, take_app_length, firstn_all.
    + repeat constructor; try (unfold is_byte; lia). exact Hm.
    + repeat constructor; try (unfold is_byte; lia). now apply Forall_app.
Qed.

End Message.

Lemma decode_op_return_edges_witness :
  let data := [106; 2; 72; 105; 33] in
  (decode_op_return (bytes_hex data) = inr IndexError <-> data = [] \/ data = [106])
  /\ (decode_op_return (bytes_hex data) = inr ValueError
      <-> exists opcode rest, data = opcode :: rest /\ opcode <> 106)
  /\ (Z.of_nat (length [72; 105]) < 256 ->
      decode_op_return
        (bytes_hex ([106; Z.of_nat (length [72; 105])] ++ [72; 105] ++ [33]))
      = decode_op_return (bytes_hex ([106; Z.of_nat (length [72; 105])] ++ [72; 105]))).
Proof.
  cbv zeta.
  apply (decode_op_return_edges (T := latin1_text) [106; 2; 72; 105; 33] [72; 105] [33]);
    apply Forall_is_byte_check; reflexivity.
Defined.
